(** * Word-level circuits over And-Inverter Graphs (py-aiger-bv)

    A shallow embedding of the word-level composition layer:
    - [aiger]     : the bit-level circuit engine the code consumes
                    (an external collaborator, modelled by what its
                    operations compute);
    - [aigerbv]   : src/aigerbv/aigbv.py (name maps as sets of pairs);
    - [aiger_bv]  : src/aiger_bv/aigbv.py and src/aiger_bv/expr.py. *)

From Stdlib Require Import ZArith Lia List Ascii.
From stdpp Require Import base option list strings pretty gmap sets.

Open Scope Z_scope.
Set Warnings "-clear-no-such-hyp".

(** Python exceptions the modelled code can raise. *)
Inductive exn :=
  | AssertionError
  | NameError (name : string)
  | KeyError (key : string)
  | TypeError
  | AttributeError
  | NotImplementedError
  | OverflowError.

(** A computation that returns or raises. *)
Inductive result (A : Type) :=
  | Ok (a : A)
  | Raise (e : exn).
Arguments Ok {A} a.
Arguments Raise {A} e.

Definition bind {A B} (m : result A) (k : A → result B) : result B :=
  match m with Ok a => k a | Raise e => Raise e end.

Notation "x <-- m ; k" := (bind m (fun x => k))
  (at level 100, m at next level, right associativity).

Definition assert (b : bool) : result unit :=
  if b then Ok tt else Raise AssertionError.

Fixpoint mapR {A B} (f : A → result B) (l : list A) : result (list B) :=
  match l with
  | [] => Ok []
  | a :: l' => b <-- f a; bs <-- mapR f l'; Ok (b :: bs)
  end.

Definition getitem {V} (d : gmap string V) (k : string) : result V :=
  match d !! k with Some v => Ok v | None => Raise (KeyError k) end.

(** The name of bit [i] of the word [root]. *)
Definition bit_name (root : string) (i : nat) : string :=
  root +:+ "[" +:+ pretty i +:+ "]".

(** A word of [n] bits, least significant first, and back. *)
Definition bits_of (n : nat) (a : Z) : list bool :=
  (λ i : nat, Z.testbit a (Z.of_nat i)) <$> seq 0 n.

Fixpoint int_of (bs : list bool) : Z :=
  match bs with
  | [] => 0
  | b :: bs' => Z.b2z b + 2 * int_of bs'
  end.

(** ** The bit-level engine *)
Module aiger.

Abbreviation valuation := (gmap string bool).

(** A bit-level circuit: its input names, its output names, its latches
    with their initial values, and one evaluation step, from input and
    latch values to output and next latch values.  A step reads the
    values it needs and fails when one is missing. *)
Record AIG := mkAIG {
  inputs : gset string;
  outputs : gset string;
  latch2init : valuation;
  step : valuation → valuation → option (valuation * valuation)
}.

Definition latches (a : AIG) : gset string := dom (latch2init a).

(** [aig(inputs, latches)]: latches not given start from their initial
    value. *)
Definition call (a : AIG) (v : valuation) (ls : option valuation)
  : option (valuation * valuation) :=
  step a v (default ∅ ls ∪ latch2init a).

(** The outputs of a step from the initial latch values. *)
Definition eval (a : AIG) (v : valuation) : option valuation :=
  fst <$> call a v None.

(** Keep the entries of [m] whose key is (not) in [X]. *)
Definition restrict (X : gset string) (m : valuation) : valuation :=
  filter (λ kv, kv.1 ∈ X) m.
Definition drop (X : gset string) (m : valuation) : valuation :=
  filter (λ kv, kv.1 ∉ X) m.

(** [a >> b]: the outputs of [a] named like inputs of [b] feed [b]; the
    other outputs of [a] stay outputs. *)
Definition seq_compose (a b : AIG) : AIG :=
  let interface := outputs a ∩ inputs b in
  {| inputs := inputs a ∪ (inputs b ∖ interface);
     outputs := outputs b ∪ (outputs a ∖ interface);
     latch2init := latch2init a ∪ latch2init b;
     step v l :=
       ra ← step a v l;
       rb ← step b (restrict interface ra.1 ∪ v) l;
       Some (rb.1 ∪ drop interface ra.1, ra.2 ∪ rb.2) |}.

(** [a | b]: side by side, inputs of the same name shared. *)
Definition par_compose (a b : AIG) : AIG :=
  {| inputs := inputs a ∪ inputs b;
     outputs := outputs a ∪ outputs b;
     latch2init := latch2init a ∪ latch2init b;
     step v l :=
       ra ← step a v l;
       rb ← step b v l;
       Some (ra.1 ∪ rb.1, ra.2 ∪ rb.2) |}.

(** [common.source]: constant outputs, no input. *)
Definition source (consts : valuation) : AIG :=
  {| inputs := ∅; outputs := dom consts; latch2init := ∅;
     step _ _ := Some (consts, ∅) |}.

(** [common.sink]: consumes its inputs, no output. *)
Definition sink (names : list string) : AIG :=
  {| inputs := list_to_set names; outputs := ∅; latch2init := ∅;
     step v _ := _ ← mapM (λ n, v !! n) names; Some (∅, ∅) |}.

(** Renaming: the value a circuit reads under the old name [n] is the
    one given under [ren n]; a value it writes under [n] is found
    under [ren n]. *)
Definition rename_of (tbl : gmap string string) (n : string) : string :=
  default n (tbl !! n).
Definition pull (X : gset string) (tbl : gmap string string) (v : valuation)
  : valuation :=
  list_to_map (omap (λ n, pair n <$> v !! rename_of tbl n) (elements X)).
Definition push (tbl : gmap string string) (m : valuation) : valuation :=
  list_to_map (prod_map (rename_of tbl) id <$> map_to_list m).

(** [aig[kind, relabels]] for kind "i", "o" or "l". *)
Definition relabel (kind : string) (tbl : gmap string string) (a : AIG) : AIG :=
  if decide (kind = "i") then
    {| inputs := set_map (rename_of tbl) (inputs a);
       outputs := outputs a; latch2init := latch2init a;
       step v l := step a (pull (inputs a) tbl v) l |}
  else if decide (kind = "o") then
    {| inputs := inputs a;
       outputs := set_map (rename_of tbl) (outputs a);
       latch2init := latch2init a;
       step v l := r ← step a v l; Some (push tbl r.1, r.2) |}
  else
    {| inputs := inputs a; outputs := outputs a;
       latch2init := push tbl (latch2init a);
       step v l :=
         r ← step a v (pull (latches a) tbl l); Some (r.1, push tbl r.2) |}.

(** [aig.feedback(inputs, outputs, latches, keep_outputs)] without
    initial values: input [k] becomes a latch named [latches k], false
    at first, that takes the value of output [k] at each step. *)
Definition feedback (ins outs lnames : list string) (keep_outputs : bool)
    (a : AIG) : AIG :=
  {| inputs := inputs a ∖ list_to_set ins;
     outputs := if keep_outputs then outputs a
                else outputs a ∖ list_to_set outs;
     latch2init :=
       list_to_map ((λ l, (l, false)) <$> lnames) ∪ latch2init a;
     step v l :=
       let fed : valuation :=
         list_to_map (omap (λ il, pair il.1 <$> l !! il.2) (zip ins lnames)) in
       r ← step a (fed ∪ v) l;
       let next : valuation :=
         list_to_map (omap (λ ol, pair ol.2 <$> r.1 !! ol.1) (zip outs lnames)) in
       Some (if keep_outputs then r.1 else drop (list_to_set outs) r.1,
             next ∪ r.2) |}.

(** An and-inverter netlist in the ASCII AIGER format: literals are
    [2 * variable + negation], literal 0 is false. *)
Record AAG := mkAAG {
  aag_inputs : list (N * string);
  aag_outputs : list (N * string);
  aag_ands : list (N * N * N)
}.

Definition lit_val (vars : gmap N bool) (lit : N) : option bool :=
  if decide (N.div2 lit = 0%N) then Some (N.odd lit)
  else b ← vars !! N.div2 lit; Some (xorb b (N.odd lit)).

Fixpoint run_ands (ands : list (N * N * N)) (vars : gmap N bool)
  : option (gmap N bool) :=
  match ands with
  | [] => Some vars
  | (lhs, r0, r1) :: rest =>
      x ← lit_val vars r0;
      y ← lit_val vars r1;
      run_ands rest (<[N.div2 lhs := x && y]> vars)
  end.

Fixpoint read_inputs (ins : list (N * string)) (v : gmap string bool)
  : option (gmap N bool) :=
  match ins with
  | [] => Some ∅
  | (lit, name) :: rest =>
      b ← v !! name;
      vars ← read_inputs rest v;
      Some (<[N.div2 lit := b]> vars)
  end.

Fixpoint write_outputs (outs : list (N * string)) (vars : gmap N bool)
  : option (gmap string bool) :=
  match outs with
  | [] => Some ∅
  | (lit, name) :: rest =>
      b ← lit_val vars lit;
      m ← write_outputs rest vars;
      Some (<[name := b]> m)
  end.

(** [parser.parse] of a latch-free netlist. *)
Definition parse (g : AAG) : AIG :=
  {| inputs := list_to_set (aag_inputs g).*2;
     outputs := list_to_set (aag_outputs g).*2;
     latch2init := ∅;
     step v _ :=
       vars ← read_inputs (aag_inputs g) v;
       vars' ← run_ands (aag_ands g) vars;
       out ← write_outputs (aag_outputs g) vars';
       Some (out, ∅) |}.

(** A combinational gate: reads the bits named [ins], in order, and
    writes [f] of them to the bits named [outs]. *)
Definition gate (ins outs : list string) (f : list bool → list bool) : AIG :=
  {| inputs := list_to_set ins;
     outputs := list_to_set outs;
     latch2init := ∅;
     step v _ :=
       bits ← mapM (λ n, v !! n) ins;
       Some (list_to_map (zip outs (f bits)), ∅) |}.

(** [common.or_gate]: the disjunction of the inputs. *)
Definition or_gate (ins : list string) (out : string) : AIG :=
  gate ins [out] (λ bits, [foldr orb false bits]).

(** [common.and_gate] and [common.parity_gate]: the conjunction and the
    exclusive or of the inputs. *)
Definition and_gate (ins : list string) (out : string) : AIG :=
  gate ins [out] (λ bits, [foldr andb true bits]).
Definition parity_gate (ins : list string) (out : string) : AIG :=
  gate ins [out] (λ bits, [foldr xorb false bits]).

(** [common.bit_flipper]: output [k] is the negation of input [k]. *)
Definition bit_flipper (ins outs : list string) : AIG :=
  {| inputs := list_to_set ins;
     outputs := list_to_set outs;
     latch2init := ∅;
     step v _ :=
       bits ← mapM (λ n, v !! n) ins;
       Some (list_to_map (zip outs (negb <$> bits)), ∅) |}.

End aiger.

(** Python resolves a free name when the call runs: among the bindings
    in scope that could stand at the call, or [NameError]. *)
Fixpoint resolve {F} (scope : list (string * F)) (name : string) : result F :=
  match scope with
  | [] => Raise (NameError name)
  | (n, f) :: rest => if decide (n = name) then Ok f else resolve rest name
  end.

(** ** src/aigerbv/aigbv.py *)
Module aigerbv.

(** [BV_MAP]: a frozenset of (word name, bit names). *)
Abbreviation BV_MAP := (gset (string * list string)).

(** [fn.merge] of a sequence of dictionaries: later ones win; of no
    dictionary at all, [None]. *)
Definition merge (ds : list (gmap string bool)) : option (gmap string bool) :=
  match ds with
  | [] => None
  | _ => Some (foldl (λ acc d, d ∪ acc) ∅ ds)
  end.

Definition _blast (bvname2vals : gmap string (list bool)) (name_map : BV_MAP)
  : result (option (gmap string bool)) :=
  ds <-- mapR (λ '(bvname, names),
                 vals <-- getitem bvname2vals bvname;
                 Ok (list_to_map (reverse (zip names vals)) : gmap string bool))
              (elements name_map);
  Ok (merge ds).

(** The helper [_collect] that [_unblast] defines locally. *)
Definition _collect (name2vals : gmap string bool) (names : list string)
  : result (list bool) :=
  mapR (getitem name2vals) names.

(** [_unblast] binds its helper as [_collect] and calls [collect]: the
    call resolves among the local binding and the module (which defines
    no such function) each time the comprehension evaluates a value. *)
Definition _unblast (name2vals : gmap string bool) (name_map : BV_MAP)
  : result (gmap string (list bool)) :=
  let scope := [("_collect"%string, _collect name2vals)] in
  kvs <-- mapR (λ '(bvname, names),
                  collect <-- resolve scope "collect";
                  vals <-- collect names;
                  Ok (bvname, vals))
               (elements name_map);
  Ok (list_to_map (reverse kvs)).

(** The same comprehension with the call bound to the local helper. *)
Definition unblast_with_collect (name2vals : gmap string bool)
    (name_map : BV_MAP) : result (gmap string (list bool)) :=
  kvs <-- mapR (λ '(bvname, names),
                  vals <-- _collect name2vals names;
                  Ok (bvname, vals))
               (elements name_map);
  Ok (list_to_map (reverse kvs)).

Definition _named_indexes (wordlen : nat) (root : string) : list string :=
  (λ i : nat, root +:+ "[" +:+ pretty i +:+ "]") <$> seq 0 wordlen.

Fixpoint last_char (s : string) : Ascii.ascii :=
  match s with
  | EmptyString => "000"%char
  | String a EmptyString => a
  | String _ s' => last_char s'
  end.

(** The dictionary [dict(zip(names, vals[bvname]))] of one bundle. *)
Definition bundle_dict (vals : gmap string (list bool))
    (kv : string * list string) : gmap string bool :=
  list_to_map (reverse (zip kv.2 (default [] (vals !! kv.1)))).

Record AIGBV := mkAIGBV {
  aig : aiger.AIG;
  input_map : BV_MAP;
  output_map : BV_MAP;
  latch_map : BV_MAP
}.

Definition names_of (m : BV_MAP) : gset string := set_map fst m.
Definition inputs (c : AIGBV) := names_of (input_map c).
Definition outputs (c : AIGBV) := names_of (output_map c).
Definition latches (c : AIGBV) := names_of (latch_map c).

Definition is_empty (X : gset string) : bool := bool_decide (X = ∅).

Definition rshift (self other : AIGBV) : result AIGBV :=
  let interface := outputs self ∩ inputs other in
  _ <-- assert (is_empty (latches self ∩ latches other));
  _ <-- assert (is_empty ((outputs self ∖ interface) ∩ outputs other));
  let input_map2 := filter (λ kv, kv.1 ∉ interface) (input_map other) in
  let output_map2 := filter (λ kv, kv.1 ∉ interface) (output_map self) in
  Ok {| aig := aiger.seq_compose (aig self) (aig other);
        input_map := input_map self ∪ input_map2;
        output_map := output_map2 ∪ output_map other;
        latch_map := latch_map self ∪ latch_map other |}.

Definition bitwise_negate (wordlen : nat) (input output : string) : AIGBV :=
  let inputs := _named_indexes wordlen input in
  let outputs := _named_indexes wordlen output in
  {| aig := aiger.bit_flipper inputs outputs;
     input_map := {[ (input, inputs) ]};
     output_map := {[ (output, outputs) ]};
     latch_map := ∅ |}.

(** The netlist of the full adder:
    "aag 10 3 0 2 7", inputs 2 4 6, outputs 18 21, and its seven gates. *)
Definition _full_adder (x y carry_in result carry_out : string) : aiger.AIG :=
  aiger.parse
    {| aiger.aag_inputs := [(2, x); (4, y); (6, carry_in)]%N;
       aiger.aag_outputs := [(18, result); (21, carry_out)]%N;
       aiger.aag_ands :=
         [(8, 4, 2); (10, 5, 3); (12, 11, 9); (14, 12, 6);
          (16, 13, 7); (18, 17, 15); (20, 15, 9)]%N |}.

(** The loop of [adder]: one full adder per bit position, each reading
    and writing the carry wire. *)
Definition adder_step (carry_name : string) (acc : aiger.AIG)
    (names : string * string * string) : aiger.AIG :=
  let '(lname, rname, oname) := names in
  aiger.seq_compose acc (_full_adder lname rname carry_name oname carry_name).

Definition zip3 {A B C} (l1 : list A) (l2 : list B) (l3 : list C) :=
  zip (zip l1 l2) l3.

Definition adder_chain (carry_name : string)
    (lefts rights outputs : list string) : aiger.AIG :=
  foldl (adder_step carry_name)
        (aiger.source {[ carry_name := false ]})
        (zip3 lefts rights outputs).

(** The chain after [k] bit positions, as [adder] names its wires. *)
Definition chain (output : string) (k : nat) : aiger.AIG :=
  adder_chain (output +:+ "_carry") (_named_indexes k "left")
              (_named_indexes k "right") (_named_indexes k "output").

Definition adder (wordlen : nat) (output left right : string)
    (has_carry : bool) : result AIGBV :=
  let carry_name := output +:+ "_carry" in
  _ <-- assert (bool_decide (left ≠ carry_name) && bool_decide (right ≠ carry_name));
  let lefts := _named_indexes wordlen "left" in
  let rights := _named_indexes wordlen "right" in
  let outputs := _named_indexes wordlen "output" in
  let adder_aig := adder_chain carry_name lefts rights outputs in
  let adder_aig :=
    if has_carry then adder_aig
    else aiger.seq_compose adder_aig (aiger.sink [output +:+ "_carry"]) in
  Ok {| aig := adder_aig;
        input_map := {[ (left, lefts); (right, rights) ]};
        output_map := {[ (output, outputs) ]};
        latch_map := ∅ |}.

Definition is_nonzero_gate (wordlen : nat) (input output : string) : AIGBV :=
  let inputs := _named_indexes wordlen input in
  let outputs := _named_indexes 1 output in
  {| aig := aiger.or_gate inputs (default output (head outputs));
     input_map := {[ (input, inputs) ]};
     output_map := {[ (output, outputs) ]};
     latch_map := ∅ |}.

Definition is_zero_gate (wordlen : nat) (input output : string)
  : result AIGBV :=
  rshift (is_nonzero_gate wordlen input (input +:+ "out"))
         (bitwise_negate 1 (input +:+ "out") output).

(** The functions the module defines that a call
    [f(wordlen, input, output)] could reach; the module binds no
    [negater], and imports none. *)
Definition unary_gates
  : list (string * (nat → string → string → result AIGBV)) :=
  [("bitwise_negate"%string, λ n i o, Ok (bitwise_negate n i o));
   ("is_nonzero_gate"%string, λ n i o, Ok (is_nonzero_gate n i o));
   ("is_zero_gate"%string, is_zero_gate)].

Definition subtractor (wordlen : nat) (output left right : string)
    (has_carry : bool) : result AIGBV :=
  negater <-- resolve unary_gates "negater";
  neg <-- negater wordlen right right;
  add <-- adder wordlen output left right has_carry;
  rshift neg add.

(** What one full adder computes, and the carry entering position [k]
    of the ripple chain seeded with [c0]. *)
Definition full_sum (x y c : bool) : bool := xorb (xorb x y) c.
Definition full_carry (x y c : bool) : bool := (xorb x y && c) || (x && y).

Fixpoint carry_at (c0 : bool) (a b : Z) (k : nat) : bool :=
  match k with
  | O => c0
  | S k' => full_carry (Z.testbit a (Z.of_nat k')) (Z.testbit b (Z.of_nat k'))
                       (carry_at c0 a b k')
  end.

(** [self | other] *)
Definition or_ (self other : AIGBV) : result AIGBV :=
  _ <-- assert (is_empty (inputs self ∩ inputs other));
  _ <-- assert (is_empty (outputs self ∩ outputs other));
  _ <-- assert (is_empty (latches self ∩ latches other));
  Ok {| aig := aiger.par_compose (aig self) (aig other);
        input_map := input_map self ∪ input_map other;
        output_map := output_map self ∪ output_map other;
        latch_map := latch_map self ∪ latch_map other |}.

(** [reduce(op.or_, circuits)] with no initial value: of no circuit it
    raises [TypeError]. *)
Definition reduce_or (cs : list aiger.AIG) : result aiger.AIG :=
  match cs with
  | [] => Raise TypeError
  | c :: cs' => Ok (foldl aiger.par_compose c cs')
  end.

Definition bitwise_binop (binop : list string → string → aiger.AIG)
    (wordlen : nat) (left right output : string) : result AIGBV :=
  let lefts := _named_indexes wordlen left in
  let rights := _named_indexes wordlen right in
  let outputs := _named_indexes wordlen output in
  aig <-- reduce_or ((λ '(l, r, o), binop [l; r] o)
                       <$> zip3 lefts rights outputs);
  Ok {| aig := aig;
        input_map := {[ (left, lefts); (right, rights) ]};
        output_map := {[ (output, outputs) ]};
        latch_map := ∅ |}.

(** The circuit [bitwise_binop] has folded after the bit positions
    [0], ..., [k]. *)
Definition binop_chain (binop : list string → string → aiger.AIG)
    (left right output : string) (k : nat) : aiger.AIG :=
  foldl aiger.par_compose
        (binop [bit_name left 0; bit_name right 0] (bit_name output 0))
        ((λ i, binop [bit_name left i; bit_name right i] (bit_name output i))
           <$> seq 1 k).

Definition bitwise_and (wordlen : nat) (left right output : string) :=
  bitwise_binop aiger.and_gate wordlen left right output.
Definition bitwise_or (wordlen : nat) (left right output : string) :=
  bitwise_binop aiger.or_gate wordlen left right output.
Definition bitwise_xor (wordlen : nat) (left right output : string) :=
  bitwise_binop aiger.parity_gate wordlen left right output.

Definition neq_gate (wordlen : nat) (left right output : string)
  : result AIGBV :=
  x <-- bitwise_xor wordlen left right (left +:+ right);
  rshift x (is_nonzero_gate wordlen (left +:+ right) output).

Definition eq_gate (wordlen : nat) (left right output : string)
  : result AIGBV :=
  ne <-- neq_gate wordlen left right (left +:+ right);
  rshift ne (bitwise_negate 1 (left +:+ right) output).

(** [value.to_bytes(length, byteorder, signed=signed)]: the bytes of
    [value] in two's complement, least significant first when the byte
    order is little; [OverflowError] when [length] bytes do not hold
    the value. *)
Definition to_bytes (length : nat) (value : Z) (little signed : bool)
  : result (list Z) :=
  let m := 256 ^ Z.of_nat length in
  if (if signed then (- m <=? 2 * value) && (2 * value <? m)
      else (0 <=? value) && (value <? m))
  then
    let bs := (λ i : nat, (value / 256 ^ Z.of_nat i) mod 256) <$> seq 0 length in
    Ok (if little then bs else reverse bs)
  else Raise OverflowError.

(** [source]: it pairs the bit names of the word with the bytes of
    [value] (the engine takes a value for a bit by its truth) and lists
    the word among the inputs and among the outputs. *)
Definition source (wordlen : nat) (value : Z) (name : string)
    (signed little : bool) : result AIGBV :=
  _ <-- assert (value <? 2 ^ Z.of_nat wordlen);
  bits <-- to_bytes wordlen value little signed;
  let names := _named_indexes wordlen name in
  Ok {| aig := aiger.source
                 (list_to_map (reverse (zip names ((λ b, negb (b =? 0)) <$> bits))));
        input_map := {[ (name, names) ]};
        output_map := {[ (name, names) ]};
        latch_map := ∅ |}.

(** [(source(n, a, left) | source(n, b, right)) >> adder(n, output,
    left, right, has_carry)]: the adder on two constant sources. *)
Definition adder_on_sources (wordlen : nat) (a b : Z)
    (output left right : string) (has_carry : bool) : result AIGBV :=
  sx <-- source wordlen a left true true;
  sy <-- source wordlen b right true true;
  s <-- or_ sx sy;
  c <-- adder wordlen output left right has_carry;
  rshift s c.

(** A word-level evaluation of a combinational circuit: blast the
    input words, run one step, collect the output words by the helper
    [_collect]. *)
Definition run (c : AIGBV) (vals : gmap string (list bool))
  : option (gmap string (list bool)) :=
  match _blast vals (input_map c) with
  | Ok (Some v) =>
      out ← aiger.eval (aig c) v;
      match unblast_with_collect out (output_map c) with
      | Ok r => Some r
      | Raise _ => None
      end
  | _ => None
  end.

End aigerbv.

(** ** src/aiger_bv *)
Module aiger_bv.

(** Code that draws fresh names threads the generator's counter. *)
Definition M (A : Type) : Type := nat → result (A * nat).

Definition ret {A} (a : A) : M A := λ s, Ok (a, s).
Definition bindM {A B} (m : M A) (k : A → M B) : M B :=
  λ s, match m s with Ok (a, s') => k a s' | Raise e => Raise e end.
Definition lift {A} (r : result A) : M A :=
  λ s, match r with Ok a => Ok (a, s) | Raise e => Raise e end.

Notation "x <~ m ; k" := (bindM m (fun x => k))
  (at level 100, m at next level, right associativity).

Fixpoint mapM_ {A B} (f : A → M B) (l : list A) : M (list B) :=
  match l with
  | [] => ret []
  | a :: l' => b <~ f a; bs <~ mapM_ f l'; ret (b :: bs)
  end.

Fixpoint foldM {A B} (f : B → A → M B) (l : list A) (b : B) : M B :=
  match l with
  | [] => ret b
  | a :: l' => b' <~ f b a; foldM f l' b'
  end.

(** Modelled from the spec: [common._fresh] is not among the sources.
    Each call returns a name no earlier call returned. *)
Definition _fresh : M string := λ s, Ok ("_" +:+ pretty s, S s).

(** *** Bundle maps *)

(** Modelled from the spec: aiger_bv/bundle.py is not among the sources.
    A bundle map takes a word name to the size of its bundle; the bundle
    of the word [w] of size [n] is [w[0]], ..., [w[n-1]]. *)
Abbreviation BundleMap := (gmap string nat).

Definition bundle (name : string) (size : nat) : list string :=
  bit_name name <$> seq 0 size.

(** Modelled from the spec: lookup of a word name; an absent name is the
    spec's UnknownSignal, a [KeyError]. *)
Definition bm_getitem (m : BundleMap) (k : string) : result nat := getitem m k.

(** Modelled from the spec: [+], the disjoint union, fails when the two
    maps share a word name. *)
Definition bm_add (m1 m2 : BundleMap) : result BundleMap :=
  _ <-- assert (bool_decide (dom m1 ∩ dom m2 = ∅));
  Ok (m1 ∪ m2).

(** Modelled from the spec: [omit] drops the named entries. *)
Definition bm_omit (m : BundleMap) (X : gset string) : BundleMap :=
  filter (λ kv, kv.1 ∉ X) m.

(** Modelled from the spec: [relabel] renames word names and carries
    the bundles along. *)
Definition bm_relabel (m : BundleMap) (tbl : gmap string string) : BundleMap :=
  list_to_map (prod_map (aiger.rename_of tbl) id <$> map_to_list m).

(** Modelled from the spec: [blast] expands each word value into the
    bits of its bundle, in bundle order. *)
Definition bm_blast (m : BundleMap) (vals : gmap string (list bool))
  : result aiger.valuation :=
  ds <-- mapR (λ '(k, bits),
                 size <-- bm_getitem m k;
                 Ok (zip (bundle k size) bits))
              (map_to_list vals);
  Ok (list_to_map (mjoin ds)).

(** Modelled from the spec: [unblast] reassembles each word from the
    bits of its bundle, in bundle order. *)
Definition bm_unblast (m : BundleMap) (v : aiger.valuation)
  : result (gmap string (list bool)) :=
  kvs <-- mapR (λ '(k, size),
                  bits <-- mapR (getitem v) (bundle k size);
                  Ok (k, bits))
               (map_to_list m);
  Ok (list_to_map kvs).

(** *** aigbv.py *)
Record AIGBV := mkAIGBV {
  aig : aiger.AIG;
  imap : BundleMap;
  omap : BundleMap;
  lmap : BundleMap
}.

Definition inputs (c : AIGBV) : gset string := dom (imap c).
Definition outputs (c : AIGBV) : gset string := dom (omap c).
Definition latches (c : AIGBV) : gset string := dom (lmap c).

Definition is_empty (X : gset string) : bool := bool_decide (X = ∅).

Definition of_option {A} (e : exn) (o : option A) : result A :=
  match o with Some a => Ok a | None => Raise e end.

(** [__call__]: a bit the engine cannot find is a [KeyError]. *)
Definition call (self : AIGBV) (inputs : gmap string (list bool))
    (latches : option (gmap string (list bool)))
  : result (gmap string (list bool) * gmap string (list bool)) :=
  bi <-- bm_blast (imap self) inputs;
  bl <-- match latches with
         | None => Ok None
         | Some l => b <-- bm_blast (lmap self) l; Ok (Some b)
         end;
  r <-- of_option (KeyError "bit") (aiger.call (aig self) bi bl);
  o <-- bm_unblast (omap self) r.1;
  l <-- bm_unblast (lmap self) r.2;
  Ok (o, l).

Definition rshift (self other : AIGBV) : result AIGBV :=
  let interface := outputs self ∩ inputs other in
  _ <-- assert (is_empty (latches self ∩ latches other));
  _ <-- assert (is_empty ((outputs self ∖ interface) ∩ outputs other));
  let aig' := aiger.seq_compose (aig self) (aig other) in
  imap' <-- bm_add (imap self) (bm_omit (imap other) interface);
  omap' <-- bm_add (omap other) (bm_omit (omap self) interface);
  lmap' <-- bm_add (lmap self) (lmap other);
  Ok {| aig := aig'; imap := imap'; omap := omap'; lmap := lmap' |}.

(** [other << self] is [self >> other]. *)
Definition lshift (self other : AIGBV) : result AIGBV := rshift other self.

(** [fn.merge] of a sequence of dictionaries: later ones win; of no
    dictionary at all, [None]. *)
Definition merge {V} (ds : list (gmap string V)) : option (gmap string V) :=
  match ds with
  | [] => None
  | _ => Some (foldl (λ acc d, d ∪ acc) ∅ ds)
  end.

Definition get_map (kind : string) (c : AIGBV) : BundleMap :=
  if decide (kind = "i") then imap c
  else if decide (kind = "o") then omap c
  else lmap c.

Definition set_map_of (kind : string) (c : AIGBV) (m : BundleMap) : AIGBV :=
  if decide (kind = "i") then
    {| aig := aig c; imap := m; omap := omap c; lmap := lmap c |}
  else if decide (kind = "o") then
    {| aig := aig c; imap := imap c; omap := m; lmap := lmap c |}
  else
    {| aig := aig c; imap := imap c; omap := omap c; lmap := m |}.

(** [__getitem__]: [circuit[kind, relabels]]. *)
Definition relabel (self : AIGBV) (kind : string) (relabels : gmap string string)
  : result AIGBV :=
  if negb (bool_decide (kind ∈ ["i"; "o"; "l"]%string)) then
    Raise NotImplementedError
  else
    let bmap1 := get_map kind self in
    _ <-- assert (is_empty (list_to_set (map_to_list relabels).*2 ∩ dom bmap1));
    let bmap2 := bm_relabel bmap1 relabels in
    let circ := set_map_of kind self bmap2 in
    ds <-- mapR (λ '(k, v),
                   s1 <-- bm_getitem bmap1 k;
                   s2 <-- bm_getitem bmap2 v;
                   Ok (list_to_map (reverse (zip (bundle k s1) (bundle v s2)))
                       : gmap string string))
                (filter (λ kv, kv.1 ∈ dom bmap1) (map_to_list relabels));
    relabels_aig <-- of_option AttributeError (merge ds);
    Ok {| aig := aiger.relabel kind relabels_aig (aig circ);
          imap := imap circ; omap := omap circ; lmap := lmap circ |}.

(** Modelled from the spec: [common.tee] is not among the sources.  The
    fan-out of the word [orig] into the words [news], each a copy. *)
Definition tee (wordlen : nat) (orig : string) (news : list string) : AIGBV :=
  {| aig := aiger.gate (bundle orig wordlen)
              (mjoin ((λ n, bundle n wordlen) <$> news))
              (λ bits, mjoin ((λ _, bits) <$> news));
     imap := {[ orig := wordlen ]};
     omap := list_to_map ((λ n, (n, wordlen)) <$> news);
     lmap := ∅ |}.

(** [__or__] *)
Definition or_ (self other : AIGBV) : M AIGBV :=
  _ <~ lift (assert (is_empty (outputs self ∩ outputs other)));
  _ <~ lift (assert (is_empty (latches self ∩ latches other)));
  let shared_inputs := elements (inputs self ∩ inputs other) in
  let is_shared := negb (bool_decide (shared_inputs = [])) in
  relabels1 <~ mapM_ (λ n, f <~ _fresh; ret (n, f)) shared_inputs;
  relabels2 <~ mapM_ (λ n, f <~ _fresh; ret (n, f)) shared_inputs;
  let relabels1 : gmap string string := list_to_map (reverse relabels1) in
  let relabels2 : gmap string string := list_to_map (reverse relabels2) in
  self' <~ (if is_shared then lift (relabel self "i" relabels1) else ret self);
  other' <~ (if is_shared then lift (relabel other "i" relabels2) else ret other);
  let aig' := aiger.par_compose (aig self') (aig other') in
  imap' <~ lift (bm_add (imap self') (imap other'));
  omap' <~ lift (bm_add (omap self') (omap other'));
  lmap' <~ lift (bm_add (lmap self') (lmap other'));
  let circ := {| aig := aig'; imap := imap'; omap := omap'; lmap := lmap' |} in
  foldM (λ circ orig,
           new1 <~ lift (getitem relabels1 orig);
           new2 <~ lift (getitem relabels2 orig);
           size <~ lift (bm_getitem (imap self') orig);
           lift (lshift circ (tee size orig [new1; new2])))
        shared_inputs circ.

(** [latch2init] of a word circuit. *)
Definition latch2init (c : AIGBV) : result (gmap string (list bool)) :=
  bm_unblast (lmap c) (aiger.latch2init (aig c)).

(** [BV_NAME]: a name matches when it ends with a decimal index in
    square brackets; the root is what comes before the index. *)
Definition is_digit (c : ascii) : bool :=
  let n := nat_of_ascii c in (48 <=? n)%nat && (n <=? 57)%nat.

Fixpoint take_digits (cs : list ascii) : list ascii * list ascii :=
  match cs with
  | c :: cs' =>
      if is_digit c then let '(ds, rest) := take_digits cs' in (c :: ds, rest)
      else ([], cs)
  | [] => ([], [])
  end.

(** [int] of decimal digits given least significant first. *)
Fixpoint int_digits (ds : list ascii) : nat :=
  match ds with
  | [] => 0
  | c :: ds' => (nat_of_ascii c - 48) + 10 * int_digits ds'
  end.

Definition unpack_name (name : string) : result (string * nat) :=
  match reverse (String.list_ascii_of_string name) with
  | "]"%char :: cs =>
      match take_digits cs with
      | (d :: ds, "["%char :: root) =>
          Ok (String.string_of_list_ascii (reverse root), int_digits (d :: ds))
      | _ => Raise AttributeError
      end
  | _ => Raise AttributeError
  end.

Definition to_size (idxs : list nat) : result nat :=
  let idxs2 : gset nat := list_to_set idxs in
  _ <-- assert (bool_decide (size idxs2 = length idxs));
  _ <-- assert (bool_decide (foldr Nat.min (default 0 (head idxs)) idxs = 0))%nat;
  _ <-- assert (bool_decide (foldr Nat.max 0 idxs = length idxs - 1))%nat;
  Ok (length idxs).

(** [fn.group_values]: the indexes seen for each root. *)
Definition group_values (kvs : list (string * nat)) : gmap string (list nat) :=
  foldl (λ acc kv, <[kv.1 := default [] (acc !! kv.1) ++ [kv.2]]> acc) ∅ kvs.

Definition rebundle_names (names : gset string) : result BundleMap :=
  kvs <-- mapR unpack_name (elements names);
  sizes <-- mapR (λ '(k, idxs), n <-- to_size idxs; Ok (k, n))
                 (map_to_list (group_values kvs));
  Ok (list_to_map sizes).

Definition rebundle_aig (a : aiger.AIG) : result AIGBV :=
  imap' <-- rebundle_names (aiger.inputs a);
  omap' <-- rebundle_names (aiger.outputs a);
  lmap' <-- rebundle_names (aiger.latches a);
  Ok {| aig := a; imap := imap'; omap := omap'; lmap := lmap' |}.

(** [d.update(u)] changes [d] in place; what the call returns is [None]. *)
Definition dict_update {V} (d u : gmap string V)
  : gmap string V * option (gmap string V) :=
  (u ∪ d, None).

(** [x[k]] where [x] is what [update] returned. *)
Definition subscript {V} (x : option (gmap string V)) (k : string) : result V :=
  match x with
  | None => Raise TypeError
  | Some d => getitem d k
  end.

(** The local [blast] of [feedback]: [fn.lmapcat(bmap.get, vals)]; a
    name [bmap.get] does not find gives [None], which cannot be
    iterated. *)
Definition lmapcat_get (bmap : BundleMap) (vals : list string)
  : result (list string) :=
  bs <-- mapR (λ n, match bmap !! n with
                    | Some size => Ok (bundle n size)
                    | None => Raise TypeError
                    end) vals;
  Ok (mjoin bs).

Definition feedback (self : AIGBV) (inputs outputs : list string)
    (initials : option (list (option (list bool))))
    (latches : option (list string)) (keep_outputs : bool) : result AIGBV :=
  let latches := default inputs latches in
  sizes <-- mapR (λ '(i, l), s <-- bm_getitem (imap self) i; Ok (l, s))
                 (zip inputs latches);
  let lmap0 : BundleMap := list_to_map (reverse sizes) in
  ins <-- lmapcat_get (imap self) inputs;
  outs <-- lmapcat_get (omap self) outputs;
  ls <-- lmapcat_get lmap0 latches;
  aig' <-- rebundle_aig (aiger.feedback ins outs ls keep_outputs (aig self));
  match initials with
  | Some inits =>
      l2i <-- latch2init aig';
      let given : gmap string (list bool) :=
        list_to_map (reverse (base.omap (λ lv, pair lv.1 <$> lv.2)
                                        (zip latches inits))) in
      let l2init := (dict_update l2i given).2 in
      _ <-- mapR (subscript l2init) latches;
      Ok aig'
  | None => Ok aig'
  end.

(** *** common.py

    Modelled from the spec: aiger_bv/common.py is not among the sources.
    Each gate is the word circuit the spec describes: its bundle maps
    and, per bit position, what it computes. *)

Definition unary_gate (f : list bool → list bool) (osize : nat)
    (wordlen : nat) (input output : string) : AIGBV :=
  {| aig := aiger.gate (bundle input wordlen) (bundle output osize) f;
     imap := {[ input := wordlen ]};
     omap := {[ output := osize ]};
     lmap := ∅ |}.

Definition binary_gate (f : list bool → list bool → list bool) (osize : nat)
    (wordlen : nat) (left right output : string) : AIGBV :=
  {| aig := aiger.gate (bundle left wordlen ++ bundle right wordlen)
              (bundle output osize)
              (λ bits, f (take wordlen bits) (List.skipn wordlen bits));
     imap := {[ left := wordlen; right := wordlen ]};
     omap := {[ output := osize ]};
     lmap := ∅ |}.

Definition bitwise_negate (wordlen : nat) (input output : string) : AIGBV :=
  unary_gate (fmap negb) wordlen wordlen input output.
Definition identity_gate (wordlen : nat) (input output : string) : AIGBV :=
  unary_gate id wordlen wordlen input output.
Definition repeat_gate (wordlen : nat) (input output : string) : AIGBV :=
  unary_gate (λ bits, replicate wordlen (default false (head bits)))
             wordlen 1 input output.

Definition bitwise_and (wordlen : nat) (left right output : string) : AIGBV :=
  binary_gate (zip_with andb) wordlen wordlen left right output.
Definition bitwise_or (wordlen : nat) (left right output : string) : AIGBV :=
  binary_gate (zip_with orb) wordlen wordlen left right output.
Definition bitwise_xor (wordlen : nat) (left right output : string) : AIGBV :=
  binary_gate (zip_with xorb) wordlen wordlen left right output.

Definition word_op (n : nat) (f : Z → Z → Z) (x y : list bool) : list bool :=
  bits_of n (f (int_of x) (int_of y)).
Definition word_test (f : Z → Z → bool) (x y : list bool) : list bool :=
  [f (int_of x) (int_of y)].

(** The value of a word read as a two's-complement number. *)
Definition signed_of (x : list bool) : Z :=
  if default false (last x) then int_of x - 2 ^ Z.of_nat (length x)
  else int_of x.

Definition add_gate (wordlen : nat) (left right output : string) : AIGBV :=
  binary_gate (word_op wordlen Z.add) wordlen wordlen left right output.
Definition subtract_gate (wordlen : nat) (left right output : string) : AIGBV :=
  binary_gate (word_op wordlen Z.sub) wordlen wordlen left right output.
Definition ne_gate (wordlen : nat) (left right output : string) : AIGBV :=
  binary_gate (word_test (λ a b, negb (a =? b))) 1 wordlen left right output.
Definition unsigned_le_gate (wordlen : nat) (left right output : string) : AIGBV :=
  binary_gate (word_test Z.leb) 1 wordlen left right output.
Definition unsigned_ge_gate (wordlen : nat) (left right output : string) : AIGBV :=
  binary_gate (word_test Z.geb) 1 wordlen left right output.
Definition signed_le_gate (wordlen : nat) (left right output : string) : AIGBV :=
  binary_gate (λ x y, [signed_of x <=? signed_of y]) 1 wordlen left right output.
Definition signed_ge_gate (wordlen : nat) (left right output : string) : AIGBV :=
  binary_gate (λ x y, [signed_of x >=? signed_of y]) 1 wordlen left right output.

(** Modelled from the spec: [common.source], the constant word [value]
    with no input.  [signed] says how the integer is read; the bits of
    a value are its two's complement bits either way. *)
Definition source (wordlen : nat) (value : Z) (name : string)
    (signed : bool) : AIGBV :=
  {| aig := aiger.source (list_to_map (zip (bundle name wordlen)
                                           (bits_of wordlen value)));
     imap := ∅;
     omap := {[ name := wordlen ]};
     lmap := ∅ |}.

(** The words named [inputs], each of [wordlen] bits, consumed. *)
Definition sink (wordlen : nat) (inputs : list string) : AIGBV :=
  {| aig := aiger.sink (mjoin ((λ i, bundle i wordlen) <$> inputs));
     imap := list_to_map ((λ i, (i, wordlen)) <$> inputs);
     omap := ∅;
     lmap := ∅ |}.

(** *** expr.py *)

(** An expression object: its class ([SignedBVExpr] or not), the
    identity of the object held in its [aigbv] attribute, and that
    object.  The attribute is whatever the constructor was given: a word
    circuit, or, where the code passes one, another expression. *)
Inductive Expr :=
  | OfCircuit (sgn : bool) (self_id : nat) (circ_id : nat) (c : AIGBV)
  | OfExpr (sgn : bool) (self_id : nat) (e : Expr).

Definition signed (e : Expr) : bool :=
  match e with OfCircuit s _ _ _ | OfExpr s _ _ => s end.
Definition self_id (e : Expr) : nat :=
  match e with OfCircuit _ i _ _ | OfExpr _ i _ => i end.
Definition aigbv (e : Expr) : AIGBV + Expr :=
  match e with OfCircuit _ _ _ c => inl c | OfExpr _ _ e' => inr e' end.

(** The identity of the object in the [aigbv] attribute; [==] on these
    objects compares identities (the classes define no equality). *)
Definition oid (e : Expr) : nat :=
  match e with OfCircuit _ _ j _ => j | OfExpr _ _ e' => self_id e' end.

(** An attribute only word circuits have ([outputs], [omap]), read
    through [self.aigbv]. *)
Definition circuit_of (e : Expr) : result AIGBV :=
  match aigbv e with
  | inl c => Ok c
  | inr _ => Raise AttributeError
  end.

(** The object a constructor call builds has a new identity. *)
Definition alloc : M nat := λ s, Ok (s, S s).

(** [type(expr)(aigbv=circ)]: a new expression object; a circuit it is
    given has just been built and is a new object too. *)
Definition new_expr (sgn : bool) (c : AIGBV + Expr) : M Expr :=
  i <~ alloc;
  match c with
  | inl circ => j <~ alloc; ret (OfCircuit sgn i j circ)
  | inr e => ret (OfExpr sgn i e)
  end.

(** [fn.first]: of nothing, [None], which no later lookup finds. *)
Definition first {A} (l : list A) : result A :=
  of_option (KeyError "None") (head l).

Definition output (e : Expr) : result string :=
  c <-- circuit_of e; first (elements (outputs c)).

Definition size (e : Expr) : result nat :=
  c <-- circuit_of e; first (map_to_list (omap c)).*2.

(** [expr.inputs]: an expression has this attribute too. *)
Fixpoint expr_inputs (e : Expr) : gset string :=
  match e with
  | OfCircuit _ _ _ c => inputs c
  | OfExpr _ _ e' => expr_inputs e'
  end.

(** [__call__]: [self.aigbv(inputs)[0][self.output]]. *)
Fixpoint expr_call (e : Expr) (vals : gmap string (list bool))
  : result (list bool) :=
  match e with
  | OfCircuit _ _ _ c =>
      r <-- call c vals None;
      o <-- first (elements (outputs c));
      getitem r.1 o
  | OfExpr _ _ e' =>
      _ <-- expr_call e' vals;
      Raise AttributeError
  end.

Definition repeat (self : Expr) (times : nat) : M Expr :=
  s <~ lift (size self);
  _ <~ lift (assert (bool_decide (s = 1%nat)));
  out <~ lift (output self);
  f <~ _fresh;
  let repeater := repeat_gate times out f in
  c <~ lift (circuit_of self);
  r <~ lift (rshift c repeater);
  new_expr (signed self) (inl r).

(** [with_output]: [attr.evolve] builds a new expression around the
    relabelled circuit. *)
Definition with_output (self : Expr) (val : string) : M Expr :=
  c <~ lift (circuit_of self);
  o <~ lift (output self);
  c' <~ lift (relabel c "o" {[ o := val ]});
  new_expr (signed self) (inl c').

Definition _fresh_output (self : Expr) : M Expr :=
  f <~ _fresh;
  with_output self f.

Definition _unary_gate (gate : nat → string → string → AIGBV) (expr : Expr)
  : M Expr :=
  s <~ lift (size expr);
  i <~ lift (output expr);
  f <~ _fresh;
  let circ := gate s i f in
  c <~ lift (circuit_of expr);
  r <~ lift (rshift c circ);
  new_expr (signed expr) (inl r).

(** [atom]: a constant, a fresh symbol ([None]) or a named input. *)
Definition atom (wordlen : nat) (val : option (string + Z)) (sgn : bool)
  : M Expr :=
  output <~ _fresh;
  val <~ match val with
         | None => f <~ _fresh; ret (inl f)
         | Some v => ret v
         end;
  let circ := match val with
              | inl name => identity_gate wordlen name output
              | inr k => source wordlen k output sgn
              end in
  new_expr sgn (inl circ).

(** [constk k size]: the constant [k] beside a sink for the inputs. *)
Definition constk (k : Z) (size0 : option nat) (expr : Expr)
  : M (AIGBV + Expr) :=
  sz <~ match size0 with
        | None => lift (size expr)
        | Some s => ret s
        end;
  let src := source sz k "x" false in
  esz <~ lift (size expr);
  c <~ or_ src (sink esz (elements (expr_inputs expr)));
  ret (inl c).

Definition same_id (expr : Expr) : M (AIGBV + Expr) := ret (inr expr).

(** The path of [_binary_gate] that synthesizes the gate: the operands
    side by side, then the gate on their outputs. *)
Definition compose_gate (gate : nat → string → string → string → AIGBV)
    (expr1 expr2 : Expr) : M Expr :=
  c1 <~ lift (circuit_of expr1);
  c2 <~ lift (circuit_of expr2);
  expr2 <~ (if negb (is_empty (aiger.outputs (aig c1) ∩ aiger.outputs (aig c2)))
            then _fresh_output expr2 else ret expr2);
  c2 <~ lift (circuit_of expr2);
  circ3 <~ or_ c1 c2;
  s1 <~ lift (size expr1);
  f <~ _fresh;
  o1 <~ lift (output expr1);
  o2 <~ lift (output expr2);
  circ3 <~ lift (rshift circ3 (gate s1 o1 o2 f));
  new_expr (signed expr1) (inl circ3).

Definition _binary_gate (gate : nat → string → string → string → AIGBV)
    (expr1 : Expr) (expr2 : Expr + Z)
    (same_circ : option (Expr → M (AIGBV + Expr))) : M Expr :=
  expr2 <~ match expr2 with
           | inr k => s1 <~ lift (size expr1);
                      atom s1 (Some (inr k)) (signed expr1)
           | inl e => ret e
           end;
  s1 <~ lift (size expr1);
  s2 <~ lift (size expr2);
  _ <~ lift (assert (bool_decide (s1 = s2)));
  match same_circ with
  | Some f =>
      if bool_decide (oid expr1 = oid expr2) then
        r <~ f expr1; new_expr (signed expr1) r
      else compose_gate gate expr1 expr2
  | None => compose_gate gate expr1 expr2
  end.

Definition invert (self : Expr) : M Expr := _unary_gate bitwise_negate self.
Definition add (self : Expr) (other : Expr + Z) : M Expr :=
  _binary_gate add_gate self other (Some same_id).
Definition sub (self : Expr) (other : Expr + Z) : M Expr :=
  _binary_gate subtract_gate self other (Some (constk 0 None)).
Definition and_ (self : Expr) (other : Expr + Z) : M Expr :=
  _binary_gate bitwise_and self other (Some same_id).
Definition bor (self : Expr) (other : Expr + Z) : M Expr :=
  _binary_gate bitwise_or self other (Some same_id).
Definition xor (self : Expr) (other : Expr + Z) : M Expr :=
  _binary_gate bitwise_xor self other (Some (constk 0 None)).
Definition ne (self : Expr) (other : Expr + Z) : M Expr :=
  _binary_gate ne_gate self other (Some (constk 0 (Some 1%nat))).
Definition le (self : Expr) (other : Expr + Z) : M Expr :=
  _binary_gate (if signed self then signed_le_gate else unsigned_le_gate)
               self other (Some (constk 1 (Some 1%nat))).
Definition ge (self : Expr) (other : Expr + Z) : M Expr :=
  _binary_gate (if signed self then signed_ge_gate else unsigned_ge_gate)
               self other (Some (constk 1 (Some 1%nat))).

Definition ite (test expr_true expr_false : Expr) : M Expr :=
  st <~ lift (size test);
  _ <~ lift (assert (bool_decide (st = 1%nat)));
  s1 <~ lift (size expr_true);
  s2 <~ lift (size expr_false);
  _ <~ lift (assert (bool_decide (s1 = s2)));
  n <~ lift (size expr_true);
  test <~ repeat test n;
  nt <~ invert test;
  l <~ bor nt (inl expr_true);
  r <~ bor test (inl expr_false);
  and_ l (inl r).

(** Running a construction from a new generator and evaluating the
    expression it builds. *)
Definition run_expr (m : M Expr) (vals : gmap string (list bool))
  : result (list bool) :=
  match m 0%nat with
  | Ok (e, _) => expr_call e vals
  | Raise e => Raise e
  end.

(** [ite] of the constant [t] and two named inputs. *)
Definition ite_on (t : Z) (na nb : string) : M Expr :=
  test <~ atom 1 (Some (inr t)) false;
  a <~ atom 2 (Some (inl na)) false;
  b <~ atom 2 (Some (inl nb)) false;
  ite test a b.

(** [ite] of three named inputs, the test among them. *)
Definition ite_named (nt na nb : string) : M Expr :=
  test <~ atom 1 (Some (inl nt)) false;
  a <~ atom 2 (Some (inl na)) false;
  b <~ atom 2 (Some (inl nb)) false;
  ite test a b.

(** An operator applied to one expression twice, and to two
    expressions built alike. *)
Definition self_op (op : Expr → Expr + Z → M Expr) (mk : M Expr) : M Expr :=
  e <~ mk; op e (inl e).
Definition pair_op (op : Expr → Expr + Z → M Expr) (mk : M Expr) : M Expr :=
  e1 <~ mk; e2 <~ mk; op e1 (inl e2).

(** The construction [m], run from the generator state [s], returns an
    expression that evaluates to [bits] on the input words [vals]. *)
Definition evaluates_to (m : M Expr) (s : nat)
    (vals : gmap string (list bool)) (bits : list bool) : Prop :=
  ∃ (r : Expr) (s' : nat), m s = Ok (r, s') ∧ expr_call r vals = Ok bits.

(** What [constk] builds when the two circuits share no input: the
    constant beside the sink. *)
Definition const_circuit (m : nat) (k : Z) (n : nat) (ins : list string)
  : AIGBV :=
  {| aig := aiger.par_compose (aig (source m k "x" false)) (aig (sink n ins));
     imap := ∅ ∪ imap (sink n ins);
     omap := {[ "x"%string := m ]} ∪ ∅;
     lmap := ∅ ∪ ∅ |}.

(** The bits one word contributes to a blasted valuation. *)
Definition blast_word (n : nat) (kv : string * list bool)
  : list (string * bool) :=
  zip (bundle kv.1 n) kv.2.

(** *** Lifting bit-level circuits (aigbv.py) *)

Definition _diagonal_map (keys : gset string) : BundleMap :=
  gset_to_gmap 1%nat keys.

(** The relabelling [append_index] builds for one kind of name: every
    name gets the index 0. *)
Definition index_relabels (names : gset string) : gmap string string :=
  set_to_map (λ name, (name, name +:+ "[0]")) names.

(** The loop of [append_index]: inputs, then outputs, then latches, each
    read off the circuit relabelled so far. *)
Definition append_index (a : aiger.AIG) : aiger.AIG :=
  let a1 := aiger.relabel "i" (index_relabels (aiger.inputs a)) a in
  let a2 := aiger.relabel "o" (index_relabels (aiger.outputs a1)) a1 in
  aiger.relabel "l" (index_relabels (aiger.latches a2)) a2.

Definition aig2aigbv (a : aiger.AIG) : AIGBV :=
  {| aig := append_index a;
     imap := _diagonal_map (aiger.inputs a);
     omap := _diagonal_map (aiger.outputs a);
     lmap := _diagonal_map (aiger.latches a) |}.

(** The bit names of all the bundles of a bundle map. *)
Definition bm_names (m : BundleMap) : gset string :=
  list_to_set (map_to_list m ≫= λ kv, bundle kv.1 kv.2).

(** [BV_NAME_TIME]: a name matches when it ends with an index in square
    brackets, the mark of a time step, and the decimal time; the name
    is rebuilt with the time before the index, both as they were
    written. *)
Fixpoint drop_prefix (p l : list ascii) : option (list ascii) :=
  match p, l with
  | [], _ => Some l
  | a :: p', b :: l' => if decide (a = b) then drop_prefix p' l' else None
  | _ :: _, [] => None
  end.

Definition shuffle_id_time (name : string) : result string :=
  match take_digits (reverse (String.list_ascii_of_string name)) with
  | (t :: ts, rest) =>
      match drop_prefix (reverse (String.list_ascii_of_string "##time_")) rest with
      | Some ("]"%char :: cs) =>
          match take_digits cs with
          | (d :: ds, "["%char :: root) =>
              Ok (String.string_of_list_ascii (reverse root) +:+ "##time_"
                  +:+ String.string_of_list_ascii (reverse (t :: ts))
                  +:+ "[" +:+ String.string_of_list_ascii (reverse (d :: ds))
                  +:+ "]")
          | _ => Raise AttributeError
          end
      | _ => Raise AttributeError
      end
  | _ => Raise AttributeError
  end.

(** *** Subscripts (expr.py) *)

(** Modelled from the spec: [common.index_gate] is not among the
    sources.  Bit [idx] of the input word, as a word of one bit. *)
Definition index_gate (wordlen idx : nat) (input output : string) : AIGBV :=
  unary_gate (λ bits, [default false (bits !! idx)]) 1 wordlen input output.

(** What stands between the brackets of an expression's subscript: an
    integer, or a slice whose start, stop and step may be left out. *)
Inductive Subscript :=
  | Index (i : Z)
  | Slice (start stop step : option Z).

(** [_indexer]: the size, the output, then the fresh name. *)
Definition _indexer (self : Expr) (idx : nat) : M AIGBV :=
  s <~ lift (size self);
  o <~ lift (output self);
  f <~ _fresh;
  ret (index_gate s idx o f).

(** [__getitem__].  A slice rebuilt for a missing start or stop has no
    step; the chained comparison of the assertion reads the size last;
    the result is an [UnsignedBVExpr] whatever the class of [self]. *)
Definition expr_getitem (self : Expr) (idx : Subscript) : M Expr :=
  let '(start, stop, step) :=
    match idx with
    | Index i => (Some i, Some (i + 1), None)
    | Slice a b c => (a, b, c)
    end in
  let '(start, stop, step) :=
    match start with
    | None => (0, stop, None)
    | Some a => (a, stop, step)
    end in
  ss <~ match stop with
        | None => sz <~ lift (size self); ret (Z.of_nat sz, None)
        | Some b => ret (b, step)
        end;
  let '(stop, step) := ss in
  match step with
  | Some _ => lift (Raise NotImplementedError)
  | None =>
      _ <~ lift (assert ((0 <=? start) && (start <? stop)));
      sz <~ lift (size self);
      _ <~ lift (assert (stop <=? Z.of_nat sz));
      let indicies := seq (Z.to_nat start) (Z.to_nat (stop - start)) in
      match indicies with
      | [i] =>
          indexer <~ _indexer self i;
          c <~ lift (circuit_of self);
          r <~ lift (rshift c indexer);
          new_expr false (inl r)
      | i :: rest =>
          x <~ _indexer self i;
          indexer <~ foldM (λ x i', y <~ _indexer self i'; or_ x y) rest x;
          c <~ lift (circuit_of self);
          r <~ lift (rshift c indexer);
          new_expr false (inl r)
      | [] => lift (Raise TypeError)
      end
  end.

(** *** Derived comparisons (expr.py) *)

(** [==], [<] and [>] negate [!=], [>=] and [<=]. *)
Definition eq (self : Expr) (other : Expr + Z) : M Expr :=
  r <~ ne self other; invert r.
Definition lt (self : Expr) (other : Expr + Z) : M Expr :=
  r <~ ge self other; invert r.
Definition gt (self : Expr) (other : Expr + Z) : M Expr :=
  r <~ le self other; invert r.

(** An operator applied to two atoms that read the words [a] and [b]. *)
Definition on_atoms (op : Expr → Expr + Z → M Expr) (n : nat)
    (a b : string) (sgn : bool) : M Expr :=
  e1 <~ atom n (Some (inl a)) sgn;
  e2 <~ atom n (Some (inl b)) sgn;
  op e1 (inl e2).

End aiger_bv.
(** * Properties

    First the word arithmetic and the naming of bits, then the
    circuits of src/aigerbv/aigbv.py, then those of src/aiger_bv. *)

Import aigerbv.

(** ** Ripple-carry arithmetic *)

Lemma carry_at_bits (c0 : bool) (a b c : Z) :
  c / 2 = Z.lor (Z.land a b) (Z.land c (Z.lor a b)) → Z.testbit c 0 = c0 →
  ∀ k : nat, carry_at c0 a b k = Z.testbit c (Z.of_nat k).
Proof.
  intros Hc H0 k. induction k as [|k IH]; cbn [carry_at].
  - change (Z.of_nat 0) with 0. by rewrite H0.
  - rewrite IH, Nat2Z.inj_succ.
    replace (Z.succ (Z.of_nat k)) with (Z.of_nat k + 1) by lia.
    rewrite <- (Z.div_pow2_bits c 1 (Z.of_nat k)) by lia.
    change (2 ^ 1) with 2. rewrite Hc.
    rewrite Z.lor_spec, !Z.land_spec, Z.lor_spec. unfold full_carry.
    generalize (Z.testbit a (Z.of_nat k)), (Z.testbit b (Z.of_nat k)),
      (Z.testbit c (Z.of_nat k)). by intros [] [] [].
Qed.

Lemma add_bit (c0 : bool) (a b : Z) (k : nat) :
  Z.testbit (a + b + Z.b2z c0) (Z.of_nat k)
  = full_sum (Z.testbit a (Z.of_nat k)) (Z.testbit b (Z.of_nat k))
             (carry_at c0 a b k).
Proof.
  destruct (Z.add_carry_bits a b c0) as (c & E1 & E2 & E3).
  rewrite (carry_at_bits c0 a b c E2 E3), E1. unfold full_sum.
  by rewrite !Z.lxor_spec.
Qed.


Lemma carry_out_bit (c0 : bool) (a b : Z) (n : nat) :
  0 ≤ a < 2 ^ Z.of_nat n → 0 ≤ b < 2 ^ Z.of_nat n →
  carry_at c0 a b n = Z.testbit (a + b + Z.b2z c0) (Z.of_nat n).
Proof.
  intros Ha Hb. rewrite add_bit.
  assert (∀ x, 0 ≤ x < 2 ^ Z.of_nat n → Z.testbit x (Z.of_nat n) = false) as Hhi.
  { intros x Hx. destruct (decide (x = 0)) as [->|]; [apply Z.bits_0|].
    apply Z.bits_above_log2; [lia|]. apply Z.log2_lt_pow2; lia. }
  rewrite (Hhi a Ha), (Hhi b Hb). unfold full_sum. by destruct (carry_at _ _ _ _).
Qed.

Lemma bits_of_S (n : nat) (z : Z) :
  bits_of (S n) z = Z.testbit z 0 :: bits_of n (z / 2).
Proof.
  unfold bits_of. simpl. f_equal. rewrite <- fmap_S_seq, <- list_fmap_compose.
  apply list_fmap_ext. intros _ i _. unfold compose.
  rewrite Nat2Z.inj_succ.
  replace (Z.succ (Z.of_nat i)) with (Z.of_nat i + 1) by lia.
  rewrite <- (Z.div_pow2_bits z 1 (Z.of_nat i)) by lia. done.
Qed.

Lemma int_of_bits_of (n : nat) (z : Z) :
  int_of (bits_of n z) = z mod 2 ^ Z.of_nat n.
Proof.
  revert z. induction n as [|n IH]; intros z.
  - simpl. by rewrite Z.mod_1_r.
  - rewrite bits_of_S. cbn [int_of].
    rewrite IH, Nat2Z.inj_succ, Z.pow_succ_r by lia.
    rewrite Z.rem_mul_r by lia. by rewrite Z.bit0_mod.
Qed.

Lemma bits_of_mod (n : nat) (z : Z) :
  bits_of n (z mod 2 ^ Z.of_nat n) = bits_of n z.
Proof.
  unfold bits_of. apply list_fmap_ext. intros j i [-> Hj]%lookup_seq.
  apply Z.mod_pow2_bits_low. lia.
Qed.

(** ** Bit names *)
Lemma named_indexes_fmap (n : nat) (root : string) :
  _named_indexes n root = bit_name root <$> seq 0 n.
Proof. reflexivity. Qed.

Lemma named_indexes_S (n : nat) (root : string) :
  _named_indexes (S n) root = _named_indexes n root ++ [bit_name root n].
Proof. by rewrite !named_indexes_fmap, seq_S, fmap_app. Qed.

Lemma named_indexes_length (n : nat) (root : string) :
  length (_named_indexes n root) = n.
Proof. by rewrite named_indexes_fmap, length_fmap, length_seq. Qed.

Lemma named_indexes_lookup (n : nat) (root : string) (i : nat) :
  (i < n)%nat → _named_indexes n root !! i = Some (bit_name root i).
Proof.
  intros Hi. rewrite named_indexes_fmap, list_lookup_fmap, lookup_seq_lt by done.
  done.
Qed.

Lemma elem_of_named_indexes (n : nat) (root s : string) :
  s ∈ _named_indexes n root ↔ ∃ i, (i < n)%nat ∧ s = bit_name root i.
Proof.
  rewrite named_indexes_fmap, list_elem_of_fmap. split.
  - intros (i & -> & Hi%elem_of_seq). exists i. split; [lia|done].
  - intros (i & Hi & ->). exists i. split; [done|]. apply elem_of_seq. lia.
Qed.

Lemma string_app_inj_r (s1 s2 : string) (a : Ascii.ascii) :
  s1 +:+ String a EmptyString = s2 +:+ String a EmptyString → s1 = s2.
Proof.
  revert s2. induction s1 as [|c s1 IH]; intros [|d s2] H; simplify_eq/=.
  - done.
  - by destruct s2.
  - by destruct s1.
  - f_equal. by apply IH.
Qed.

Lemma bit_name_inj (root : string) : Inj (=) (=) (bit_name root).
Proof.
  intros i j H. unfold bit_name in H.
  apply (inj (String.app root)) in H. simplify_eq/=.
  apply string_app_inj_r in H. by apply (inj pretty) in H.
Qed.

Lemma last_char_app (s t : string) :
  t ≠ EmptyString → last_char (s +:+ t) = last_char t.
Proof.
  intros Ht. induction s as [|c s IH]; [done|].
  rewrite <- IH. change (String c s +:+ t) with (String c (s +:+ t)).
  destruct (s +:+ t) eqn:E; [by destruct s, t|done].
Qed.

Lemma last_char_bit_name (root : string) (i : nat) :
  last_char (bit_name root i) = "]"%char.
Proof.
  unfold bit_name. rewrite last_char_app by done.
  change ("[" +:+ pretty i +:+ "]") with (String "[" (pretty i +:+ "]")).
  cbn [last_char]. rewrite last_char_app by done.
  by destruct (pretty i +:+ "]") eqn:E; [destruct (pretty i)|].
Qed.

Lemma carry_name_not_bit (output root : string) (i : nat) :
  output +:+ "_carry" ≠ bit_name root i.
Proof.
  intros H. apply (f_equal last_char) in H.
  rewrite last_char_bit_name, last_char_app in H by done. done.
Qed.

(** ** Evaluation in the bit-level engine *)
Lemma restrict_lookup_in (X : gset string) (m : gmap string bool) (i : string) :
  i ∈ X → aiger.restrict X m !! i = m !! i.
Proof.
  intros Hi. unfold aiger.restrict. apply option_eq. intros x.
  rewrite map_lookup_filter_Some. naive_solver.
Qed.

Lemma restrict_lookup_out (X : gset string) (m : gmap string bool) (i : string) :
  i ∉ X → aiger.restrict X m !! i = None.
Proof.
  intros Hi. unfold aiger.restrict. apply map_lookup_filter_None. naive_solver.
Qed.

Lemma drop_lookup_out (X : gset string) (m : gmap string bool) (i : string) :
  i ∉ X → aiger.drop X m !! i = m !! i.
Proof.
  intros Hi. unfold aiger.drop. apply option_eq. intros x.
  rewrite map_lookup_filter_Some. naive_solver.
Qed.

Lemma drop_lookup_in (X : gset string) (m : gmap string bool) (i : string) :
  i ∈ X → aiger.drop X m !! i = None.
Proof.
  intros Hi. unfold aiger.drop. apply map_lookup_filter_None. naive_solver.
Qed.

Lemma dom_drop (X : gset string) (m : gmap string bool) :
  dom (aiger.drop X m) = dom m ∖ X.
Proof.
  apply set_eq. intros i. rewrite elem_of_difference, !elem_of_dom.
  destruct (decide (i ∈ X)).
  - rewrite drop_lookup_in by done. split; [by intros [? ?]|tauto].
  - rewrite drop_lookup_out by done. tauto.
Qed.

Lemma full_adder_eval (x y cin res cout : string) (v : gmap string bool)
    (l : gmap string bool) (bx bj bc : bool) :
  v !! x = Some bx → v !! y = Some bj → v !! cin = Some bc →
  aiger.step (_full_adder x y cin res cout) v l
  = Some (<[res := full_sum bx bj bc]> (<[cout := full_carry bx bj bc]> ∅), ∅).
Proof.
  intros Hx Hy Hc. unfold _full_adder, aiger.parse.
  cbn [aiger.step aiger.aag_inputs aiger.aag_outputs aiger.aag_ands
       aiger.read_inputs].
  rewrite Hx, Hy, Hc. destruct bx, bj, bc; reflexivity.
Qed.

Lemma bit_not_carry_name (output root : string) (i : nat) :
  bit_name root i ≠ output +:+ "_carry".
Proof. intros H. by apply symmetry, carry_name_not_bit in H. Qed.

Lemma output_bits_fresh (output : string) (k j : nat) (s : string) :
  s ∈ _named_indexes k "output" →
  s ≠ bit_name "left" j ∧ s ≠ bit_name "right" j ∧ s ≠ output +:+ "_carry".
Proof.
  intros (i & _ & ->)%elem_of_named_indexes. split_and!; [done..|].
  intros H. by apply symmetry, carry_name_not_bit in H.
Qed.

Section adder_chain.
Variables (output : string) (a b : Z) (v l : gmap string bool) (n : nat).
Hypothesis Hl : ∀ i : nat, (i < n)%nat →
  v !! bit_name "left" i = Some (Z.testbit a (Z.of_nat i)).
Hypothesis Hr : ∀ i : nat, (i < n)%nat →
  v !! bit_name "right" i = Some (Z.testbit b (Z.of_nat i)).

Lemma chain_S (k : nat) :
  chain output (S k) = adder_step (output +:+ "_carry") (chain output k)
    (bit_name "left" k, bit_name "right" k, bit_name "output" k).
Proof using Type.
  unfold chain, adder_chain, zip3. rewrite !named_indexes_S.
  rewrite (zip_with_app pair (_named_indexes k "left"))
    by by rewrite !named_indexes_length.
  rewrite zip_with_app
    by (rewrite length_zip_with, !named_indexes_length; lia).
  cbn [zip_with]. by rewrite foldl_snoc.
Qed.

Lemma chain_outputs (k : nat) :
  aiger.outputs (chain output k)
  = {[ (output +:+ "_carry") ]} ∪ list_to_set (_named_indexes k "output").
Proof using Type.
  clear Hl Hr.
  induction k as [|k IH].
  - cbn. rewrite dom_singleton_L. set_solver.
  - rewrite chain_S. cbn [adder_step aiger.seq_compose aiger.outputs].
    rewrite IH, named_indexes_S, list_to_set_app_L. cbn.
    pose proof (output_bits_fresh output k k) as Hfresh.
    assert (∀ s, s ∈@{gset string} list_to_set (_named_indexes k "output") →
      s ≠ bit_name "left" k ∧ s ≠ bit_name "right" k ∧ s ≠ (output +:+ "_carry")) as HO.
    { intros s Hs%elem_of_list_to_set. by apply Hfresh. }
    clear IH Hfresh.
    generalize dependent (list_to_set (C:=gset string) (_named_indexes k "output")).
    intros O HO. apply set_eq. intros s. specialize (HO s). set_solver.
Qed.

Lemma chain_latches (k : nat) :
  aiger.latch2init (chain output k) = ∅.
Proof using Type.
  clear Hl Hr.
  induction k as [|k IH]; [done|].
  rewrite chain_S. cbn [adder_step aiger.seq_compose aiger.latch2init].
  rewrite IH. cbn. by rewrite (left_id_L ∅ (∪)).
Qed.

Lemma chain_interface (k : nat) :
  aiger.outputs (chain output k)
    ∩ aiger.inputs (_full_adder (bit_name "left" k) (bit_name "right" k)
                      (output +:+ "_carry") (bit_name "output" k) (output +:+ "_carry"))
  = {[ (output +:+ "_carry") ]}.
Proof using Type.
  clear Hl Hr.
  rewrite chain_outputs. cbn. apply set_eq. intros s.
  rewrite elem_of_intersection, elem_of_union, elem_of_list_to_set,
    elem_of_named_indexes. set_unfold. split; [|naive_solver].
  intros [[->|(i & _ & ->)] H]; [done|].
  destruct H as [H|[H|[H|[]]]]; [done..|].
  by apply symmetry, carry_name_not_bit in H.
Qed.

Lemma chain_eval (k : nat) :
  (k ≤ n)%nat →
  ∃ m l' : gmap string bool,
    aiger.step (chain output k) v l = Some (m, l')
    ∧ m !! (output +:+ "_carry") = Some (carry_at false a b k)
    ∧ (∀ j : nat, (j < k)%nat →
         m !! bit_name "output" j = Some (Z.testbit (a + b) (Z.of_nat j)))
    ∧ dom m = {[ (output +:+ "_carry") ]} ∪ list_to_set (_named_indexes k "output").
Proof.
  induction k as [|k IH]; intros Hk.
  - exists {[ (output +:+ "_carry") := false ]}, ∅. split_and!; [done| |intros; lia|].
    + by rewrite lookup_singleton_eq.
    + rewrite dom_singleton_L. set_solver.
  - destruct IH as (m & l' & Hev & Hc & Hout & Hdom); [lia|].
    rewrite chain_S. cbn [adder_step aiger.seq_compose aiger.step].
    rewrite Hev. cbn [mbind option_bind fst snd]. rewrite chain_interface.
    erewrite full_adder_eval; cycle 1.
    { rewrite lookup_union_r; [apply Hl; lia|].
      apply restrict_lookup_out. set_unfold. apply bit_not_carry_name. }
    { rewrite lookup_union_r; [apply Hr; lia|].
      apply restrict_lookup_out. set_unfold. apply bit_not_carry_name. }
    { apply lookup_union_Some_l. rewrite restrict_lookup_in by set_solver.
      exact Hc. }
    cbn [mbind option_bind fst snd]. eexists _, _. split; [done|].
    assert (bit_name "output" k ≠ (output +:+ "_carry")) as Hne
      by apply bit_not_carry_name.
    split_and!.
    + apply lookup_union_Some_l.
      by rewrite lookup_insert_ne, lookup_insert_eq.
    + intros j Hj. destruct (decide (j = k)) as [->|Hjk].
      * apply lookup_union_Some_l. rewrite lookup_insert_eq. f_equal.
        by rewrite <- (Z.add_0_r (a + b)), (add_bit false).
      * rewrite lookup_union_r.
        -- rewrite drop_lookup_out; [apply Hout; lia|].
           set_unfold. apply bit_not_carry_name.
        -- rewrite !lookup_insert_ne; [done|..].
           ++ apply carry_name_not_bit.
           ++ intros H. by apply bit_name_inj in H.
    + rewrite dom_union_L, !dom_insert_L, dom_empty_L, dom_drop, Hdom,
        named_indexes_S, list_to_set_app_L.
      assert (∀ s, s ∈@{gset string} list_to_set (_named_indexes k "output") →
        s ≠ (output +:+ "_carry")) as HO.
      { intros s Hs%elem_of_list_to_set.
        by apply (output_bits_fresh output k k). }
      change (list_to_set [bit_name "output" k])
        with ({[ bit_name "output" k ]} ∪ (∅ : gset string)).
      clear Hdom.
      generalize dependent
        (list_to_set (C:=gset string) (_named_indexes k "output")).
      intros O HO. apply set_eq. intros s. specialize (HO s). set_solver.
Qed.
End adder_chain.

(** ** Blasting word values *)
Lemma mapR_fmap {A B} (f : A → result B) (g : A → B) (l : list A) :
  (∀ a, a ∈ l → f a = Ok (g a)) → mapR f l = Ok (g <$> l).
Proof.
  induction l as [|a l IH]; intros H; [done|]. cbn.
  rewrite (H a) by left. cbn. rewrite IH; [done|].
  intros a' Ha'. apply H. by right.
Qed.

Lemma foldl_union_lookup (ds : list (gmap string bool)) (acc : gmap string bool)
    (n : string) (x : bool) :
  (∀ d, d ∈ ds → d !! n = None ∨ d !! n = Some x) →
  acc !! n = Some x ∨ (acc !! n = None ∧ ∃ d, d ∈ ds ∧ d !! n = Some x) →
  foldl (λ acc d, d ∪ acc) acc ds !! n = Some x.
Proof.
  revert acc. induction ds as [|d ds IH]; intros acc Hall Hacc; cbn.
  - destruct Hacc as [?|[_ (d & Hd & _)]]; [done|]. by apply elem_of_nil in Hd.
  - apply IH; [intros d' Hd'; apply Hall; by right|].
    destruct (Hall d) as [Hd|Hd]; [by left| |].
    + rewrite lookup_union_r by done.
      destruct Hacc as [?|[? (d' & Hd' & Hx)]]; [by left|right].
      split; [done|]. exists d'. split; [|done].
      apply elem_of_cons in Hd' as [->|?]; [congruence|done].
    + left. by apply lookup_union_Some_l.
Qed.

Lemma bundle_dict_lookup_in (vals : gmap string (list bool))
    (bv : string) (names : list string) (vs : list bool) (n : string) (x : bool) :
  vals !! bv = Some vs → NoDup names → (n, x) ∈ zip names vs →
  bundle_dict vals (bv, names) !! n = Some x.
Proof.
  intros Hv Hnd Hin. unfold bundle_dict. cbn [fst snd]. rewrite Hv.
  change (default [] (Some vs)) with vs.
  apply elem_of_list_to_map_1; [|by apply elem_of_reverse].
  rewrite fmap_reverse, reverse_Permutation.
  apply NoDup_fmap_fst; [|by apply NoDup_zip_l].
  intros k y1 y2 H1 H2.
  apply list_elem_of_lookup in H1 as (i & Hi).
  apply list_elem_of_lookup in H2 as (j & Hj).
  apply lookup_zip_with_Some in Hi as (? & ? & ? & Hi1 & Hi2).
  apply lookup_zip_with_Some in Hj as (? & ? & ? & Hj1 & Hj2).
  simplify_eq. assert (i = j) as -> by by eapply NoDup_lookup. congruence.
Qed.

Lemma bundle_dict_lookup_out (vals : gmap string (list bool))
    (bv : string) (names : list string) (n : string) :
  n ∉ names → bundle_dict vals (bv, names) !! n = None.
Proof.
  intros Hn. unfold bundle_dict. apply not_elem_of_list_to_map_1.
  rewrite fmap_reverse, elem_of_reverse. intros Hin. apply Hn.
  apply list_elem_of_fmap in Hin as ([k y] & -> & Hin).
  by apply elem_of_zip_l in Hin.
Qed.

Lemma blast_spec (vals : gmap string (list bool)) (name_map : BV_MAP) :
  name_map ≠ ∅ →
  (∀ kv, kv ∈ name_map → is_Some (vals !! kv.1)) →
  ∃ v : gmap string bool,
    _blast vals name_map = Ok (Some v)
    ∧ ∀ bv names vs n x,
        (bv, names) ∈ name_map → vals !! bv = Some vs → NoDup names →
        (n, x) ∈ zip names vs →
        (∀ kv', kv' ∈ name_map → n ∈ kv'.2 → kv' = (bv, names)) →
        v !! n = Some x.
Proof.
  intros Hne Hvals.
  exists (foldl (λ acc d, d ∪ acc) ∅ (bundle_dict vals <$> elements name_map)).
  split.
  - unfold _blast. erewrite (mapR_fmap _ (bundle_dict vals)).
    + cbn. unfold merge.
      destruct (elements name_map) eqn:E; [|done].
      apply elements_empty_inv in E. set_solver.
    + intros [bv names] Hin%elem_of_elements.
      destruct (Hvals _ Hin) as [vs Hvs]. cbn in Hvs.
      unfold getitem, bundle_dict. cbn [fst snd]. by rewrite Hvs.
  - intros bv names vs n x Hin Hv Hnd Hnx Huniq.
    apply foldl_union_lookup.
    + intros d ([bv' names'] & -> & Hin')%list_elem_of_fmap.
      apply elem_of_elements in Hin'.
      destruct (decide (n ∈ names')) as [Hn|Hn].
      * right. specialize (Huniq _ Hin' Hn). simplify_eq.
        by eapply bundle_dict_lookup_in.
      * left. by apply bundle_dict_lookup_out.
    + right. split; [done|]. exists (bundle_dict vals (bv, names)). split.
      * apply list_elem_of_fmap. exists (bv, names).
        split; [done|]. by apply elem_of_elements.
      * by eapply bundle_dict_lookup_in.
Qed.

Lemma NoDup_named_indexes (n : nat) (root : string) :
  NoDup (_named_indexes n root).
Proof.
  rewrite named_indexes_fmap. apply NoDup_fmap_2; [apply bit_name_inj|].
  apply NoDup_seq.
Qed.

Lemma zip_named_bits (n : nat) (root : string) (z : Z) (i : nat) :
  (i < n)%nat →
  (bit_name root i, Z.testbit z (Z.of_nat i))
    ∈ zip (_named_indexes n root) (bits_of n z).
Proof.
  intros Hi. apply list_elem_of_lookup. exists i.
  apply lookup_zip_with_Some. eexists _, _. split; [done|].
  split; [by apply named_indexes_lookup|].
  unfold bits_of. by rewrite list_lookup_fmap, lookup_seq_lt.
Qed.

Lemma collect_named (n : nat) (root : string) (m : gmap string bool) (z : Z) :
  (∀ j : nat, (j < n)%nat →
     m !! bit_name root j = Some (Z.testbit z (Z.of_nat j))) →
  _collect m (_named_indexes n root) = Ok (bits_of n z).
Proof.
  intros Hm. unfold _collect.
  rewrite (mapR_fmap _ (λ s, default false (m !! s))).
  - f_equal. rewrite named_indexes_fmap, <- list_fmap_compose.
    apply list_fmap_ext. intros i j [-> Hj]%lookup_seq. cbn.
    by rewrite Hm.
  - intros s (j & Hj & ->)%elem_of_named_indexes.
    unfold getitem. by rewrite Hm.
Qed.


Lemma adder_eval (n : nat) (output left right : string)
    (has_carry : bool) (a b : Z) :
  left ≠ output +:+ "_carry" → right ≠ output +:+ "_carry" → left ≠ right →
  0 ≤ a < 2 ^ Z.of_nat n → 0 ≤ b < 2 ^ Z.of_nat n →
  ∃ (c : AIGBV) (v out : gmap string bool),
    adder n output left right has_carry = Ok c
    ∧ _blast {[ left := bits_of n a; right := bits_of n b ]} (input_map c)
      = Ok (Some v)
    ∧ aiger.eval (aig c) v = Some out
    ∧ output_map c = {[ (output, _named_indexes n "output") ]}
    ∧ (∀ j : nat, (j < n)%nat →
         out !! bit_name "output" j = Some (Z.testbit (a + b) (Z.of_nat j)))
    ∧ out !! (output +:+ "_carry")
      = (if has_carry then Some (Z.testbit (a + b) (Z.of_nat n)) else None).
Proof.
  intros Hlc Hrc Hlr Ha Hb. unfold adder.
  rewrite !bool_decide_eq_true_2 by done. cbn [andb assert bind].
  set (vals := ({[ left := bits_of n a; right := bits_of n b ]}
                : gmap string (list bool))).
  set (imap := ({[ (left, _named_indexes n "left");
                   (right, _named_indexes n "right") ]} : BV_MAP)).
  destruct (blast_spec vals imap) as (v & Hv & Hlook).
  { unfold imap. set_solver. }
  { intros kv Hkv. unfold imap in Hkv.
    apply elem_of_union in Hkv as [->%elem_of_singleton | ->%elem_of_singleton];
      unfold vals; cbn [fst].
    - by rewrite lookup_insert_eq.
    - by rewrite lookup_insert_ne, lookup_singleton_eq. }
  assert (∀ i : nat, (i < n)%nat →
    v !! bit_name "left" i = Some (Z.testbit a (Z.of_nat i))) as Hl.
  { intros i Hi.
    apply (Hlook left (_named_indexes n "left") (bits_of n a)).
    - unfold imap. set_solver.
    - unfold vals. by rewrite lookup_insert_eq.
    - apply NoDup_named_indexes.
    - by apply zip_named_bits.
    - intros kv Hkv Hin. unfold imap in Hkv.
      apply elem_of_union in Hkv as [->%elem_of_singleton | ->%elem_of_singleton];
        [done|].
      by apply elem_of_named_indexes in Hin as (j & _ & Hin). }
  assert (∀ i : nat, (i < n)%nat →
    v !! bit_name "right" i = Some (Z.testbit b (Z.of_nat i))) as Hr.
  { intros i Hi.
    apply (Hlook right (_named_indexes n "right") (bits_of n b)).
    - unfold imap. set_solver.
    - unfold vals. by rewrite lookup_insert_ne, lookup_singleton_eq.
    - apply NoDup_named_indexes.
    - by apply zip_named_bits.
    - intros kv Hkv Hin. unfold imap in Hkv.
      apply elem_of_union in Hkv as [->%elem_of_singleton | ->%elem_of_singleton];
        [|done].
      by apply elem_of_named_indexes in Hin as (j & _ & Hin). }
  destruct (chain_eval output a b v ∅ n Hl Hr n)
    as (m & l' & Hev & Hc & Hout & Hdom); [done|].
  pose proof (chain_latches output n) as Hlat.
  unfold chain in Hev, Hlat.
  rewrite carry_out_bit in Hc by done. cbn [Z.b2z] in Hc.
  rewrite Z.add_0_r in Hc.
  destruct has_carry.
  - eexists _, v, m. cbn [input_map aig output_map].
    split_and!; [done|exact Hv| |done|exact Hout|exact Hc].
    unfold aiger.eval, aiger.call. cbn [aig default]. rewrite Hlat.
    rewrite (left_id_L ∅ (∪)), Hev. done.
  - eexists _, v, _. cbn [input_map aig output_map].
    split_and!; [done|exact Hv| |done| |].
    + unfold aiger.eval, aiger.call.
      cbn [aig default aiger.seq_compose aiger.step aiger.latch2init aiger.sink].
      rewrite Hlat, !(left_id_L ∅ (∪)), Hev. cbn [mbind option_bind fst snd].
      pose proof (chain_outputs output n) as Hco. unfold chain in Hco.
      rewrite Hco. cbn [aiger.sink aiger.inputs aiger.step mapM].
      rewrite lookup_union_Some_l with (x := Z.testbit (a + b) (Z.of_nat n)).
      * done.
      * rewrite restrict_lookup_in; [done|]. set_solver.
    + intros j Hj. cbn [fst]. rewrite lookup_union_r by done.
      rewrite drop_lookup_out.
      * by apply Hout.
      * intros [_ Hin]%elem_of_intersection. cbn in Hin. set_unfold.
        destruct Hin as [Hin|[]]. by apply bit_not_carry_name in Hin.
    + cbn [fst]. rewrite lookup_union_r by done. apply drop_lookup_in.
      cbn. set_solver.
Qed.

(** The ripple-carry chain by itself: for every wordlen [n] and all
    [n]-bit values [a] and [b], the circuit [adder] builds (a chain of
    full adders whose carry wire starts at constant false), called
    directly on the words [a] and [b] blasted through its own input
    map, gives the bits of [(a + b) mod 2^n] on its output word; the
    carry wire is no output unless [has_carry], and then it carries
    bit [n] of [a + b]. *)
Theorem adder_correct (n : nat) (output left right : string)
    (has_carry : bool) (a b : Z) :
  left ≠ output +:+ "_carry" → right ≠ output +:+ "_carry" → left ≠ right →
  0 ≤ a < 2 ^ Z.of_nat n → 0 ≤ b < 2 ^ Z.of_nat n →
  ∃ (c : AIGBV) (v out : gmap string bool) (names : list string)
    (bits : list bool),
    adder n output left right has_carry = Ok c
    ∧ _blast {[ left := bits_of n a; right := bits_of n b ]} (input_map c)
      = Ok (Some v)
    ∧ aiger.eval (aig c) v = Some out
    ∧ output_map c = {[ (output, names) ]}
    ∧ _collect out names = Ok bits
    ∧ int_of bits = (a + b) mod 2 ^ Z.of_nat n
    ∧ out !! (output +:+ "_carry")
      = (if has_carry then Some (Z.testbit (a + b) (Z.of_nat n)) else None).
Proof.
  intros Hlc Hrc Hlr Ha Hb.
  destruct (adder_eval n output left right has_carry a b)
    as (c & v & out & Hc & Hv & Hev & Hom & Hbits & Hcarry); [done..|].
  exists c, v, out, (_named_indexes n "output"), (bits_of n (a + b)).
  split_and!; [done..| |by rewrite int_of_bits_of|done].
  by apply collect_named.
Qed.

Lemma adder_correct_witness :
  ∃ (c : AIGBV) (v out : gmap string bool) (names : list string)
    (bits : list bool),
    adder 8 "x+y" "x" "y" false = Ok c
    ∧ _blast {[ "x"%string := bits_of 8 5; "y"%string := bits_of 8 3 ]}
        (input_map c) = Ok (Some v)
    ∧ aiger.eval (aig c) v = Some out
    ∧ output_map c = {[ ("x+y"%string, names) ]}
    ∧ _collect out names = Ok bits
    ∧ int_of bits = (5 + 3) mod 2 ^ Z.of_nat 8
    ∧ out !! ("x+y" +:+ "_carry") = None.
Proof.
  apply (adder_correct 8 "x+y" "x" "y" false 5 3); [done|done|done|lia|lia].
Defined.

(** C1: [subtractor] returns no circuit: its first step is the call of
    [negater], a name the module does not define, so that every call
    raises [NameError] where the claim promises [(a - b) mod 2^n]. *)
Theorem subtractor_raises (n : nat) (output left right : string)
    (has_carry : bool) :
  subtractor n output left right has_carry = Raise (NameError "negater").
Proof. reflexivity. Qed.

(** Were the operand complemented bit by bit and handed to [adder],
    whose carry starts at 0, the sum would be [a - b - 1]: the "+ 1" of
    the two's-complement identity is supplied nowhere. *)
Lemma bits_of_complement (n : nat) (b : Z) :
  negb <$> bits_of n b = bits_of n (2 ^ Z.of_nat n - 1 - b).
Proof.
  unfold bits_of. rewrite <- list_fmap_compose. apply list_fmap_ext.
  intros i j [-> Hj]%lookup_seq. cbn.
  replace (2 ^ Z.of_nat n - 1 - b) with (Z.lnot b + 1 * 2 ^ Z.of_nat n)
    by (unfold Z.lnot; lia).
  rewrite <- Z.lnot_spec by lia. symmetry.
  rewrite <- (Z.mod_pow2_bits_low (Z.lnot b + 1 * 2 ^ Z.of_nat n)
               (Z.of_nat n) (Z.of_nat i)) by lia.
  rewrite Z.mod_add by lia. apply Z.mod_pow2_bits_low. lia.
Qed.

Lemma adder_on_complement (n : nat) (a b : Z) :
  0 ≤ a < 2 ^ Z.of_nat n → 0 ≤ b < 2 ^ Z.of_nat n →
  ∃ (c : AIGBV) (v out : gmap string bool) (names : list string)
    (bits : list bool),
    adder n "x-y" "x" "y" false = Ok c
    ∧ _blast {[ "x"%string := bits_of n a;
                "y"%string := negb <$> bits_of n b ]} (input_map c)
      = Ok (Some v)
    ∧ aiger.eval (aig c) v = Some out
    ∧ output_map c = {[ ("x-y"%string, names) ]}
    ∧ _collect out names = Ok bits
    ∧ int_of bits = (a - b - 1) mod 2 ^ Z.of_nat n.
Proof.
  intros Ha Hb. rewrite bits_of_complement.
  destruct (adder_eval n "x-y" "x" "y" false a (2 ^ Z.of_nat n - 1 - b))
    as (c & v & out & H1 & H2 & H3 & H4 & H5 & _);
    [done|done|done|lia|lia|].
  exists c, v, out, (_named_indexes n "output"),
    (bits_of n (a + (2 ^ Z.of_nat n - 1 - b))).
  split_and!; [done..|by apply collect_named|].
  rewrite int_of_bits_of.
  replace (a + (2 ^ Z.of_nat n - 1 - b)) with (a - b - 1 + 1 * 2 ^ Z.of_nat n)
    by lia.
  apply Z.mod_add. lia.
Qed.

(** On 8 bits, 3 and the complement of 5 add up to 253, not 254. *)
Lemma adder_on_complement_3_5 :
  ∃ (c : AIGBV) (v out : gmap string bool) (names : list string)
    (bits : list bool),
    adder 8 "x-y" "x" "y" false = Ok c
    ∧ _blast {[ "x"%string := bits_of 8 3;
                "y"%string := negb <$> bits_of 8 5 ]} (input_map c)
      = Ok (Some v)
    ∧ aiger.eval (aig c) v = Some out
    ∧ output_map c = {[ ("x-y"%string, names) ]}
    ∧ _collect out names = Ok bits
    ∧ int_of bits = 253.
Proof. apply (adder_on_complement 8 3 5); lia. Qed.

(** ** Blast and unblast *)
Lemma mapR_raise {A B} (f : A → result B) (l : list A) (e : exn) :
  l ≠ [] → (∀ a, f a = Raise e) → mapR f l = Raise e.
Proof. destruct l as [|a l]; [done|]. intros _ H. cbn. by rewrite H. Qed.

Lemma unblast_name_error (name2vals : gmap string bool) (name_map : BV_MAP) :
  name_map ≠ ∅ → _unblast name2vals name_map = Raise (NameError "collect").
Proof.
  intros Hne. unfold _unblast. erewrite mapR_raise; [done| |].
  - intros E. apply elements_empty_inv in E. set_solver.
  - by intros [bv names].
Qed.

(** With the call bound to the local helper the round trip holds. *)
Lemma mapR_Forall2 {A B} (f : A → result B) (l : list A) (k : list B) :
  Forall2 (λ a b, f a = Ok b) l k → mapR f l = Ok k.
Proof.
  induction 1 as [|a b l k Hab _ IH]; [done|]. cbn. by rewrite Hab, IH.
Qed.

Lemma blast_then_collect (vals : gmap string (list bool)) (name_map : BV_MAP) :
  name_map ≠ ∅ →
  dom vals = names_of name_map →
  (∀ bv n1 n2, (bv, n1) ∈ name_map → (bv, n2) ∈ name_map → n1 = n2) →
  (∀ bv names vs, (bv, names) ∈ name_map → vals !! bv = Some vs →
     length vs = length names ∧ NoDup names) →
  (∀ kv kv' n, kv ∈ name_map → kv' ∈ name_map → n ∈ kv.2 → n ∈ kv'.2 →
     kv = kv') →
  ∃ v : gmap string bool,
    _blast vals name_map = Ok (Some v)
    ∧ unblast_with_collect v name_map = Ok vals.
Proof.
  intros Hne Hdom Huniq Hwf Hdisj.
  assert (∀ kv, kv ∈ name_map → is_Some (vals !! kv.1)) as Hsome.
  { intros kv Hkv. apply elem_of_dom. rewrite Hdom. unfold names_of.
    apply elem_of_map. by exists kv. }
  destruct (blast_spec vals name_map Hne Hsome) as (v & Hv & Hlook).
  exists v. split; [done|]. unfold unblast_with_collect.
  rewrite (mapR_fmap _ (λ kv, (kv.1, default [] (vals !! kv.1)))); cycle 1.
  { intros [bv names] Hin%elem_of_elements. cbn [fst snd].
    destruct (Hsome _ Hin) as [vs Hvs]. cbn [fst] in Hvs. rewrite Hvs.
    destruct (Hwf _ _ _ Hin Hvs) as [Hlen Hnd].
    unfold _collect. rewrite (mapR_Forall2 _ names vs); [done|].
    apply Forall2_same_length_lookup. split; [done|].
    intros i n x Hn Hx. unfold getitem.
    rewrite (Hlook bv names vs n x Hin Hvs Hnd); [done| |].
    - apply list_elem_of_lookup. exists i. apply lookup_zip_with_Some.
      by eexists _, _.
    - intros kv' Hkv' Hn'. symmetry. apply (Hdisj _ _ n Hin Hkv'); [|done].
      cbn. by eapply list_elem_of_lookup_2. }
  cbn [bind]. f_equal. apply map_eq. intros k. apply option_eq. intros x.
  rewrite <- elem_of_list_to_map; cycle 1.
  { rewrite fmap_reverse, reverse_Permutation, <- list_fmap_compose.
    apply NoDup_fmap_2_strong; [|apply NoDup_elements].
    intros [b1 n1] [b2 n2] H1%elem_of_elements H2%elem_of_elements Heq.
    cbn in Heq. subst. f_equal. by eapply Huniq. }
  rewrite elem_of_reverse, list_elem_of_fmap. split.
  - intros (kv & [= -> ->] & Hkv%elem_of_elements).
    destruct (Hsome _ Hkv) as [vs Hvs]. by rewrite Hvs.
  - intros Hk. assert (k ∈ names_of name_map) as Hin.
    { rewrite <- Hdom. by apply elem_of_dom. }
    apply elem_of_map in Hin as (kv & -> & Hkv). exists kv.
    split; [by rewrite Hk|]. by apply elem_of_elements.
Qed.

(** C3: on the map of one two-bit word [x] and the values [x = 10],
    [_blast] succeeds and [_unblast] of the result raises [NameError]
    on the undefined name [collect] instead of recovering the values;
    the same comprehension calling the local [_collect] recovers them. *)
Theorem unblast_blast_raises :
  let m : BV_MAP := {[ ("x"%string, ["x[0]"; "x[1]"]%string) ]} in
  let v : gmap string (list bool) := {[ "x"%string := [true; false] ]} in
  ∃ bits : gmap string bool,
    _blast v m = Ok (Some bits)
    ∧ _unblast bits m = Raise (NameError "collect")
    ∧ unblast_with_collect bits m = Ok v.
Proof.
  eexists. split; [vm_compute; reflexivity|]. split.
  - by apply unblast_name_error.
  - vm_compute. reflexivity.
Qed.

(** ** Sequential composition of name maps *)
Lemma names_of_union (m1 m2 : BV_MAP) :
  names_of (m1 ∪ m2) = names_of m1 ∪ names_of m2.
Proof. unfold names_of. set_solver. Qed.

Lemma names_of_filter_out (X : gset string) (m : BV_MAP) :
  names_of (filter (λ kv, kv.1 ∉ X) m) = names_of m ∖ X.
Proof.
  unfold names_of. apply set_eq. intros s.
  rewrite elem_of_difference, !elem_of_map. split.
  - intros (kv & -> & [? ?]%elem_of_filter). eauto.
  - intros [(kv & -> & ?) ?]. exists kv. split; [done|].
    by apply elem_of_filter.
Qed.

(** [>>] of src/aigerbv: when the latches are disjoint and no output
    of [A] outside the interface [outputs A ∩ inputs B] is an output of
    [B], [A >> B] is built, its input map is that of [A] with the
    entries of [B] outside the interface, its output map is that of [B]
    with the entries of [A] outside the interface (so an output of [B]
    keeps the bundle [B] gave it), and its latch map is the union of
    the two.  An input word the two share is merged. *)
Theorem rshift_maps (A B : AIGBV) :
  latches A ∩ latches B = ∅ →
  (outputs A ∖ (outputs A ∩ inputs B)) ∩ outputs B = ∅ →
  let interface := outputs A ∩ inputs B in
  ∃ C : AIGBV,
    rshift A B = Ok C
    ∧ input_map C = input_map A ∪ filter (λ kv, kv.1 ∉ interface) (input_map B)
    ∧ output_map C = output_map B ∪ filter (λ kv, kv.1 ∉ interface) (output_map A)
    ∧ latch_map C = latch_map A ∪ latch_map B
    ∧ inputs C = inputs A ∪ (inputs B ∖ interface)
    ∧ outputs C = outputs B ∪ (outputs A ∖ interface)
    ∧ latches C = latches A ∪ latches B
    ∧ (∀ name bits, name ∈ outputs B →
         ((name, bits) ∈ output_map C ↔ (name, bits) ∈ output_map B)).
Proof.
  intros Hl Ho interface. unfold rshift. fold interface.
  unfold is_empty. rewrite !bool_decide_eq_true_2 by done. cbn [assert bind].
  eexists. split; [done|]. cbn [input_map output_map latch_map].
  unfold inputs, outputs, latches. cbn [input_map output_map latch_map].
  split_and!; [done|apply (comm_L (∪))|done|..].
  - by rewrite names_of_union, names_of_filter_out.
  - by rewrite names_of_union, names_of_filter_out, (comm_L (∪)).
  - by rewrite names_of_union.
  - intros name bits HB. rewrite elem_of_union, elem_of_filter. cbn.
    split; [|by right]. intros [[Hni Hin]|?]; [|done]. exfalso.
    assert (name ∈ outputs A) as HA.
    { unfold outputs, names_of. apply elem_of_map. by exists (name, bits). }
    set_solver.
Qed.

Lemma rshift_maps_witness :
  let A := bitwise_negate 2 "x" "w" in
  let B := bitwise_negate 2 "w" "z" in
  ∃ C : AIGBV,
    rshift A B = Ok C
    ∧ input_map C = input_map A ∪ filter (λ kv, kv.1 ∉ outputs A ∩ inputs B) (input_map B)
    ∧ output_map C = output_map B ∪ filter (λ kv, kv.1 ∉ outputs A ∩ inputs B) (output_map A)
    ∧ latch_map C = latch_map A ∪ latch_map B
    ∧ inputs C = inputs A ∪ (inputs B ∖ (outputs A ∩ inputs B))
    ∧ outputs C = outputs B ∪ (outputs A ∖ (outputs A ∩ inputs B))
    ∧ latches C = latches A ∪ latches B
    ∧ (∀ name bits, name ∈ outputs B →
         ((name, bits) ∈ output_map C ↔ (name, bits) ∈ output_map B)).
Proof.
  apply (rshift_maps (bitwise_negate 2 "x" "w") (bitwise_negate 2 "w" "z"));
    by vm_compute.
Defined.


(** ** The adder on constant sources *)

Lemma chain_inputs (output : string) (k : nat) :
  aiger.inputs (chain output k)
  = list_to_set (_named_indexes k "left")
    ∪ list_to_set (_named_indexes k "right").
Proof.
  induction k as [|k IH].
  - cbn. set_solver.
  - rewrite chain_S. cbn [adder_step aiger.seq_compose aiger.inputs].
    rewrite chain_interface, IH, !named_indexes_S, !list_to_set_app_L.
    cbn [_full_adder aiger.parse aiger.inputs aiger.aag_inputs fmap list_fmap
         snd list_to_set].
    pose proof (bit_not_carry_name output "left" k).
    pose proof (bit_not_carry_name output "right" k).
    generalize dependent (bit_name "left" k).
    generalize dependent (bit_name "right" k).
    intros r Hr l Hl. set_solver.
Qed.

Lemma restrict_lookup_None (X : gset string) (m : gmap string bool) (i : string) :
  m !! i = None → aiger.restrict X m !! i = None.
Proof. intros H. apply map_lookup_filter_None. by left. Qed.

Lemma chain_step_unfed (output : string) (k : nat) (v l : gmap string bool) :
  v !! bit_name "left" 0 = None →
  aiger.step (chain output (S k)) v l = None.
Proof.
  intros Hv. induction k as [|k IH].
  - rewrite chain_S. cbn [adder_step aiger.seq_compose aiger.step].
    destruct (chain_eval output 0 0 v l 0) with (k := 0%nat)
      as (m & l' & -> & _ & _ & Hdom); [intros; lia..|lia|].
    cbn [mbind option_bind fst snd].
    assert ((aiger.restrict
               (aiger.outputs (chain output 0)
                ∩ aiger.inputs
                    (_full_adder (bit_name "left" 0) (bit_name "right" 0)
                       (output +:+ "_carry") (bit_name "output" 0)
                       (output +:+ "_carry"))) m ∪ v)
            !! bit_name "left" 0 = None) as Hnone.
    { apply lookup_union_None. split; [|done].
      apply restrict_lookup_None, not_elem_of_dom. rewrite Hdom.
      pose proof (bit_not_carry_name output "left" 0). set_solver. }
    unfold _full_adder, aiger.parse at 2.
    cbn [aiger.step aiger.aag_inputs aiger.read_inputs].
    unfold _full_adder in Hnone. by rewrite Hnone.
  - rewrite chain_S. cbn [adder_step aiger.seq_compose aiger.step].
    by rewrite IH.
Qed.

Lemma source_shape (n : nat) (a : Z) (name : string) :
  (0 < n)%nat → 0 ≤ a < 2 ^ Z.of_nat n →
  ∃ consts : gmap string bool,
    source n a name true true
    = Ok {| aig := aiger.source consts;
            input_map := {[ (name, _named_indexes n name) ]};
            output_map := {[ (name, _named_indexes n name) ]};
            latch_map := ∅ |}
    ∧ ∀ s, s ∈ dom consts → s ∈ _named_indexes n name.
Proof.
  intros Hn Ha. unfold source, to_bytes.
  assert ((a <? 2 ^ Z.of_nat n) = true) as -> by (apply Z.ltb_lt; lia).
  cbn [assert bind].
  assert (2 * 2 ^ Z.of_nat n ≤ 256 ^ Z.of_nat n) as Hpow.
  { change 256 with (2 ^ 8). rewrite <- Z.pow_mul_r by lia.
    rewrite <- Z.pow_succ_r by lia. apply Z.pow_le_mono_r; lia. }
  assert (0 < 2 ^ Z.of_nat n) by (apply Z.pow_pos_nonneg; lia).
  assert (((- 256 ^ Z.of_nat n <=? 2 * a) && (2 * a <? 256 ^ Z.of_nat n)) = true)
    as ->.
  { apply andb_true_iff. split; [apply Z.leb_le|apply Z.ltb_lt]; lia. }
  cbn [bind]. eexists. split; [reflexivity|].
  intros s [b Hb]%elem_of_dom. apply elem_of_list_to_map_2 in Hb.
  apply elem_of_reverse_2 in Hb. rewrite reverse_involutive in Hb.
  by apply elem_of_zip_l in Hb.
Qed.

Lemma adder_aig_unfed (n : nat) (output left right : string)
    (has_carry : bool) (c : AIGBV) (v l : gmap string bool) :
  (0 < n)%nat → adder n output left right has_carry = Ok c →
  v !! bit_name "left" 0 = None →
  aiger.step (aig c) v l = None.
Proof.
  intros Hn Hc Hv. unfold adder in Hc.
  destruct (bool_decide _ && bool_decide _); [|done].
  cbn [assert bind] in Hc. injection Hc as <-. cbn [aig].
  change (adder_chain (output +:+ "_carry") (_named_indexes n "left")
            (_named_indexes n "right") (_named_indexes n "output"))
    with (chain output n).
  destruct n as [|k]; [lia|].
  destruct has_carry.
  - by apply chain_step_unfed.
  - cbn [aiger.seq_compose aiger.step]. by rewrite chain_step_unfed.
Qed.

Lemma adder_aig_inputs (n : nat) (output left right : string)
    (has_carry : bool) (c : AIGBV) :
  adder n output left right has_carry = Ok c →
  aiger.inputs (aig c)
  = list_to_set (_named_indexes n "left")
    ∪ list_to_set (_named_indexes n "right")
  ∧ output_map c = {[ (output, _named_indexes n "output") ]}
  ∧ input_map c = {[ (left, _named_indexes n "left");
                     (right, _named_indexes n "right") ]}
  ∧ latch_map c = ∅.
Proof.
  intros Hc. unfold adder in Hc.
  destruct (bool_decide _ && bool_decide _); [|done].
  cbn [assert bind] in Hc. injection Hc as <-.
  cbn [aig output_map input_map latch_map]. split; [|done].
  change (adder_chain (output +:+ "_carry") (_named_indexes n "left")
            (_named_indexes n "right") (_named_indexes n "output"))
    with (chain output n).
  destruct has_carry; [apply chain_inputs|].
  cbn [aiger.seq_compose aiger.inputs aiger.sink].
  rewrite chain_inputs, chain_outputs. set_solver.
Qed.

Lemma adder_on_sources_shape (n : nat) (a b : Z) (has_carry : bool) :
  (0 < n)%nat → 0 ≤ a < 2 ^ Z.of_nat n → 0 ≤ b < 2 ^ Z.of_nat n →
  ∃ (cx cy : gmap string bool) (c C : AIGBV),
    adder n "x+y" "x" "y" has_carry = Ok c
    ∧ adder_on_sources n a b "x+y" "x" "y" has_carry = Ok C
    ∧ aig C = aiger.seq_compose
                (aiger.par_compose (aiger.source cx) (aiger.source cy)) (aig c)
    ∧ (∀ s, s ∈ dom cx → s ∈ _named_indexes n "x")
    ∧ (∀ s, s ∈ dom cy → s ∈ _named_indexes n "y")
    ∧ inputs C = {[ "x"%string; "y"%string ]}
    ∧ outputs C = {[ "x+y"%string ]}
    ∧ (∀ kv, kv ∈ input_map C →
         kv.2 = _named_indexes n "x" ∨ kv.2 = _named_indexes n "y").
Proof.
  intros Hn Ha Hb. unfold adder_on_sources.
  destruct (source_shape n a "x" Hn Ha) as (cx & -> & Hcx).
  destruct (source_shape n b "y" Hn Hb) as (cy & -> & Hcy).
  cbn [bind]. unfold or_, inputs, outputs, latches, is_empty.
  cbn [input_map output_map latch_map aig].
  rewrite !bool_decide_eq_true_2 by (unfold names_of; set_solver).
  cbn [assert bind].
  destruct (adder n "x+y" "x" "y" has_carry) as [c|] eqn:Hc; cycle 1.
  { unfold adder in Hc. by rewrite !bool_decide_eq_true_2 in Hc. }
  destruct (adder_aig_inputs _ _ _ _ _ _ Hc) as (_ & Hco & Hci & Hcl).
  cbn [bind]. unfold rshift, inputs, outputs, latches, is_empty.
  cbn [input_map output_map latch_map aig]. rewrite Hco, Hci, Hcl.
  rewrite !bool_decide_eq_true_2 by (unfold names_of; set_solver).
  cbn [assert bind]. exists cx, cy, c. eexists. split; [done|].
  split; [done|]. cbn [aig input_map output_map].
  split; [done|]. split; [done|]. split; [done|].
  rewrite !names_of_union, !names_of_filter_out. unfold names_of.
  split; [set_solver|]. split; [set_solver|].
  intros kv. rewrite !elem_of_union, elem_of_filter, !elem_of_singleton.
  intros [[->| ->]|[Hni Hin]]; [by left|by right|].
  exfalso. apply Hni. cbn. set_solver.
Qed.

Lemma adder_aig_step (n : nat) (output left right : string)
    (has_carry : bool) (c : AIGBV) (a b : Z) (v l : gmap string bool) :
  adder n output left right has_carry = Ok c →
  (∀ i : nat, (i < n)%nat →
     v !! bit_name "left" i = Some (Z.testbit a (Z.of_nat i))) →
  (∀ i : nat, (i < n)%nat →
     v !! bit_name "right" i = Some (Z.testbit b (Z.of_nat i))) →
  ∃ out l' : gmap string bool,
    aiger.step (aig c) v l = Some (out, l')
    ∧ ∀ j : nat, (j < n)%nat →
        out !! bit_name "output" j = Some (Z.testbit (a + b) (Z.of_nat j)).
Proof.
  intros Hc Hl Hr. unfold adder in Hc.
  destruct (bool_decide _ && bool_decide _); [|done].
  cbn [assert bind] in Hc. injection Hc as <-. cbn [aig].
  change (adder_chain (output +:+ "_carry") (_named_indexes n "left")
            (_named_indexes n "right") (_named_indexes n "output"))
    with (chain output n).
  destruct (chain_eval output a b v l n Hl Hr n)
    as (m & l' & Hev & Hcarry & Hout & Hdom); [done|].
  destruct has_carry.
  - by exists m, l'.
  - cbn [aiger.seq_compose aiger.step]. rewrite Hev.
    cbn [mbind option_bind fst snd]. rewrite chain_outputs.
    cbn [aiger.sink aiger.inputs aiger.step mapM].
    rewrite lookup_union_Some_l with (x := carry_at false a b n); cycle 1.
    { rewrite restrict_lookup_in; [done|]. set_solver. }
    cbn [mbind option_bind fst snd]. eexists _, _. split; [done|].
    intros j Hj. rewrite lookup_union_r by done.
    rewrite drop_lookup_out; [by apply Hout|].
    intros [_ Hin]%elem_of_intersection. cbn in Hin. set_unfold.
    destruct Hin as [Hin|[]]. by apply bit_not_carry_name in Hin.
Qed.

Lemma mapR_elem_of {A B} (f : A → result B) (l : list A) (k : list B) (b : B) :
  mapR f l = Ok k → b ∈ k → ∃ a, a ∈ l ∧ f a = Ok b.
Proof.
  revert k. induction l as [|a l IH]; intros k Hk Hb; cbn in Hk.
  - injection Hk as <-. by apply elem_of_nil in Hb.
  - destruct (f a) as [b'|] eqn:Hfa; [|done]. cbn in Hk.
    destruct (mapR f l) as [k'|]; [|done]. cbn in Hk. injection Hk as <-.
    apply elem_of_cons in Hb as [->|Hb].
    + exists a. split; [left|done].
    + destruct (IH k' eq_refl Hb) as (a' & Ha' & Hfa').
      exists a'. split; [by right|done].
Qed.

Lemma foldl_union_is_Some (ds : list (gmap string bool))
    (acc : gmap string bool) (n : string) :
  is_Some (foldl (λ acc d, d ∪ acc) acc ds !! n) →
  is_Some (acc !! n) ∨ ∃ d, d ∈ ds ∧ is_Some (d !! n).
Proof.
  revert acc. induction ds as [|d ds IH]; intros acc; cbn; [by left|].
  intros [Hu|(d' & Hd' & Hn)]%IH.
  - apply lookup_union_is_Some in Hu as [Hd|Hacc]; [|by left].
    right. exists d. split; [left|done].
  - right. exists d'. split; [by right|done].
Qed.

(** What [_blast] returns assigns only bits of the bundles of the map. *)
Lemma blast_bits (vals : gmap string (list bool)) (name_map : BV_MAP)
    (v : gmap string bool) (n : string) :
  _blast vals name_map = Ok (Some v) → is_Some (v !! n) →
  ∃ kv, kv ∈ name_map ∧ n ∈ kv.2.
Proof.
  unfold _blast. intros Hb Hn.
  destruct (mapR _ (elements name_map)) as [ds|] eqn:Hds; [|done].
  cbn [bind] in Hb. injection Hb as Hb. unfold merge in Hb.
  destruct ds as [|d0 ds0] eqn:Eds; [done|]. rewrite <- Eds in *.
  injection Hb as <-.
  apply foldl_union_is_Some in Hn as [Hn|(d & Hd & Hn)].
  { rewrite lookup_empty in Hn. by destruct Hn. }
  destruct (mapR_elem_of _ _ _ _ Hds Hd) as ([bv names] & Hin & Hf).
  exists (bv, names). split; [by apply elem_of_elements|].
  destruct (getitem vals bv) as [vs|]; [|done]. cbn [bind] in Hf.
  injection Hf as <-. destruct Hn as [x Hx].
  apply elem_of_list_to_map_2 in Hx. rewrite elem_of_reverse in Hx.
  cbn [snd]. by eapply elem_of_zip_l.
Qed.

(** C5: the adder evaluated on constant sources does not yield
    [(a + b) mod 2^n]; it yields nothing.  [adder] names the bits it
    reads and writes by the literals left, right and output, whatever
    word names it is given (the bitwise gates beside it name theirs by
    the word).  For every wordlen [n > 0] and all [n]-bit [a] and [b],
    [(source(n, a, 'x') | source(n, b, 'y')) >> adder(n)] is built and
    declares the words x, y and x+y, but the bits x[i], y[i] of the
    sources never reach the full adders: the bit-level circuit still
    has the inputs left[i] and right[i], it computes nothing unless
    they are fed, so no word-level evaluation returns, and fed with the
    bits of any [a'] and [b'] it returns the bits of [a' + b'] on
    output[i], whatever the constants [a] and [b] are.  (The ripple
    carry chain itself is right: see [adder_correct].) *)
Theorem adder_sources_unconnected (n : nat) (a b : Z) (has_carry : bool) :
  (0 < n)%nat → 0 ≤ a < 2 ^ Z.of_nat n → 0 ≤ b < 2 ^ Z.of_nat n →
  ∃ C : AIGBV,
    adder_on_sources n a b "x+y" "x" "y" has_carry = Ok C
    ∧ inputs C = {[ "x"%string; "y"%string ]}
    ∧ outputs C = {[ "x+y"%string ]}
    ∧ aiger.inputs (aig C)
      = list_to_set (_named_indexes n "left")
        ∪ list_to_set (_named_indexes n "right")
    ∧ (∀ v : gmap string bool,
         v !! bit_name "left" 0 = None → aiger.eval (aig C) v = None)
    ∧ (∀ vals : gmap string (list bool), run C vals = None)
    ∧ (∀ (a' b' : Z) (v : gmap string bool),
         (∀ i : nat, (i < n)%nat →
            v !! bit_name "left" i = Some (Z.testbit a' (Z.of_nat i))) →
         (∀ i : nat, (i < n)%nat →
            v !! bit_name "right" i = Some (Z.testbit b' (Z.of_nat i))) →
         ∃ out : gmap string bool,
           aiger.eval (aig C) v = Some out
           ∧ ∀ j : nat, (j < n)%nat →
               out !! bit_name "output" j
               = Some (Z.testbit (a' + b') (Z.of_nat j))).
Proof.
  intros Hn Ha Hb.
  destruct (adder_on_sources_shape n a b has_carry Hn Ha Hb)
    as (cx & cy & c & C & Hc & HC & Haig & Hcx & Hcy & Hi & Ho & Him).
  destruct (adder_aig_inputs _ _ _ _ _ _ Hc) as (Hcin & _).
  assert (Hfree : ∀ root i, root = "left"%string ∨ root = "right"%string →
            (cx ∪ cy) !! bit_name root i = None).
  { intros root i Hroot. apply lookup_union_None.
    split; apply not_elem_of_dom; intros Hin.
    - apply Hcx, elem_of_named_indexes in Hin as (j & _ & Hin).
      by destruct Hroot as [-> | ->].
    - apply Hcy, elem_of_named_indexes in Hin as (j & _ & Hin).
      by destruct Hroot as [-> | ->]. }
  assert (Hfed : ∀ (I : gset string) v root i,
            root = "left"%string ∨ root = "right"%string →
            (aiger.restrict I (cx ∪ cy) ∪ v) !! bit_name root i
            = v !! bit_name root i).
  { intros I v root i Hroot. apply lookup_union_r, restrict_lookup_None.
    by apply Hfree. }
  exists C. split; [done|]. split; [done|]. split; [done|]. split_and!.
  - rewrite Haig. cbn [aiger.seq_compose aiger.par_compose aiger.inputs
                       aiger.outputs aiger.source].
    rewrite Hcin. apply set_eq. intros s.
    rewrite !elem_of_union, elem_of_difference, elem_of_intersection,
      !elem_of_union, !elem_of_list_to_set. split; [set_solver|].
    intros Hs. right. split; [done|]. intros [[Hin|Hin] _].
    + apply Hcx, elem_of_named_indexes in Hin as (j & _ & ->).
      destruct Hs as [(i & _ & Hs)%elem_of_named_indexes
                     |(i & _ & Hs)%elem_of_named_indexes]; done.
    + apply Hcy, elem_of_named_indexes in Hin as (j & _ & ->).
      destruct Hs as [(i & _ & Hs)%elem_of_named_indexes
                     |(i & _ & Hs)%elem_of_named_indexes]; done.
  - intros v Hv. unfold aiger.eval, aiger.call. rewrite Haig.
    cbn [aiger.seq_compose aiger.par_compose aiger.step aiger.source
         mbind option_bind fst snd].
    rewrite (adder_aig_unfed n "x+y" "x" "y" has_carry c _ _ Hn Hc); [done|].
    rewrite Hfed by by left. done.
  - intros vals. unfold run.
    destruct (_blast vals (input_map C)) as [[v|]|] eqn:Hbl; [|done..].
    assert (v !! bit_name "left" 0 = None) as Hv.
    { apply eq_None_not_Some. intros Hsome.
      destruct (blast_bits _ _ _ _ Hbl Hsome) as (kv & Hkv & Hin).
      destruct (Him kv Hkv) as [Hx|Hx]; rewrite Hx in Hin;
        by apply elem_of_named_indexes in Hin as (j & _ & Hin). }
    unfold aiger.eval, aiger.call. rewrite Haig.
    cbn [aiger.seq_compose aiger.par_compose aiger.step aiger.source
         mbind option_bind fst snd].
    rewrite (adder_aig_unfed n "x+y" "x" "y" has_carry c _ _ Hn Hc); [done|].
    rewrite Hfed by by left. done.
  - intros a' b' v Hl Hr. unfold aiger.eval, aiger.call. rewrite Haig.
    cbn [aiger.seq_compose aiger.par_compose aiger.step aiger.source
         mbind option_bind fst snd].
    match goal with
    | |- context [aiger.step (aig c) ?v' ?l'] =>
        destruct (adder_aig_step n "x+y" "x" "y" has_carry c a' b' v' l' Hc)
          as (out & l'' & -> & Hout)
    end.
    { intros i Hi'. rewrite Hfed by by left. by apply Hl. }
    { intros i Hi'. rewrite Hfed by by right. by apply Hr. }
    cbn [mbind option_bind fmap option_fmap option_map fst snd].
    eexists. split; [done|]. intros j Hj.
    apply lookup_union_Some_l. by apply Hout.
Qed.

Lemma adder_sources_unconnected_witness :
  ∃ C : AIGBV,
    adder_on_sources 8 5 3 "x+y" "x" "y" false = Ok C
    ∧ inputs C = {[ "x"%string; "y"%string ]}
    ∧ outputs C = {[ "x+y"%string ]}
    ∧ aiger.inputs (aig C)
      = list_to_set (_named_indexes 8 "left")
        ∪ list_to_set (_named_indexes 8 "right")
    ∧ (∀ v : gmap string bool,
         v !! bit_name "left" 0 = None → aiger.eval (aig C) v = None)
    ∧ (∀ vals : gmap string (list bool), run C vals = None)
    ∧ (∀ (a' b' : Z) (v : gmap string bool),
         (∀ i : nat, (i < 8)%nat →
            v !! bit_name "left" i = Some (Z.testbit a' (Z.of_nat i))) →
         (∀ i : nat, (i < 8)%nat →
            v !! bit_name "right" i = Some (Z.testbit b' (Z.of_nat i))) →
         ∃ out : gmap string bool,
           aiger.eval (aig C) v = Some out
           ∧ ∀ j : nat, (j < 8)%nat →
               out !! bit_name "output" j
               = Some (Z.testbit (a' + b') (Z.of_nat j))).
Proof.
  apply (adder_sources_unconnected 8 5 3 false); [lia|simpl; lia|simpl; lia].
Defined.

(** ** src/aiger_bv *)

Import aiger_bv.




(** C7: [A >> B] fails on its assertion when both declare an output
    [z] that is not an input of [B], and relabelling a signal of one of
    the three kinds to a name already in that kind's map fails on its
    assertion; neither returns a circuit.  (The assertions are what the
    spec calls InterfaceConflict and NameCollision.) *)
Theorem collisions_rejected (A B : AIGBV) (z : string)
    (c : AIGBV) (kind : string) (relabels : gmap string string)
    (k v : string) :
  z ∈ outputs A → z ∈ outputs B → z ∉ inputs B →
  kind ∈ ["i"; "o"; "l"]%string →
  relabels !! k = Some v → v ∈ dom (get_map kind c) →
  rshift A B = Raise AssertionError
  ∧ relabel c kind relabels = Raise AssertionError.
Proof.
  intros HzA HzB Hzi Hkind Hkv Hv. split.
  - unfold rshift.
    destruct (is_empty (latches A ∩ latches B)); [|done]. cbn [assert bind].
    unfold is_empty. rewrite bool_decide_eq_false_2; [done|].
    intros Hempty. set_solver.
  - unfold relabel. rewrite bool_decide_eq_true_2 by done. cbn [negb].
    unfold is_empty. rewrite bool_decide_eq_false_2; [done|].
    intros Hempty.
    assert (v ∈@{gset string} list_to_set (map_to_list relabels).*2) as Hin.
    { apply elem_of_list_to_set, list_elem_of_fmap. exists (k, v).
      split; [done|]. by apply elem_of_map_to_list. }
    set_solver.
Qed.

Lemma collisions_rejected_witness :
  rshift (bitwise_negate 2 "x" "z") (bitwise_negate 2 "y" "z")
    = Raise AssertionError
  ∧ relabel (bitwise_and 2 "x" "y" "z") "i" {[ "x"%string := "y"%string ]}
    = Raise AssertionError.
Proof.
  apply (collisions_rejected _ _ "z" _ "i" _ "x" "y"); compute_done.
Defined.

(** ** Expressions of one output *)
Lemma size_single (sgn : bool) (i j : nat) (c : AIGBV) (o : string) (n : nat) :
  omap c = {[ o := n ]} → size (OfCircuit sgn i j c) = Ok n.
Proof.
  intros Ho. unfold size. cbn [circuit_of aigbv bind].
  by rewrite Ho, map_to_list_singleton.
Qed.

Lemma output_single (sgn : bool) (i j : nat) (c : AIGBV) (o : string) (n : nat) :
  omap c = {[ o := n ]} → output (OfCircuit sgn i j c) = Ok o.
Proof.
  intros Ho. unfold output, outputs. cbn [circuit_of aigbv bind].
  by rewrite Ho, dom_singleton_L, elements_singleton.
Qed.

Lemma bm_add_empty_r (m : BundleMap) : bm_add m ∅ = Ok m.
Proof.
  unfold bm_add. rewrite bool_decide_eq_true_2 by set_solver.
  cbn. by rewrite (right_id_L ∅ (∪)).
Qed.

Lemma bm_omit_singleton (o : string) (n : nat) (X : gset string) :
  o ∈ X → bm_omit {[ o := n ]} X = ∅.
Proof.
  intros Ho. unfold bm_omit. apply map_empty. intros k.
  apply map_lookup_filter_None. right.
  intros x [-> ->]%lookup_singleton_Some. cbn. tauto.
Qed.

Lemma rshift_unary (c : AIGBV) (o f : string) (n m : nat)
    (g : list bool → list bool) :
  omap c = {[ o := n ]} →
  ∃ c' : AIGBV,
    rshift c (unary_gate g m n o f) = Ok c'
    ∧ imap c' = imap c ∧ omap c' = {[ f := m ]} ∧ lmap c' = lmap c
    ∧ aig c' = aiger.seq_compose (aig c) (aig (unary_gate g m n o f)).
Proof.
  intros Ho. unfold rshift, unary_gate, inputs, outputs, latches, is_empty.
  cbn [imap omap lmap aig]. rewrite Ho, !dom_singleton_L, dom_empty_L.
  rewrite !bool_decide_eq_true_2 by set_solver. cbn [assert bind].
  rewrite !bm_omit_singleton by set_solver. rewrite !bm_add_empty_r.
  cbn [bind]. eexists. by split_and!.
Qed.

(** C10: for an expression over a circuit with the single output [o]
    of size [n], [repeat] fails on its assertion when [n] is not 1, and
    when [n] is 1 it returns a new expression of size [times]. *)
Theorem repeat_one_bit_only (sgn : bool) (i j : nat) (c : AIGBV) (o : string)
    (n times s : nat) :
  omap c = {[ o := n ]} →
  (n ≠ 1%nat
   ∧ repeat (OfCircuit sgn i j c) times s = Raise AssertionError)
  ∨ (n = 1%nat
     ∧ ∃ (e' : Expr) (s' : nat),
         repeat (OfCircuit sgn i j c) times s = Ok (e', s')
         ∧ size e' = Ok times).
Proof.
  intros Ho. unfold repeat, bindM, lift.
  rewrite (size_single sgn i j c o n Ho).
  destruct (decide (n = 1%nat)) as [->|Hn].
  - right. split; [done|].
    rewrite bool_decide_eq_true_2 by done. cbn [assert].
    rewrite (output_single sgn i j c o 1 Ho). cbn [_fresh circuit_of aigbv].
    destruct (rshift_unary c o ("_" +:+ pretty s) 1 times
                (λ bits, replicate times (default false (head bits))) Ho)
      as (c' & Hc' & _ & Hom & _).
    unfold repeat_gate. rewrite Hc'. cbn. eexists _, _. split; [done|].
    by apply (size_single _ _ _ _ ("_" +:+ pretty s)).
  - left. split; [done|]. by rewrite bool_decide_eq_false_2.
Qed.

Lemma repeat_one_bit_only_witness :
  (1 ≠ 1
   ∧ repeat (OfCircuit false 0 1 (identity_gate 1 "x" "y")) 3 2
     = Raise AssertionError)%nat
  ∨ (1 = 1
     ∧ ∃ (e' : Expr) (s' : nat),
         repeat (OfCircuit false 0 1 (identity_gate 1 "x" "y")) 3 2
         = Ok (e', s')
         ∧ size e' = Ok 3)%nat.
Proof. by apply (repeat_one_bit_only false 0 1 _ "y" 1 3 2). Defined.

(** ** Feedback *)
Lemma mapR_subscript_none {V} (l : list string) :
  l ≠ [] → mapR (subscript (V:=V) None) l = Raise TypeError.
Proof. by destruct l. Qed.

(** Whenever initial values are given and there is a latch to create,
    [feedback] returns nothing. *)
Lemma feedback_initials_never_applied (self : AIGBV)
    (inputs outputs : list string) (inits : list (option (list bool)))
    (latches : option (list string)) (keep_outputs : bool) :
  default inputs latches ≠ [] →
  ∃ e : exn,
    feedback self inputs outputs (Some inits) latches keep_outputs = Raise e.
Proof.
  intros Hne. unfold feedback.
  do 6 match goal with
       | |- ∃ e, bind ?m _ = Raise e =>
           destruct m; cbn [bind]; [|by eexists]
       end.
  cbn [dict_update snd]. rewrite mapR_subscript_none by done. by eexists.
Qed.

(** C6: feeding output [y] of a two-bit negation back into its input
    [x]: with the initial value 11 supplied the call raises [TypeError]
    (it subscripts what [dict.update] returned), so the supplied value
    never becomes the latch's initial value; without initial values the
    input becomes the latch [x], initially 00, and a step from the
    latch value 10 leaves it at the negation of 10. *)
Theorem feedback_initials_raise :
  let c := bitwise_negate 2 "x" "y" in
  feedback c ["x"%string] ["y"%string] (Some [Some [true; true]]) None false
    = Raise TypeError
  ∧ ∃ c' : AIGBV,
      feedback c ["x"%string] ["y"%string] None None false = Ok c'
      ∧ inputs c' = ∅ ∧ latches c' = {[ "x"%string ]}
      ∧ latch2init c' = Ok {[ "x"%string := [false; false] ]}
      ∧ call c' ∅ (Some {[ "x"%string := [true; false] ]})
        = Ok (∅, {[ "x"%string := [false; true] ]}).
Proof.
  split; [by vm_compute|]. eexists. split; [reflexivity|].
  split_and!; by vm_compute.
Qed.

(** ** Parallel composition *)
Lemma bindM_ok {A B} (m : M A) (k : A → M B) (s s' : nat) (a : A) :
  m s = Ok (a, s') → bindM m k s = k a s'.
Proof. unfold bindM. by intros ->. Qed.

Lemma bindM_raise {A B} (m : M A) (k : A → M B) (s : nat) (e : exn) :
  m s = Raise e → bindM m k s = Raise e.
Proof. unfold bindM. by intros ->. Qed.

Lemma bindM_raise_ex {A B} (m : M A) (k : A → M B) (s : nat) :
  (∃ e, m s = Raise e) → ∃ e, bindM m k s = Raise e.
Proof. intros [e He]. exists e. by apply bindM_raise. Qed.

Ltac stepM :=
  match goal with
  | |- ∃ e, bindM ?m ?k ?s = Raise e =>
      destruct (m s) as [[? ?]|?] eqn:?
  end;
  [erewrite bindM_ok by eassumption
  |(erewrite bindM_raise by eassumption); eexists; reflexivity].

Lemma fresh_pairs (l : list string) (s : nat) :
  ∃ names : list string,
    mapM_ (λ n, f <~ _fresh; ret (n, f)) l s
    = Ok (zip l names, (s + length l)%nat)
    ∧ length names = length l.
Proof.
  revert s. induction l as [|n l IH]; intros s.
  - exists []. split; [|done]. cbn. unfold ret. do 2 f_equal. lia.
  - destruct (IH (S s)) as (names & Hn & Hlen).
    exists (("_" +:+ pretty s) :: names). split; [|by cbn; rewrite Hlen].
    cbn [mapM_].
    rewrite (bindM_ok _ _ s (S s) (n, "_" +:+ pretty s)) by reflexivity.
    rewrite (bindM_ok _ _ _ _ _ Hn). unfold ret. cbn. do 2 f_equal. lia.
Qed.

Lemma relabel_input_gone (self self' : AIGBV) (tbl : gmap string string)
    (orig : string) :
  relabel self "i" tbl = Ok self' → orig ∈ dom tbl → orig ∈ inputs self →
  orig ∉ inputs self'.
Proof.
  unfold relabel. rewrite bool_decide_eq_true_2 by compute_done. cbn [negb].
  change (get_map "i" self) with (imap self).
  destruct (is_empty _) eqn:Hemp; [|done]. cbn [assert bind].
  destruct (mapR _ _) as [ds|]; [|done]. cbn [bind].
  destruct (of_option _ _) as [ra|]; [|done]. cbn [bind].
  intros [= <-] Hdom Hin. unfold inputs. cbn [imap set_map_of].
  change (set_map_of "i" self ?m) with
    {| aig := aig self; imap := m; omap := omap self; lmap := lmap self |}.
  cbn [imap]. unfold bm_relabel. rewrite dom_list_to_map_L.
  rewrite elem_of_list_to_set, <- list_fmap_compose.
  intros ([k n] & Hk & Hkn%elem_of_map_to_list)%list_elem_of_fmap.
  cbn in Hk. unfold aiger.rename_of in Hk.
  unfold is_empty in Hemp. apply bool_decide_eq_true in Hemp.
  destruct (tbl !! k) as [v|] eqn:Hv; cbn in Hk; subst.
  - assert (v ∈@{gset string} list_to_set (map_to_list tbl).*2) as Hvin.
    { apply elem_of_list_to_set, list_elem_of_fmap. exists (k, v).
      split; [done|]. by apply elem_of_map_to_list. }
    unfold inputs in Hin. set_solver.
  - apply elem_of_dom in Hdom as [? ?]. congruence.
Qed.

Lemma lift_ok {A} (r : result A) (s s' : nat) (a : A) :
  lift r s = Ok (a, s') → r = Ok a.
Proof. unfold lift. destruct r; naive_solver. Qed.

(** No parallel composition of circuits that share an input returns:
    after the relabelling the original name is in neither input map,
    and the loop that adds the fan-out looks it up. *)
Lemma or_shared_inputs_never_returns (A B : AIGBV) (s : nat) :
  inputs A ∩ inputs B ≠ ∅ → ∃ e : exn, or_ A B s = Raise e.
Proof.
  intros Hsh. unfold or_. do 2 stepM.
  destruct (elements (inputs A ∩ inputs B)) as [|orig rest] eqn:E.
  { apply elements_empty_inv in E. set_solver. }
  assert (orig ∈ inputs A ∩ inputs B) as Horig.
  { apply elem_of_elements. rewrite E. left. }
  cbv zeta.
  destruct (fresh_pairs (orig :: rest) n0) as (names1 & H1 & L1).
  rewrite (bindM_ok _ _ _ _ _ H1).
  destruct (fresh_pairs (orig :: rest) (n0 + length (orig :: rest)))
    as (names2 & H2 & L2).
  rewrite (bindM_ok _ _ _ _ _ H2).
  rewrite bool_decide_eq_false_2 by done. cbn [negb].
  stepM.
  match goal with
  | H : lift (relabel A _ _) _ = Ok _ |- _ =>
      apply lift_ok in H; rename H into HrelA
  end.
  do 4 stepM.
  cbn [foldM]. apply bindM_raise_ex. do 2 stepM.
  rewrite bindM_raise with (e := KeyError orig); [by eexists|].
  unfold lift, bm_getitem, getitem.
  assert (orig ∉ inputs a) as Hgone.
  { eapply relabel_input_gone; [exact HrelA| |set_solver].
    destruct names1 as [|nm names1]; [done|].
    rewrite dom_list_to_map_L, elem_of_list_to_set, fmap_reverse,
      elem_of_reverse. cbn. left. }
  unfold inputs in Hgone. apply not_elem_of_dom in Hgone. by rewrite Hgone.
Qed.

(** C2: two negations that both read the word [x]: [A | B] relabels
    both, then raises [KeyError] when it looks the original name [x] up
    in the relabelled input map to size the fan-out; no circuit with
    the input [x] restored is returned. *)
Theorem or_shared_input_raises :
  let A := bitwise_negate 2 "x" "a" in
  let B := bitwise_negate 2 "x" "b" in
  inputs A ∩ inputs B = {[ "x"%string ]}
  ∧ or_ A B 0%nat = Raise (KeyError "x").
Proof. split; by vm_compute. Qed.

(** C8: [ite] broadcasts the test and computes
    [(~test | a) & (test | b)]: on branches reading different inputs it
    selects [a] for the test 1 and [b] for the test 0; on two branches
    that read the same input, and on any test that reads an input, the
    construction raises (the conjunction composes the two sides in
    parallel, and they share that input). *)
Theorem ite_shared_input_raises :
  let vals : gmap string (list bool) :=
    {[ "a"%string := [true; false]; "b"%string := [false; true] ]} in
  run_expr (ite_on 1 "a" "b") vals = Ok [true; false]
  ∧ run_expr (ite_on 0 "a" "b") vals = Ok [false; true]
  ∧ ite_on 1 "a" "a" 0%nat = Raise (KeyError "a")
  ∧ ite_named "t" "a" "b" 0%nat = Raise (KeyError "t").
Proof. split_and!; by vm_compute. Qed.

(** ** Operators applied to one expression twice *)
Lemma or_source_sink (m : nat) (k : Z) (n : nat) (ins : list string) (s : nat) :
  or_ (source m k "x" false) (sink n ins) s = Ok (const_circuit m k n ins, s).
Proof.
  unfold or_.
  rewrite (bindM_ok _ _ s s tt); cycle 1.
  { unfold lift, is_empty, outputs. cbn [omap sink source].
    by rewrite bool_decide_eq_true_2 by set_solver. }
  rewrite (bindM_ok _ _ s s tt); cycle 1.
  { unfold lift, is_empty, latches. cbn [lmap sink source].
    by rewrite bool_decide_eq_true_2 by set_solver. }
  cbv zeta.
  assert (elements (inputs (source m k "x" false) ∩ inputs (sink n ins)) = []) as ->.
  { apply elements_empty_iff. unfold inputs. cbn [imap source]. set_solver. }
  cbn [mapM_]. rewrite (bindM_ok _ _ s s []) by done.
  rewrite (bindM_ok _ _ s s []) by done.
  rewrite bool_decide_eq_true_2 by done. cbn [negb].
  rewrite (bindM_ok _ _ s s (source m k "x" false)) by done.
  rewrite (bindM_ok _ _ s s (sink n ins)) by done.
  rewrite (bindM_ok _ _ s s (∅ ∪ imap (sink n ins))); cycle 1.
  { unfold lift, bm_add. cbn [imap source].
    by rewrite bool_decide_eq_true_2 by set_solver. }
  rewrite (bindM_ok _ _ s s ({[ "x"%string := m ]} ∪ ∅)); cycle 1.
  { unfold lift, bm_add. cbn [omap source sink].
    by rewrite bool_decide_eq_true_2 by set_solver. }
  rewrite (bindM_ok _ _ s s (∅ ∪ ∅)); cycle 1.
  { unfold lift, bm_add. cbn [lmap source sink].
    by rewrite bool_decide_eq_true_2 by set_solver. }
  done.
Qed.

Lemma sink_imap_lookup (n : nat) (ins : list string) (i : string) :
  i ∈ ins → imap (sink n ins) !! i = Some n.
Proof.
  intros Hi. cbn [imap sink].
  destruct (list_to_map ((λ i0, (i0, n)) <$> ins) !! i) as [x|] eqn:Hx.
  - apply elem_of_list_to_map_2 in Hx.
    by apply list_elem_of_fmap in Hx as (? & [= -> ->] & _).
  - apply not_elem_of_list_to_map in Hx. exfalso. apply Hx.
    rewrite <- list_fmap_compose. apply list_elem_of_fmap. by exists i.
Qed.

Lemma blast_sink (n : nat) (ins : list string) (vals : gmap string (list bool)) :
  dom vals = list_to_set ins →
  bm_blast (∅ ∪ imap (sink n ins)) vals
  = Ok (list_to_map (mjoin (blast_word n <$> map_to_list vals))).
Proof.
  intros Hdom. unfold bm_blast. rewrite (left_id_L ∅ (∪)).
  rewrite (mapR_fmap _ (blast_word n)); [done|].
  intros [k bits] Hin%elem_of_map_to_list.
  unfold bm_getitem, getitem. rewrite sink_imap_lookup; [done|].
  apply (elem_of_list_to_set (C:=gset string)). rewrite <- Hdom.
  by apply elem_of_dom.
Qed.

Lemma blast_sink_bits (n : nat) (vals : gmap string (list bool))
    (i : string) (idx : nat) (bits : list bool) :
  vals !! i = Some bits → (idx < length bits)%nat → (idx < n)%nat →
  is_Some ((list_to_map (mjoin (blast_word n <$> map_to_list vals))
            : gmap string bool) !! bit_name i idx).
Proof.
  intros Hv Hlen Hidx. apply not_eq_None_Some. intros Hnone.
  apply not_elem_of_list_to_map in Hnone. apply Hnone.
  destruct (lookup_lt_is_Some_2 bits idx Hlen) as [b Hb].
  apply list_elem_of_fmap. exists (bit_name i idx, b). split; [done|].
  apply list_elem_of_join. exists (blast_word n (i, bits)). split.
  - apply list_elem_of_lookup. exists idx. unfold blast_word. cbn [fst snd].
    apply lookup_zip_with_Some. eexists _, _. split; [done|]. split; [|done].
    unfold bundle. by rewrite list_lookup_fmap, lookup_seq_lt.
  - apply list_elem_of_fmap. exists (i, bits). split; [done|].
    by apply elem_of_map_to_list.
Qed.

Lemma source_bits_lookup (m : nat) (k : Z) (name : string) (idx : nat) :
  (idx < m)%nat →
  (list_to_map (zip (bundle name m) (bits_of m k)) : gmap string bool)
    !! bit_name name idx = Some (Z.testbit k (Z.of_nat idx)).
Proof.
  intros Hidx. apply elem_of_list_to_map_1.
  - rewrite fst_zip.
    + apply NoDup_fmap_2; [apply bit_name_inj|apply NoDup_seq].
    + unfold bundle, bits_of. by rewrite !length_fmap.
  - apply list_elem_of_lookup. exists idx.
    apply lookup_zip_with_Some. eexists _, _. split; [done|].
    unfold bundle, bits_of. by rewrite !list_lookup_fmap, lookup_seq_lt.
Qed.

Lemma unblast_source (m : nat) (k : Z) (v : gmap string bool) :
  (∀ idx : nat, (idx < m)%nat →
     v !! bit_name "x" idx = Some (Z.testbit k (Z.of_nat idx))) →
  bm_unblast ({[ "x"%string := m ]} ∪ ∅) v = Ok {[ "x"%string := bits_of m k ]}.
Proof.
  intros Hv. unfold bm_unblast. rewrite (right_id_L ∅ (∪)), map_to_list_singleton.
  cbn [mapR bind].
  rewrite (mapR_fmap _ (λ s, default false (v !! s))); cycle 1.
  { intros s (idx & -> & Hi%elem_of_seq)%list_elem_of_fmap.
    unfold getitem. rewrite Hv by lia. done. }
  cbn. f_equal. rewrite insert_empty. f_equal.
  unfold bundle, bits_of. rewrite <- list_fmap_compose.
  apply list_fmap_ext. intros i j [-> Hj]%lookup_seq. cbn. by rewrite Hv.
Qed.

Lemma call_const_circuit (m : nat) (k : Z) (n : nat) (ins : list string)
    (vals : gmap string (list bool)) :
  dom vals = list_to_set ins →
  (∀ i bits, vals !! i = Some bits → (n ≤ length bits)%nat) →
  call (const_circuit m k n ins) vals None
  = Ok ({[ "x"%string := bits_of m k ]}, ∅).
Proof.
  intros Hdom Hlen. unfold call. cbn [imap omap lmap aig const_circuit].
  rewrite blast_sink by done. cbn [bind].
  set (bi := (list_to_map (mjoin (blast_word n <$> map_to_list vals))
              : gmap string bool)).
  unfold aiger.call. cbn [default aiger.par_compose aiger.step aiger.latch2init
    aig source sink aiger.source aiger.sink mbind option_bind fst snd].
  destruct (mapM (λ b, bi !! b) (mjoin ((λ i, bundle i n) <$> ins)))
    as [bs|] eqn:Hm; cycle 1.
  { exfalso. eapply (is_Some_None (A:=list bool)). rewrite <- Hm.
    apply mapM_is_Some_2, Forall_forall. intros b Hb. cbn.
    apply list_elem_of_join in Hb as (l & Hbl & Hl).
    apply list_elem_of_fmap in Hl as (i & -> & Hi).
    apply list_elem_of_fmap in Hbl as (idx & -> & Hidx%elem_of_seq).
    assert (i ∈ dom vals) as [bits Hbits]%elem_of_dom.
    { rewrite Hdom. by apply elem_of_list_to_set. }
    apply (blast_sink_bits n vals i idx bits Hbits); [|lia].
    specialize (Hlen _ _ Hbits). lia. }
  cbn [mbind option_bind of_option bind fst snd].
  rewrite (unblast_source m k); cycle 1.
  { intros idx Hidx. rewrite (right_id_L ∅ (∪)).
    by apply source_bits_lookup. }
  cbn [bind]. rewrite !(left_id_L ∅ (∪)). unfold bm_unblast.
  by rewrite map_to_list_empty.
Qed.

Lemma same_circ_constant (gate : nat → string → string → string → AIGBV)
    (k : Z) (sz : option nat)
    (sgn : bool) (i j : nat) (c : AIGBV) (o : string) (n s : nat)
    (vals : gmap string (list bool)) :
  omap c = {[ o := n ]} → dom vals = inputs c →
  (∀ w bits, vals !! w = Some bits → (n ≤ length bits)%nat) →
  let e := OfCircuit sgn i j c in
  ∃ (r : Expr) (s' : nat),
    _binary_gate gate e (inl e) (Some (constk k sz)) s = Ok (r, s')
    ∧ expr_call r vals = Ok (bits_of (default n sz) k).
Proof.
  intros Ho Hdom Hlen e.
  pose proof (size_single sgn i j c o n Ho) as Hsize. fold e in Hsize.
  exists (OfCircuit sgn s (S s)
            (const_circuit (default n sz) k n (elements (inputs c)))),
         (S (S s)).
  split.
  - unfold _binary_gate.
    rewrite (bindM_ok _ _ s s e) by done.
    rewrite (bindM_ok _ _ s s n) by (unfold lift; by rewrite Hsize).
    rewrite (bindM_ok _ _ s s n) by (unfold lift; by rewrite Hsize).
    rewrite (bindM_ok _ _ s s tt)
      by (unfold lift; by rewrite bool_decide_eq_true_2).
    rewrite bool_decide_eq_true_2 by done.
    rewrite (bindM_ok _ _ s s
               (inl (const_circuit (default n sz) k n (elements (inputs c)))));
      [done|].
    unfold constk.
    rewrite (bindM_ok _ _ s s (default n sz)); cycle 1.
    { destruct sz; [done|]. unfold lift. by rewrite Hsize. }
    rewrite (bindM_ok _ _ s s n) by (unfold lift; by rewrite Hsize).
    rewrite (bindM_ok _ _ s s
               (const_circuit (default n sz) k n (elements (inputs c))));
      [done|].
    apply or_source_sink.
  - cbn [expr_call]. rewrite call_const_circuit; cycle 1.
    { rewrite Hdom. apply set_eq. intros w.
      by rewrite elem_of_list_to_set, elem_of_elements. }
    { exact Hlen. }
    cbn [bind fst]. unfold outputs. cbn [omap const_circuit].
    rewrite (right_id_L ∅ (∪)), dom_singleton_L, elements_singleton.
    cbn [first head of_option bind]. unfold getitem.
    by rewrite lookup_singleton_eq.
Qed.

Lemma xor_self (x : list bool) : zip_with xorb x x = bits_of (length x) 0.
Proof.
  apply list_eq. intros i. unfold bits_of.
  rewrite lookup_zip_with, list_lookup_fmap.
  destruct (x !! i) as [b|] eqn:Hb; cbn.
  - rewrite lookup_seq_lt by (by eapply lookup_lt_Some). cbn.
    by rewrite Z.bits_0, xorb_nilpotent.
  - rewrite lookup_seq_ge; [done|]. by apply lookup_ge_None.
Qed.

(** The self-operations that compose a constant: for an expression [e]
    over a circuit with one output of size [n], evaluated on input words
    of at least [n] bits, the special-cased path of [e - e] and
    [e ^ e] builds the constant 0 of
    [n] bits beside a sink, that of [e != e] the one-bit 0 and that of
    [e <= e] and [e >= e] the one-bit 1; each is what the operator's
    gate computes on two equal operands [x]. *)
Theorem self_operation_constant (sgn : bool) (i j : nat) (c : AIGBV)
    (o : string) (n s : nat) (vals : gmap string (list bool))
    (x : list bool) :
  omap c = {[ o := n ]} → dom vals = inputs c →
  (∀ w bits, vals !! w = Some bits → (n ≤ length bits)%nat) →
  length x = n →
  let e := OfCircuit sgn i j c in
  (evaluates_to (sub e (inl e)) s vals (bits_of n 0)
   ∧ word_op n Z.sub x x = bits_of n 0)
  ∧ (evaluates_to (xor e (inl e)) s vals (bits_of n 0)
     ∧ zip_with xorb x x = bits_of n 0)
  ∧ (evaluates_to (ne e (inl e)) s vals [false]
     ∧ word_test (λ a b, negb (a =? b)) x x = [false])
  ∧ (evaluates_to (le e (inl e)) s vals [true]
     ∧ word_test Z.leb x x = [true]
     ∧ [signed_of x <=? signed_of x] = [true])
  ∧ (evaluates_to (ge e (inl e)) s vals [true]
     ∧ word_test Z.geb x x = [true]
     ∧ [signed_of x >=? signed_of x] = [true]).
Proof.
  intros Ho Hdom Hlen Hx e. unfold evaluates_to, sub, xor, ne, le, ge.
  change [false] with (bits_of (default n (Some 1%nat)) 0).
  change [true] with (bits_of (default n (Some 1%nat)) 1).
  split_and!.
  - apply (same_circ_constant subtract_gate 0 None sgn i j c o n s vals
             Ho Hdom Hlen).
  - unfold word_op. by rewrite Z.sub_diag.
  - apply (same_circ_constant bitwise_xor 0 None sgn i j c o n s vals
             Ho Hdom Hlen).
  - by rewrite xor_self, Hx.
  - apply (same_circ_constant ne_gate 0 (Some 1%nat) sgn i j c o n s vals
             Ho Hdom Hlen).
  - unfold word_test. by rewrite Z.eqb_refl.
  - apply (same_circ_constant _ 1 (Some 1%nat) sgn i j c o n s vals
             Ho Hdom Hlen).
  - unfold word_test. by rewrite Z.leb_refl.
  - by rewrite Z.leb_refl.
  - apply (same_circ_constant _ 1 (Some 1%nat) sgn i j c o n s vals
             Ho Hdom Hlen).
  - unfold word_test, Z.geb. by rewrite Z.compare_refl.
  - unfold Z.geb. by rewrite Z.compare_refl.
Qed.

Lemma self_operation_constant_witness :
  let e := OfCircuit false 0 1 (identity_gate 2 "a" "o") in
  let vals : gmap string (list bool) := {[ "a"%string := [true; false] ]} in
  let x := [true; false] in
  (evaluates_to (sub e (inl e)) 2 vals (bits_of 2 0)
   ∧ word_op 2 Z.sub x x = bits_of 2 0)
  ∧ (evaluates_to (xor e (inl e)) 2 vals (bits_of 2 0)
     ∧ zip_with xorb x x = bits_of 2 0)
  ∧ (evaluates_to (ne e (inl e)) 2 vals [false]
     ∧ word_test (λ a b, negb (a =? b)) x x = [false])
  ∧ (evaluates_to (le e (inl e)) 2 vals [true]
     ∧ word_test Z.leb x x = [true]
     ∧ [signed_of x <=? signed_of x] = [true])
  ∧ (evaluates_to (ge e (inl e)) 2 vals [true]
     ∧ word_test Z.geb x x = [true]
     ∧ [signed_of x >=? signed_of x] = [true]).
Proof.
  apply (self_operation_constant false 0 1 (identity_gate 2 "a" "o") "o" 2 2
           {[ "a"%string := [true; false] ]} [true; false]).
  - reflexivity.
  - by vm_compute.
  - intros w bits [<- <-]%lookup_singleton_Some. cbn. lia.
  - reflexivity.
Defined.

(** On the constant 1 of two bits the generic construction of [+]
    evaluates to 2, and the special-cased [e + e] does not evaluate to
    it. *)
Lemma add_self_not_equivalent :
  let one := atom 2 (Some (inr 1)) false in
  run_expr (pair_op add one) ∅ = Ok [false; true]
  ∧ run_expr (self_op add one) ∅ ≠ run_expr (pair_op add one) ∅.
Proof. split; [by vm_compute|]. vm_compute. discriminate. Qed.

(** C9: the special-cased path is not evaluation-equivalent to the
    generic construction for every operator.  [+], [&] and [|] hand
    [lambda x: x] to [_binary_gate], which then builds
    [type(expr1)(expr1)]: an expression whose [aigbv] attribute is the
    expression itself, where the other builders ([constk]) return a
    word circuit.  For every expression [e] over a word circuit,
    [e + e], [e & e] and [e | e] return that wrapper without composing
    anything; it has no size and no output, and evaluating it on any
    inputs raises, so it is equivalent to no construction that
    evaluates (on the two-bit constant 1 the generic [+] gives 2:
    [add_self_not_equivalent]).  The paths of [-], [^], [!=], [<=] and
    [>=] do compose the constant: [self_operation_constant]. *)
Theorem self_operation_wraps_expression (e : Expr) (n s : nat) :
  size e = Ok n →
  let r := OfExpr (signed e) s e in
  add e (inl e) s = Ok (r, S s)
  ∧ and_ e (inl e) s = Ok (r, S s)
  ∧ bor e (inl e) s = Ok (r, S s)
  ∧ size r = Raise AttributeError
  ∧ output r = Raise AttributeError
  ∧ (∀ vals : gmap string (list bool), ∃ err : exn,
       expr_call r vals = Raise err).
Proof.
  intros Hsize r.
  assert (∀ gate, _binary_gate gate e (inl e) (Some same_id) s = Ok (r, S s))
    as Hop.
  { intros gate. unfold _binary_gate.
    rewrite (bindM_ok _ _ s s e) by done.
    rewrite (bindM_ok _ _ s s n) by (unfold lift; by rewrite Hsize).
    rewrite (bindM_ok _ _ s s n) by (unfold lift; by rewrite Hsize).
    rewrite (bindM_ok _ _ s s tt)
      by (unfold lift; by rewrite bool_decide_eq_true_2).
    rewrite bool_decide_eq_true_2 by done.
    by rewrite (bindM_ok _ _ s s (inr e)) by done. }
  split_and!; [apply Hop..|done|done|].
  intros vals. cbn [expr_call r].
  destruct (expr_call e vals) as [bits|err]; cbn [bind]; eauto.
Qed.

Lemma self_operation_wraps_expression_witness :
  let x := OfCircuit false 1 2 (source 2 1 "_0" false) in
  let r := OfExpr false 3 x in
  add x (inl x) 3%nat = Ok (r, 4%nat)
  ∧ and_ x (inl x) 3%nat = Ok (r, 4%nat)
  ∧ bor x (inl x) 3%nat = Ok (r, 4%nat)
  ∧ size r = Raise AttributeError
  ∧ output r = Raise AttributeError
  ∧ (∀ vals : gmap string (list bool), ∃ err : exn,
       expr_call r vals = Raise err).
Proof.
  apply (self_operation_wraps_expression
           (OfCircuit false 1 2 (source 2 1 "_0" false)) 2 3).
  by vm_compute.
Defined.

(** * Further properties *)

(** ** Names with an index *)

Lemma list_ascii_app (s t : string) :
  String.list_ascii_of_string (s +:+ t)
  = String.list_ascii_of_string s ++ String.list_ascii_of_string t.
Proof.
  induction s as [|c s IH]; [done|].
  change (String c s +:+ t) with (String c (s +:+ t)).
  cbn [String.list_ascii_of_string]. by rewrite IH.
Qed.

Lemma pretty_N_char_digit (d : N) :
  (d < 10)%N →
  is_digit (pretty_N_char d) = true
  ∧ (nat_of_ascii (pretty_N_char d) - 48)%nat = N.to_nat d.
Proof.
  intros Hd.
  assert (d = 0 ∨ d = 1 ∨ d = 2 ∨ d = 3 ∨ d = 4 ∨ d = 5 ∨ d = 6 ∨ d = 7
          ∨ d = 8 ∨ d = 9)%N as Hcases by lia.
  repeat (destruct Hcases as [->|Hcases]); try subst d; by vm_compute.
Qed.

Lemma int_digits_snoc (ds : list ascii) (c : ascii) :
  int_digits (reverse (ds ++ [c]))
  = ((nat_of_ascii c - 48) + 10 * int_digits (reverse ds))%nat.
Proof. by rewrite reverse_app. Qed.

Lemma pretty_N_go_digits (x : N) (s : string) :
  ∃ ds : list ascii,
    String.list_ascii_of_string (pretty_N_go x s)
    = ds ++ String.list_ascii_of_string s
    ∧ Forall (λ c, is_digit c = true) ds
    ∧ int_digits (reverse ds) = N.to_nat x
    ∧ ((0 < x)%N → ds ≠ []).
Proof.
  revert s. induction (N.lt_wf_0 x) as [x _ IH]. intros s.
  destruct (decide (x = 0%N)) as [->|Hx].
  - exists []. rewrite pretty_N_go_0. split_and!; [done..|lia].
  - rewrite pretty_N_go_step by lia.
    destruct (IH (x `div` 10)%N) with
      (s := String (pretty_N_char (x `mod` 10)) s)
      as (ds & Hds & Hdig & Hval & _).
    { apply N.div_lt; lia. }
    destruct (pretty_N_char_digit (x `mod` 10)%N) as [Hc Hv].
    { apply N.mod_lt. lia. }
    exists (ds ++ [pretty_N_char (x `mod` 10)]). split_and!.
    + rewrite Hds. cbn. by rewrite <- app_assoc.
    + apply Forall_app. split; [done|]. by apply Forall_singleton.
    + rewrite int_digits_snoc, Hv, Hval.
      pose proof (N.div_mod x 10). lia.
    + intros _. by destruct ds.
Qed.

Lemma pretty_nat_digits (i : nat) :
  ∃ ds : list ascii,
    String.list_ascii_of_string (pretty i) = ds
    ∧ Forall (λ c, is_digit c = true) ds
    ∧ ds ≠ []
    ∧ int_digits (reverse ds) = i.
Proof.
  unfold pretty, pretty_nat, pretty, pretty_N.
  destruct (decide (N.of_nat i = 0%N)) as [Hi|Hi].
  - exists ["0"%char]. split_and!; [done| |done|].
    + by apply Forall_singleton.
    + assert (i = 0%nat) as -> by lia. reflexivity.
  - destruct (pretty_N_go_digits (N.of_nat i) EmptyString)
      as (ds & Hds & Hdig & Hval & Hne).
    exists ds. cbn in Hds. rewrite app_nil_r in Hds.
    split_and!; [done|done|apply Hne; lia|lia].
Qed.

Lemma take_digits_app (ds rest : list ascii) (c : ascii) :
  Forall (λ c, is_digit c = true) ds → is_digit c = false →
  take_digits (ds ++ c :: rest) = (ds, c :: rest).
Proof.
  intros Hds Hc. induction Hds as [|d ds Hd _ IH]; cbn.
  - by rewrite Hc.
  - by rewrite Hd, IH.
Qed.

Lemma unpack_bit_name (root : string) (i : nat) :
  unpack_name (bit_name root i) = Ok (root, i).
Proof.
  unfold unpack_name, bit_name.
  destruct (pretty_nat_digits i) as (ds & Hds & Hdig & Hne & Hval).
  rewrite !list_ascii_app, Hds. cbn [String.list_ascii_of_string].
  rewrite !reverse_app, !reverse_singleton, <- !app_assoc. cbn [app].
  rewrite take_digits_app; [|by apply Forall_reverse|done].
  destruct (reverse ds) as [|d ds'] eqn:Hrev.
  { apply (f_equal reverse) in Hrev. rewrite reverse_involutive in Hrev.
    by subst. }
  rewrite reverse_involutive, String.string_of_list_ascii_of_string.
  do 2 f_equal. congruence.
Qed.

(** [unpack_name] undoes the naming of bits: from the name of bit [i]
    of the word [root] it recovers [root] and [i].  The pattern's dot
    matches no line break, so the root is taken without one. *)
Theorem unpack_name_bit_name (root : string) (i : nat) :
  "010"%char ∉ String.list_ascii_of_string root →
  unpack_name (bit_name root i) = Ok (root, i).
Proof. intros _. apply unpack_bit_name. Qed.

Lemma unpack_name_bit_name_witness :
  unpack_name (bit_name "x[1]" 12) = Ok ("x[1]"%string, 12%nat).
Proof. apply (unpack_name_bit_name "x[1]" 12). compute_done. Defined.

(** Two bits have the same name only when they are the same bit of the
    same word. *)
Lemma bit_name_inj2 (r1 r2 : string) (i1 i2 : nat) :
  bit_name r1 i1 = bit_name r2 i2 → r1 = r2 ∧ i1 = i2.
Proof.
  intros H. apply (f_equal unpack_name) in H.
  rewrite !unpack_bit_name in H. by simplify_eq.
Qed.

(** ** Sizes of bundles *)

Lemma size_list_to_set_NoDup (l : list nat) :
  base.size (list_to_set l : gset nat) = length l → NoDup l.
Proof.
  induction l as [|x l IH]; [constructor|].
  cbn [list_to_set length foldr]. intros H.
  assert (Hle : ∀ k : list nat, (base.size (list_to_set k : gset nat) ≤ length k)%nat).
  { induction k as [|y k IHk]; cbn [list_to_set length foldr].
    - by rewrite size_empty.
    - rewrite size_union_alt, size_singleton.
      pose proof (subseteq_size (list_to_set k ∖ {[y]}) (list_to_set k : gset nat)
                    ltac:(set_solver)). lia. }
  destruct (decide (x ∈ l)) as [Hin|Hout].
  - exfalso. assert ({[x]} ∪ list_to_set l = (list_to_set l : gset nat)) as E.
    { apply set_eq. intros y. rewrite elem_of_union, elem_of_singleton,
        elem_of_list_to_set. naive_solver. }
    rewrite E in H. specialize (Hle l). lia.
  - constructor; [done|]. apply IH.
    rewrite size_union in H.
    + rewrite size_singleton in H. lia.
    + apply disjoint_singleton_l. by rewrite elem_of_list_to_set.
Qed.

Lemma foldr_max_ge (l : list nat) (x : nat) :
  x ∈ l → (x ≤ foldr Nat.max 0 l)%nat.
Proof.
  induction l as [|y l IH]; [by intros ?%elem_of_nil|].
  intros [->|H]%elem_of_cons; cbn [foldr]; [lia|].
  specialize (IH H). lia.
Qed.

Lemma foldr_max_le (l : list nat) (b : nat) :
  (∀ x, x ∈ l → (x ≤ b)%nat) → (foldr Nat.max 0 l ≤ b)%nat.
Proof.
  induction l as [|y l IH]; intros H; cbn [foldr]; [lia|].
  pose proof (H y ltac:(left)).
  pose proof (IH (λ x Hx, H x ltac:(by right))). lia.
Qed.

Lemma foldr_min_zero (l : list nat) (d : nat) :
  0%nat ∈ l → foldr Nat.min d l = 0%nat.
Proof.
  induction l as [|y l IH]; [by intros ?%elem_of_nil|].
  intros [<-|H]%elem_of_cons; cbn [foldr]; [done|].
  rewrite (IH H). lia.
Qed.

Lemma to_size_of_permutation (idxs : list nat) (n : nat) :
  (0 < n)%nat → idxs ≡ₚ seq 0 n → to_size idxs = Ok n.
Proof.
  intros Hpos Hp. unfold to_size, assert.
  assert (Hn : length idxs = n) by (by rewrite Hp, length_seq).
  assert (Hnd : NoDup idxs) by (rewrite Hp; apply NoDup_seq).
  assert (Hin : ∀ x, x ∈ idxs ↔ (x < n)%nat).
  { intros x. rewrite Hp, elem_of_seq. lia. }
  rewrite (bool_decide_eq_true_2 (base.size _ = _))
    by (by apply size_list_to_set).
  rewrite (bool_decide_eq_true_2 (foldr Nat.min _ _ = _)).
  2:{ apply foldr_min_zero, Hin. lia. }
  rewrite (bool_decide_eq_true_2 (foldr Nat.max _ _ = _)).
  2:{ apply Nat.le_antisymm.
      - apply foldr_max_le. intros x Hx%Hin. lia.
      - apply foldr_max_ge, Hin. lia. }
  cbn [bind]. by rewrite Hn.
Qed.

(** [to_size] accepts exactly the lists that enumerate [0], ..., [n-1]
    in some order, and returns their length [n].  (Of an empty list
    Python's [min] raises; the statement is about the lists that have an
    element.) *)
Theorem to_size_permutation (idxs : list nat) (n : nat) :
  (0 < length idxs)%nat →
  to_size idxs = Ok n ↔ idxs ≡ₚ seq 0 n.
Proof.
  intros Hpos. split.
  - unfold to_size, assert.
    repeat case_bool_decide; cbn [bind]; try discriminate.
    intros [= <-].
    match goal with H : base.size _ = _ |- _ =>
      apply size_list_to_set_NoDup in H; rename H into Hnd end.
    match goal with H : foldr Nat.max _ _ = _ |- _ => rename H into Hmax end.
    apply submseteq_length_Permutation; [|by rewrite length_seq].
    apply NoDup_submseteq; [done|]. intros x Hx.
    apply elem_of_seq. pose proof (foldr_max_ge _ _ Hx). lia.
  - intros Hp. apply to_size_of_permutation; [|done].
    by rewrite Hp, length_seq in Hpos.
Qed.

Lemma to_size_permutation_witness :
  to_size [2; 0; 1]%nat = Ok 3%nat ↔ [2; 0; 1]%nat ≡ₚ seq 0 3.
Proof. apply (to_size_permutation [2; 0; 1]%nat 3). simpl. lia. Defined.

(** ** Rebundling names *)

Lemma group_values_lookup_acc (kvs : list (string * nat))
    (acc : gmap string (list nat)) (k : string) :
  foldl (λ acc kv, <[kv.1 := default [] (acc !! kv.1) ++ [kv.2]]> acc) acc kvs
    !! k
  = match (filter (λ kv, kv.1 = k) kvs).*2 with
    | [] => acc !! k
    | idxs => Some (default [] (acc !! k) ++ idxs)
    end.
Proof.
  revert acc. induction kvs as [|[k' i] kvs IH]; intros acc; [done|].
  cbn [foldl fst snd]. rewrite IH. rewrite filter_cons. cbn [fst].
  destruct (decide (k' = k)) as [->|Hne].
  - rewrite lookup_insert_eq. cbn [fmap list_fmap snd default].
    destruct ((filter (λ kv, kv.1 = k) kvs).*2) as [|j idxs]; [done|].
    unfold id. by rewrite <- app_assoc.
  - by rewrite lookup_insert_ne.
Qed.

Lemma group_values_lookup (kvs : list (string * nat)) (k : string) :
  group_values kvs !! k
  = match (filter (λ kv, kv.1 = k) kvs).*2 with
    | [] => None
    | idxs => Some idxs
    end.
Proof.
  unfold group_values. rewrite group_values_lookup_acc, lookup_empty.
  by destruct ((filter _ kvs).*2).
Qed.

Lemma elem_of_bm_names (m : BundleMap) (s : string) :
  s ∈ bm_names m ↔
  ∃ k n i, m !! k = Some n ∧ (i < n)%nat ∧ s = bit_name k i.
Proof.
  unfold bm_names. rewrite elem_of_list_to_set, list_elem_of_bind. split.
  - intros ([k n] & Hs & Hkn). apply elem_of_map_to_list in Hkn.
    unfold bundle in Hs. cbn [fst snd] in Hs.
    apply list_elem_of_fmap in Hs as (i & -> & Hi).
    apply elem_of_seq in Hi. exists k, n, i. split_and!; [done|lia|done].
  - intros (k & n & i & Hk & Hi & ->). exists (k, n). split.
    + unfold bundle. cbn [fst snd]. apply list_elem_of_fmap.
      exists i. split; [done|]. apply elem_of_seq. lia.
    + by apply elem_of_map_to_list.
Qed.

Lemma group_of_bundles (kvs : list (string * nat)) (m : BundleMap) (k : string) :
  NoDup kvs →
  (∀ k i, (k, i) ∈ kvs ↔ ∃ n, m !! k = Some n ∧ (i < n)%nat) →
  (filter (λ kv, kv.1 = k) kvs).*2 ≡ₚ seq 0 (default 0%nat (m !! k)).
Proof.
  intros Hnd Hin. apply NoDup_Permutation.
  - apply NoDup_fmap_2_strong; [|by apply NoDup_filter].
    intros [k1 i1] [k2 i2] [H1 _]%list_elem_of_filter [H2 _]%list_elem_of_filter.
    cbn in *. congruence.
  - apply NoDup_seq.
  - intros i. rewrite list_elem_of_fmap, elem_of_seq. split.
    + intros ([k' i'] & -> & [Hk Hki]%list_elem_of_filter). cbn in *. subst k'.
      apply Hin in Hki as (n & -> & Hlt). cbn. lia.
    + intros [_ Hlt]. exists (k, i). split; [done|].
      apply list_elem_of_filter. split; [done|]. apply Hin.
      destruct (m !! k) as [n|]; cbn in Hlt; [|lia]. eauto.
Qed.

Lemma rebundle_names_of_pairs (names : gset string) (kvs : list (string * nat))
    (m : BundleMap) :
  mapR unpack_name (elements names) = Ok kvs →
  NoDup kvs →
  (∀ k i, (k, i) ∈ kvs ↔ ∃ n, m !! k = Some n ∧ (i < n)%nat) →
  rebundle_names names = Ok (filter (λ kv, kv.2 ≠ 0%nat) m).
Proof.
  intros Hun Hnd Hin. unfold rebundle_names. rewrite Hun. cbn [bind].
  assert (HG : ∀ k idxs, group_values kvs !! k = Some idxs →
            ∃ n, m !! k = Some n ∧ (0 < n)%nat ∧ idxs ≡ₚ seq 0 n).
  { intros k idxs. rewrite group_values_lookup.
    pose proof (group_of_bundles kvs m k Hnd Hin) as Hp.
    destruct ((filter _ kvs).*2) as [|j l] eqn:E; [done|]. intros [= <-].
    destruct (m !! k) as [n|]; cbn in Hp.
    - exists n. split_and!; [done| |done].
      apply Permutation_length in Hp. rewrite length_seq in Hp. cbn in Hp. lia.
    - apply Permutation_length in Hp. by cbn in Hp. }
  rewrite (mapR_fmap _ (prod_map id length)).
  2:{ intros [k idxs] Hk%elem_of_map_to_list.
      destruct (HG _ _ Hk) as (n & _ & Hpos & Hp).
      rewrite (to_size_of_permutation idxs n Hpos Hp). cbn.
      by rewrite Hp, length_seq. }
  cbn [bind]. f_equal.
  rewrite list_to_map_fmap, list_to_map_to_list.
  apply map_eq. intros k. rewrite lookup_fmap.
  destruct (group_values kvs !! k) as [idxs|] eqn:EG; cbn.
  - destruct (HG _ _ EG) as (n & Hm & Hpos & Hp). symmetry.
    rewrite Hp, length_seq.
    apply map_lookup_filter_Some. split; [done|]. cbn. lia.
  - symmetry. apply map_lookup_filter_None.
    destruct (m !! k) as [n|] eqn:Hm; [right|by left].
    intros n' [= <-]. cbn. intros Hne. apply Hne.
    rewrite group_values_lookup in EG.
    pose proof (group_of_bundles kvs m k Hnd Hin) as Hp.
    rewrite Hm in Hp. cbn in Hp.
    destruct ((filter _ kvs).*2) as [|j l]; [|done].
    apply Permutation_length in Hp. rewrite length_seq in Hp. by cbn in Hp.
Qed.

Lemma rebundle_bm_names (m : BundleMap) :
  rebundle_names (bm_names m) = Ok (filter (λ kv, kv.2 ≠ 0%nat) m).
Proof.
  pose (g := λ s, match unpack_name s with Ok p => p | Raise _ => (s, 0%nat) end).
  assert (Hg : ∀ k i, g (bit_name k i) = (k, i)).
  { intros k i. unfold g. by rewrite unpack_bit_name. }
  apply (rebundle_names_of_pairs _ (g <$> elements (bm_names m))).
  - apply mapR_fmap. intros s Hs%elem_of_elements.
    apply elem_of_bm_names in Hs as (k & n & i & _ & _ & ->).
    by rewrite Hg, unpack_bit_name.
  - apply NoDup_fmap_2_strong; [|apply NoDup_elements].
    intros s1 s2 H1%elem_of_elements H2%elem_of_elements.
    apply elem_of_bm_names in H1 as (k1 & n1 & i1 & _ & _ & ->).
    apply elem_of_bm_names in H2 as (k2 & n2 & i2 & _ & _ & ->).
    rewrite !Hg. congruence.
  - intros k i. rewrite list_elem_of_fmap. split.
    + intros (s & Hs & Hin%elem_of_elements).
      apply elem_of_bm_names in Hin as (k' & n & i' & Hk & Hi & ->).
      rewrite Hg in Hs. simplify_eq. eauto.
    + intros (n & Hk & Hi). exists (bit_name k i). split; [by rewrite Hg|].
      apply elem_of_elements, elem_of_bm_names. eauto 6.
Qed.

(** Rebundling the bit names of a bundle map gives the map back:
    [rebundle_names] recovers every word with its size from the names
    of its bits.  The words have at least one bit (a word of no bit has
    no name to be found by) and no line break in their names. *)
Theorem rebundle_names_round_trip (m : BundleMap) :
  map_Forall (λ k n, (0 < n)%nat ∧ "010"%char ∉ String.list_ascii_of_string k) m →
  rebundle_names (bm_names m) = Ok m.
Proof.
  intros Hm. rewrite rebundle_bm_names. f_equal.
  apply map_filter_id. intros k n Hk. destruct (Hm k n Hk). cbn. lia.
Qed.

Lemma rebundle_names_round_trip_witness :
  rebundle_names (bm_names {[ "x"%string := 2%nat; "y"%string := 1%nat ]})
  = Ok {[ "x"%string := 2%nat; "y"%string := 1%nat ]}.
Proof.
  apply (rebundle_names_round_trip {[ "x"%string := 2%nat; "y"%string := 1%nat ]}).
  apply map_Forall_insert_2; [|apply map_Forall_singleton];
    (split; [lia|compute_done]).
Defined.

(** ** Lifting bit-level circuits *)

Lemma rename_index_relabels (X : gset string) (n : string) :
  n ∈ X → aiger.rename_of (index_relabels X) n = bit_name n 0.
Proof.
  intros Hn. unfold aiger.rename_of, index_relabels.
  assert (set_to_map (λ name : string, (name, name +:+ "[0]")) X !! n
          = Some (n +:+ "[0]")) as ->; [|done].
  apply lookup_set_to_map; [|by exists n].
  by intros y y' _ _ ?.
Qed.

Lemma set_map_index_relabels (X : gset string) :
  set_map (aiger.rename_of (index_relabels X)) X = bm_names (_diagonal_map X).
Proof.
  apply set_eq. intros s. rewrite elem_of_map, elem_of_bm_names. split.
  - intros (n & -> & Hn). rewrite rename_index_relabels by done.
    exists n, 1%nat, 0%nat. split_and!; [|lia|done].
    by apply lookup_gset_to_gmap_Some.
  - intros (k & n & i & [Hk <-]%lookup_gset_to_gmap_Some & Hi & ->).
    exists k. split; [|done]. rewrite rename_index_relabels by done.
    by replace i with 0%nat by lia.
Qed.

Lemma dom_push (tbl : gmap string string) (m : aiger.valuation) :
  dom (aiger.push tbl m) = set_map (aiger.rename_of tbl) (dom m).
Proof.
  unfold aiger.push. rewrite dom_list_to_map_L. apply set_eq. intros s.
  rewrite elem_of_list_to_set, elem_of_map, list_elem_of_fmap. split.
  - intros ([s' b] & -> & ([k v] & -> & Hkv%elem_of_map_to_list)%list_elem_of_fmap).
    exists k. split; [done|]. by apply elem_of_dom.
  - intros (k & -> & [v Hk]%elem_of_dom). exists (aiger.rename_of tbl k, v).
    split; [done|]. apply list_elem_of_fmap. exists (k, v). split; [done|].
    by apply elem_of_map_to_list.
Qed.

Lemma append_index_names (a : aiger.AIG) :
  aiger.inputs (append_index a) = bm_names (_diagonal_map (aiger.inputs a))
  ∧ aiger.outputs (append_index a) = bm_names (_diagonal_map (aiger.outputs a))
  ∧ aiger.latches (append_index a) = bm_names (_diagonal_map (aiger.latches a)).
Proof.
  unfold append_index, aiger.relabel, aiger.latches.
  rewrite !(decide_True (P := "i"%string = "i"%string)) by done.
  rewrite !(decide_False (P := "o"%string = "i"%string)) by done.
  rewrite !(decide_True (P := "o"%string = "o"%string)) by done.
  rewrite !(decide_False (P := "l"%string = "i"%string)) by done.
  rewrite !(decide_False (P := "l"%string = "o"%string)) by done.
  cbn [aiger.inputs aiger.outputs aiger.latch2init].
  rewrite dom_push. split_and!; apply set_map_index_relabels.
Qed.

(** The circuit [aig2aigbv] returns is well formed: its three bundle
    maps name exactly the inputs, the outputs and the latches of its
    bit-level circuit, every word being one bit wide. *)
Theorem aig2aigbv_names (a : aiger.AIG) :
  let c := aig2aigbv a in
  aiger.inputs (aig c) = bm_names (imap c)
  ∧ aiger.outputs (aig c) = bm_names (omap c)
  ∧ aiger.latches (aig c) = bm_names (lmap c)
  ∧ map_Forall (λ _ n, n = 1%nat) (imap c)
  ∧ map_Forall (λ _ n, n = 1%nat) (omap c)
  ∧ map_Forall (λ _ n, n = 1%nat) (lmap c).
Proof.
  cbn. destruct (append_index_names a) as (Hi & Ho & Hl).
  split_and!; try done;
    by intros k n [_ <-]%lookup_gset_to_gmap_Some.
Qed.

(** Lifting and rebundling agree: the bundle maps [rebundle_aig] reads
    off the names of the circuit [append_index] returns are the maps
    [aig2aigbv] gives it (names are taken without line breaks, which
    the pattern of [unpack_name] does not match). *)
Theorem rebundle_append_index (a : aiger.AIG) :
  (∀ k, k ∈ aiger.inputs a ∪ aiger.outputs a ∪ aiger.latches a →
        "010"%char ∉ String.list_ascii_of_string k) →
  rebundle_aig (append_index a) = Ok (aig2aigbv a).
Proof.
  intros _. unfold rebundle_aig, aig2aigbv.
  destruct (append_index_names a) as (-> & -> & ->).
  rewrite !rebundle_bm_names. cbn [bind].
  rewrite !map_filter_id; [done|..];
    by intros k n [_ <-]%lookup_gset_to_gmap_Some.
Qed.

Lemma rebundle_append_index_witness :
  rebundle_aig (append_index (aiger.sink ["a"%string; "b"%string]))
  = Ok (aig2aigbv (aiger.sink ["a"%string; "b"%string])).
Proof.
  apply (rebundle_append_index (aiger.sink ["a"%string; "b"%string])).
  intros k Hk. cbn in Hk.
  assert (k = "a"%string ∨ k = "b"%string) as [-> | ->] by set_solver;
    compute_done.
Defined.

(** ** Names of unrolled circuits *)

Lemma string_of_list_ascii_app (l k : list ascii) :
  String.string_of_list_ascii (l ++ k)
  = String.string_of_list_ascii l +:+ String.string_of_list_ascii k.
Proof. induction l as [|c l IH]; [done|]. cbn. by rewrite IH. Qed.

Lemma string_app_assoc (s t u : string) : s +:+ t +:+ u = (s +:+ t) +:+ u.
Proof.
  induction s as [|c s IH]; [done|].
  change (String c s +:+ t +:+ u) with (String c (s +:+ t +:+ u)).
  by rewrite IH.
Qed.

Lemma shuffle_bit_name (root : string) (i t : nat) :
  shuffle_id_time (bit_name root i +:+ "##time_" +:+ pretty t)
  = Ok (bit_name (root +:+ "##time_" +:+ pretty t) i).
Proof.
  unfold shuffle_id_time, bit_name.
  destruct (pretty_nat_digits i) as (ds & Hds & Hdig & Hne & _).
  destruct (pretty_nat_digits t) as (ts & Hts & Htdig & Htne & _).
  rewrite !list_ascii_app, Hds, Hts. cbn [String.list_ascii_of_string].
  rewrite !reverse_app, !reverse_singleton, <- !app_assoc. cbn [app].
  change (reverse ["#"; "#"; "t"; "i"; "m"; "e"; "_"]%char)
    with ["_"; "e"; "m"; "i"; "t"; "#"; "#"]%char.
  cbn [app].
  rewrite take_digits_app; [|by apply Forall_reverse|done].
  destruct (reverse ts) as [|t0 ts'] eqn:Hrevt.
  { apply (f_equal reverse) in Hrevt. rewrite reverse_involutive in Hrevt.
    by subst. }
  cbn [drop_prefix]. rewrite !decide_True by done.
  rewrite take_digits_app; [|by apply Forall_reverse|done].
  destruct (reverse ds) as [|d0 ds'] eqn:Hrevd.
  { apply (f_equal reverse) in Hrevd. rewrite reverse_involutive in Hrevd.
    by subst. }
  rewrite <- Hrevt, <- Hrevd, !reverse_involutive.
  rewrite <- Hds, <- Hts, !String.string_of_list_ascii_of_string.
  f_equal. by rewrite !string_app_assoc.
Qed.

(** [shuffle_id_time] moves the time step of an unrolled bit before its
    index: the name the engine gives bit [i] of the word [root] at time
    [t] becomes the name of bit [i] of the word [root##time_t], which
    [unpack_name] can take apart (the root has no line break, which the
    pattern's dot does not match). *)
Theorem shuffle_id_time_bit (root : string) (i t : nat) :
  "010"%char ∉ String.list_ascii_of_string root →
  shuffle_id_time (bit_name root i +:+ "##time_" +:+ pretty t)
  = Ok (bit_name (root +:+ "##time_" +:+ pretty t) i).
Proof. intros _. apply shuffle_bit_name. Qed.

Lemma shuffle_id_time_bit_witness :
  shuffle_id_time (bit_name "x" 3 +:+ "##time_" +:+ pretty 10%nat)
  = Ok (bit_name ("x" +:+ "##time_" +:+ pretty 10%nat) 3).
Proof. apply (shuffle_id_time_bit "x" 3 10). compute_done. Defined.

(** ** Names without an index *)

Lemma head_reverse_last_char (s : string) (c : ascii) (cs : list ascii) :
  reverse (String.list_ascii_of_string s) = c :: cs → aigerbv.last_char s = c.
Proof.
  revert c cs. induction s as [|a s IH]; intros c cs H; [done|].
  cbn [String.list_ascii_of_string] in H. rewrite reverse_cons in H.
  destruct s as [|b s'].
  - cbn in H. by simplify_eq.
  - change (aigerbv.last_char (String a (String b s')))
      with (aigerbv.last_char (String b s')).
    destruct (reverse (String.list_ascii_of_string (String b s')))
      as [|c' cs'] eqn:E.
    + apply (f_equal length) in E. rewrite length_reverse in E. done.
    + cbn in H. simplify_eq. by eapply IH.
Qed.

Lemma unpack_name_unindexed (name : string) :
  aigerbv.last_char name ≠ "]"%char → unpack_name name = Raise AttributeError.
Proof.
  intros Hlast. unfold unpack_name.
  destruct (reverse (String.list_ascii_of_string name)) as [|c cs] eqn:E;
    [done|].
  apply head_reverse_last_char in E. subst c.
  destruct (aigerbv.last_char name) as [[] [] [] [] [] [] [] []]; try done.
Qed.

Lemma unpack_name_exn (name : string) (e : exn) :
  unpack_name name = Raise e → e = AttributeError.
Proof.
  unfold unpack_name. intros H.
  repeat (match type of H with
          | context [match ?x with _ => _ end] => destruct x
          end; try congruence).
Qed.

Lemma mapR_raise_elem {A B} (f : A → result B) (l : list A) (a : A) (e : exn) :
  (∀ x e', f x = Raise e' → e' = e) → a ∈ l → f a = Raise e →
  mapR f l = Raise e.
Proof.
  intros Hexn Ha Hfa. induction l as [|x l IH]; [by apply elem_of_nil in Ha|].
  cbn [mapR]. destruct (f x) as [b|e'] eqn:Hx; cbn [bind].
  - apply elem_of_cons in Ha as [->|Ha]; [congruence|].
    by rewrite IH.
  - f_equal. by eapply Hexn.
Qed.

(** A bit-level circuit with an input name that does not end with an
    index cannot be rebundled: [rebundle_names], and [rebundle_aig]
    with it, raise [AttributeError] when the pattern finds no match
    (the name ends neither with a bracket nor with a line break, before
    which the pattern's end also matches). *)
Theorem rebundle_unindexed_name (a : aiger.AIG) (name : string) :
  name ∈ aiger.inputs a →
  aigerbv.last_char name ≠ "]"%char ∧ aigerbv.last_char name ≠ "010"%char →
  rebundle_names (aiger.inputs a) = Raise AttributeError
  ∧ rebundle_aig a = Raise AttributeError.
Proof.
  intros Hin [Hlast _].
  assert (rebundle_names (aiger.inputs a) = Raise AttributeError) as H.
  { unfold rebundle_names.
    rewrite (mapR_raise_elem unpack_name _ name AttributeError); [done|..].
    - intros x e'. apply unpack_name_exn.
    - by apply elem_of_elements.
    - by apply unpack_name_unindexed. }
  split; [done|]. unfold rebundle_aig. by rewrite H.
Qed.

Lemma rebundle_unindexed_name_witness :
  rebundle_names (aiger.inputs (aiger.sink ["a"%string])) = Raise AttributeError
  ∧ rebundle_aig (aiger.sink ["a"%string]) = Raise AttributeError.
Proof.
  apply (rebundle_unindexed_name (aiger.sink ["a"%string]) "a");
    [compute_done|split; compute_done].
Defined.

(** ** Feedback over unknown names *)

Lemma lmapcat_get_known (bmap : BundleMap) (vals : list string) :
  (∀ n, n ∈ vals → n ∈ dom bmap) →
  ∃ bits, lmapcat_get bmap vals = Ok bits.
Proof.
  intros H. unfold lmapcat_get.
  rewrite (mapR_fmap _ (λ n, bundle n (default 0%nat (bmap !! n)))).
  - by eexists.
  - intros n [size Hn]%H%elem_of_dom. by rewrite Hn.
Qed.

(** [feedback] needs every input it is given: the first input that the
    circuit does not have raises [KeyError] when its size is looked up,
    and no circuit is returned. *)
Theorem feedback_unknown_input (self : AIGBV) (known rest outputs : list string)
    (initials : option (list (option (list bool)))) (keep_outputs : bool)
    (i : string) :
  (∀ n, n ∈ known → n ∈ dom (imap self)) → i ∉ dom (imap self) →
  feedback self (known ++ i :: rest) outputs initials None keep_outputs
  = Raise (KeyError i).
Proof.
  intros Hknown Hi. unfold feedback. cbn [default].
  assert (mapR (λ '(i0, l), s <-- bm_getitem (imap self) i0; Ok (l, s))
               (zip (known ++ i :: rest) (known ++ i :: rest))
          = Raise (KeyError i)) as ->; [|done].
  induction known as [|k known IH]; cbn [app zip zip_with mapR].
  - unfold bm_getitem, getitem. by rewrite (not_elem_of_dom_1 _ _ Hi).
  - pose proof (Hknown k ltac:(left)) as [size Hk]%elem_of_dom.
    unfold bm_getitem in *. unfold getitem at 1. rewrite Hk. cbn [bind].
    rewrite IH; [done|].
    intros n Hn. apply Hknown. by right.
Qed.

Lemma feedback_unknown_input_witness :
  feedback (bitwise_negate 2 "x" "y") ([] ++ "z"%string :: []) ["y"%string]
    None None false
  = Raise (KeyError "z").
Proof.
  apply (feedback_unknown_input (bitwise_negate 2 "x" "y") [] [] ["y"%string]
           None false "z").
  - by intros n ?%elem_of_nil.
  - compute_done.
Defined.

(** [feedback] needs every output it is given: when the inputs are all
    inputs of the circuit and some output is not one of its outputs,
    the call raises [TypeError] (the lookup with [get] gives [None],
    which cannot be concatenated) and returns no circuit. *)
Theorem feedback_unknown_output (self : AIGBV) (inputs outputs : list string)
    (initials : option (list (option (list bool)))) (keep_outputs : bool)
    (o : string) :
  (∀ n, n ∈ inputs → n ∈ dom (imap self)) →
  o ∈ outputs → o ∉ dom (omap self) →
  feedback self inputs outputs initials None keep_outputs = Raise TypeError.
Proof.
  intros Hknown Ho Hout. unfold feedback. cbn [default].
  rewrite (mapR_fmap _ (λ il, (il.2, default 0%nat (imap self !! il.1)))).
  2:{ intros [i l] Hil. apply elem_of_zip_l in Hil.
      pose proof (Hknown i Hil) as [size Hi]%elem_of_dom.
      unfold bm_getitem, getitem. cbn [fst snd]. by rewrite Hi. }
  cbn [bind]. destruct (lmapcat_get_known (imap self) inputs Hknown) as [bits ->].
  cbn [bind]. unfold lmapcat_get at 1.
  rewrite (mapR_raise_elem _ outputs o TypeError); [done| |done|].
  - intros x e'. destruct (omap self !! x); congruence.
  - by rewrite (not_elem_of_dom_1 _ _ Hout).
Qed.

Lemma feedback_unknown_output_witness :
  feedback (bitwise_negate 2 "x" "y") ["x"%string] ["z"%string] None None false
  = Raise TypeError.
Proof.
  apply (feedback_unknown_output (bitwise_negate 2 "x" "y") ["x"%string]
           ["z"%string] None false "z").
  - intros n ->%list_elem_of_singleton. compute_done.
  - compute_done.
  - compute_done.
Defined.

(** ** src/aigerbv: gates *)
Section gates.
Import aigerbv.

Lemma zip3_named (n : nat) (left right output : string) :
  zip3 (_named_indexes n left) (_named_indexes n right)
       (_named_indexes n output)
  = (λ i, (bit_name left i, bit_name right i, bit_name output i)) <$> seq 0 n.
Proof.
  unfold zip3. induction n as [|n IH]; [done|].
  rewrite !named_indexes_S, seq_S, fmap_app.
  rewrite (zip_with_app pair (_named_indexes n left))
    by by rewrite !named_indexes_length.
  rewrite zip_with_app
    by (rewrite length_zip_with, !named_indexes_length; lia).
  by rewrite IH.
Qed.

Lemma gate_eval (ins outs : list string) (f : list bool → list bool)
    (v l : gmap string bool) (bits : list bool) :
  Forall2 (λ n b, v !! n = Some b) ins bits →
  aiger.step (aiger.gate ins outs f) v l
  = Some (list_to_map (zip outs (f bits)), ∅).
Proof.
  intros H. cbn [aiger.gate aiger.step].
  by rewrite (mapM_Some_2 _ _ _ H).
Qed.

Lemma bitwise_binop_S (binop : list string → string → aiger.AIG)
    (k : nat) (left right output : string) :
  bitwise_binop binop (S k) left right output
  = Ok {| aig := binop_chain binop left right output k;
          input_map := {[ (left, _named_indexes (S k) left);
                          (right, _named_indexes (S k) right) ]};
          output_map := {[ (output, _named_indexes (S k) output) ]};
          latch_map := ∅ |}.
Proof.
  unfold bitwise_binop. rewrite zip3_named.
  cbn [seq fmap list_fmap reduce_or bind]. unfold binop_chain.
  by rewrite <- list_fmap_compose.
Qed.

Lemma binop_chain_S (binop : list string → string → aiger.AIG)
    (k : nat) (left right output : string) :
  binop_chain binop left right output (S k)
  = aiger.par_compose (binop_chain binop left right output k)
      (binop [bit_name left (S k); bit_name right (S k)]
             (bit_name output (S k))).
Proof.
  unfold binop_chain. rewrite seq_S, fmap_app. cbn [fmap list_fmap].
  by rewrite foldl_snoc.
Qed.
End gates.

Section binop_chain.
Import aigerbv.
Variables (binop : list string → string → aiger.AIG) (F : list bool → bool).
Hypothesis Hbinop : ∀ ins out,
  binop ins out = aiger.gate ins [out] (λ bits, [F bits]).
Variables (left right output : string) (x y : nat → bool).
Variables (v l : gmap string bool) (n : nat).
Hypothesis Hl : ∀ i : nat, (i < n)%nat → v !! bit_name left i = Some (x i).
Hypothesis Hr : ∀ i : nat, (i < n)%nat → v !! bit_name right i = Some (y i).

Lemma binop_chain_outputs (k : nat) :
  aiger.outputs (binop_chain binop left right output k)
  = list_to_set (_named_indexes (S k) output).
Proof using Hbinop.
  clear Hl Hr. induction k as [|k IH].
  - unfold binop_chain. cbn [seq fmap list_fmap foldl]. by rewrite Hbinop.
  - rewrite binop_chain_S. cbn [aiger.par_compose aiger.outputs].
    rewrite IH, (named_indexes_S (S k)), list_to_set_app_L, Hbinop. done.
Qed.

Lemma binop_gate_eval (i : nat) :
  (i < n)%nat →
  aiger.step (binop [bit_name left i; bit_name right i] (bit_name output i)) v l
  = Some ({[ bit_name output i := F [x i; y i] ]}, ∅).
Proof using Hbinop Hl Hr.
  intros Hi. rewrite Hbinop.
  rewrite (gate_eval _ _ _ _ _ [x i; y i]); [done|].
  repeat constructor; auto.
Qed.

Lemma binop_chain_eval (k : nat) :
  (k < n)%nat →
  ∃ m l' : gmap string bool,
    aiger.step (binop_chain binop left right output k) v l = Some (m, l')
    ∧ (∀ j : nat, (j ≤ k)%nat →
         m !! bit_name output j = Some (F [x j; y j]))
    ∧ (∀ j : nat, (k < j)%nat → m !! bit_name output j = None).
Proof using Hbinop Hl Hr.
  induction k as [|k IH]; intros Hk.
  - unfold binop_chain. cbn [seq fmap list_fmap foldl].
    rewrite binop_gate_eval by done. eexists _, _. split; [done|]. split.
    + intros j Hj. assert (j = 0%nat) as -> by lia.
      by rewrite lookup_singleton_eq.
    + intros j Hj. apply lookup_singleton_ne. intros H.
      apply bit_name_inj in H. lia.
  - destruct IH as (m & l' & Hev & Hin & Hout); [lia|].
    rewrite binop_chain_S. cbn [aiger.par_compose aiger.step].
    rewrite Hev, binop_gate_eval by done. cbn [mbind option_bind fst snd].
    eexists _, _. split; [done|]. split.
    + intros j Hj. destruct (decide (j = S k)) as [->|Hne].
      * rewrite lookup_union_r by (apply Hout; lia).
        by rewrite lookup_singleton_eq.
      * apply lookup_union_Some_l, Hin. lia.
    + intros j Hj. apply lookup_union_None. split; [apply Hout; lia|].
      apply lookup_singleton_ne. intros H. apply bit_name_inj in H. lia.
Qed.
End binop_chain.

Section words.
Import aigerbv.

Lemma blast_pair (n : nat) (left right : string) (a b : Z) :
  left ≠ right →
  ∃ v : gmap string bool,
    _blast {[ left := bits_of n a; right := bits_of n b ]}
           {[ (left, _named_indexes n left); (right, _named_indexes n right) ]}
    = Ok (Some v)
    ∧ (∀ i : nat, (i < n)%nat →
         v !! bit_name left i = Some (Z.testbit a (Z.of_nat i)))
    ∧ (∀ i : nat, (i < n)%nat →
         v !! bit_name right i = Some (Z.testbit b (Z.of_nat i))).
Proof.
  intros Hlr.
  set (vals := ({[ left := bits_of n a; right := bits_of n b ]}
                : gmap string (list bool))).
  set (imap := ({[ (left, _named_indexes n left);
                   (right, _named_indexes n right) ]} : BV_MAP)).
  destruct (blast_spec vals imap) as (v & Hv & Hlook).
  { unfold imap. set_solver. }
  { intros kv Hkv. unfold imap in Hkv.
    apply elem_of_union in Hkv as [->%elem_of_singleton | ->%elem_of_singleton];
      unfold vals; cbn [fst].
    - by rewrite lookup_insert_eq.
    - by rewrite lookup_insert_ne, lookup_singleton_eq. }
  exists v. split; [done|]. split; intros i Hi.
  - apply (Hlook left (_named_indexes n left) (bits_of n a)).
    + unfold imap. set_solver.
    + unfold vals. by rewrite lookup_insert_eq.
    + apply NoDup_named_indexes.
    + by apply zip_named_bits.
    + intros kv Hkv Hin. unfold imap in Hkv.
      apply elem_of_union in Hkv as [->%elem_of_singleton | ->%elem_of_singleton];
        [done|].
      apply elem_of_named_indexes in Hin as (j & _ & Hin).
      apply bit_name_inj2 in Hin as [? _]. done.
  - apply (Hlook right (_named_indexes n right) (bits_of n b)).
    + unfold imap. set_solver.
    + unfold vals. by rewrite lookup_insert_ne, lookup_singleton_eq.
    + apply NoDup_named_indexes.
    + by apply zip_named_bits.
    + intros kv Hkv Hin. unfold imap in Hkv.
      apply elem_of_union in Hkv as [->%elem_of_singleton | ->%elem_of_singleton];
        [|done].
      apply elem_of_named_indexes in Hin as (j & _ & Hin).
      apply bit_name_inj2 in Hin as [? _]. done.
Qed.

Lemma blast_single (n : nat) (input : string) (a : Z) :
  ∃ v : gmap string bool,
    _blast {[ input := bits_of n a ]} {[ (input, _named_indexes n input) ]}
    = Ok (Some v)
    ∧ (∀ i : nat, (i < n)%nat →
         v !! bit_name input i = Some (Z.testbit a (Z.of_nat i))).
Proof.
  set (vals := ({[ input := bits_of n a ]} : gmap string (list bool))).
  set (imap := ({[ (input, _named_indexes n input) ]} : BV_MAP)).
  destruct (blast_spec vals imap) as (v & Hv & Hlook).
  { unfold imap. set_solver. }
  { intros kv ->%elem_of_singleton. unfold vals. cbn [fst].
    by rewrite lookup_singleton_eq. }
  exists v. split; [done|]. intros i Hi.
  apply (Hlook input (_named_indexes n input) (bits_of n a)).
  - unfold imap. set_solver.
  - unfold vals. by rewrite lookup_singleton_eq.
  - apply NoDup_named_indexes.
  - by apply zip_named_bits.
  - by intros kv ->%elem_of_singleton _.
Qed.

Lemma unblast_single (out : gmap string bool) (output : string)
    (names : list string) (bits : list bool) :
  _collect out names = Ok bits →
  unblast_with_collect out {[ (output, names) ]} = Ok {[ output := bits ]}.
Proof.
  intros H. unfold unblast_with_collect. rewrite elements_singleton.
  cbn [mapR bind]. rewrite H. done.
Qed.

Lemma run_single_output (c : AIGBV) (vals : gmap string (list bool))
    (v out l' : gmap string bool) (output : string) (n : nat) (z : Z) :
  _blast vals (input_map c) = Ok (Some v) →
  aiger.latch2init (aig c) = ∅ →
  aiger.step (aig c) v ∅ = Some (out, l') →
  output_map c = {[ (output, _named_indexes n output) ]} →
  (∀ j : nat, (j < n)%nat →
     out !! bit_name output j = Some (Z.testbit z (Z.of_nat j))) →
  run c vals = Some {[ output := bits_of n z ]}.
Proof.
  intros Hv Hlat Hev Ho Hout. unfold run. rewrite Hv.
  unfold aiger.eval, aiger.call. cbn [default].
  rewrite Hlat, (left_id_L ∅ (∪)), Hev. cbn [fmap option_fmap option_map fst mbind option_bind].
  rewrite Ho. by rewrite (unblast_single _ _ _ _ (collect_named n output out z Hout)).
Qed.
End words.

Section bitwise.
Import aigerbv.

Lemma binop_chain_latches (binop : list string → string → aiger.AIG)
    (F : list bool → bool) (left right output : string) (k : nat) :
  (∀ ins out, binop ins out = aiger.gate ins [out] (λ bits, [F bits])) →
  aiger.latch2init (binop_chain binop left right output k) = ∅.
Proof.
  intros Hb. induction k as [|k IH].
  - unfold binop_chain. cbn [seq fmap list_fmap foldl]. by rewrite Hb.
  - rewrite binop_chain_S. cbn [aiger.par_compose aiger.latch2init].
    rewrite IH, Hb. cbn. by rewrite (left_id_L ∅ (∪)).
Qed.

Lemma bitwise_binop_run (binop : list string → string → aiger.AIG)
    (F : list bool → bool) (f : Z → Z → Z)
    (n : nat) (left right output : string) (a b : Z) :
  (∀ ins out, binop ins out = aiger.gate ins [out] (λ bits, [F bits])) →
  (∀ i, F [Z.testbit a i; Z.testbit b i] = Z.testbit (f a b) i) →
  left ≠ right → (0 < n)%nat →
  ∃ c : AIGBV,
    bitwise_binop binop n left right output = Ok c
    ∧ input_map c = {[ (left, _named_indexes n left);
                       (right, _named_indexes n right) ]}
    ∧ output_map c = {[ (output, _named_indexes n output) ]}
    ∧ latch_map c = ∅
    ∧ aiger.outputs (aig c) = list_to_set (_named_indexes n output)
    ∧ aiger.latch2init (aig c) = ∅
    ∧ (∀ v l : gmap string bool,
         (∀ i : nat, (i < n)%nat →
            v !! bit_name left i = Some (Z.testbit a (Z.of_nat i))) →
         (∀ i : nat, (i < n)%nat →
            v !! bit_name right i = Some (Z.testbit b (Z.of_nat i))) →
         ∃ m l' : gmap string bool,
           aiger.step (aig c) v l = Some (m, l')
           ∧ ∀ j : nat, (j < n)%nat →
               m !! bit_name output j = Some (Z.testbit (f a b) (Z.of_nat j))).
Proof.
  intros Hb HF Hlr Hn. destruct n as [|k]; [lia|].
  rewrite bitwise_binop_S. eexists. split; [done|]. cbn [input_map output_map latch_map aig].
  split_and!; try done.
  - by apply binop_chain_outputs with (F := F).
  - by apply binop_chain_latches with (F := F).
  - intros v l Hl Hr.
    destruct (binop_chain_eval binop F Hb left right output
                (λ i, Z.testbit a (Z.of_nat i)) (λ i, Z.testbit b (Z.of_nat i))
                v l (S k) Hl Hr k) as (m & l' & Hev & Hin & _); [lia|].
    exists m, l'. split; [done|]. intros j Hj.
    rewrite Hin by lia. by rewrite HF.
Qed.
End bitwise.

Section bitwise_gates.
Import aigerbv.

Lemma bitwise_binop_word (binop : list string → string → aiger.AIG)
    (F : list bool → bool) (f : Z → Z → Z)
    (n : nat) (left right output : string) (a b : Z) :
  (∀ ins out, binop ins out = aiger.gate ins [out] (λ bits, [F bits])) →
  (∀ i, F [Z.testbit a i; Z.testbit b i] = Z.testbit (f a b) i) →
  left ≠ right → (0 < n)%nat →
  ∃ c : AIGBV,
    bitwise_binop binop n left right output = Ok c
    ∧ run c {[ left := bits_of n a; right := bits_of n b ]}
      = Some {[ output := bits_of n (f a b) ]}.
Proof.
  intros Hb HF Hlr Hn.
  destruct (bitwise_binop_run binop F f n left right output a b Hb HF Hlr Hn)
    as (c & Hc & Hi & Ho & _ & _ & Hlat & Hev).
  destruct (blast_pair n left right a b Hlr) as (v & Hv & Hvl & Hvr).
  destruct (Hev v ∅ Hvl Hvr) as (m & l' & Hstep & Hm).
  exists c. split; [done|].
  apply (run_single_output c _ v m l' output n (f a b)); try done.
  by rewrite Hi.
Qed.

(** The bitwise gates compute bit by bit: on two words of [n ≥ 1] bits
    named differently, [bitwise_and], [bitwise_or] and [bitwise_xor]
    return a circuit whose output word is the conjunction, the
    disjunction and the exclusive or of the input words. *)
Theorem bitwise_gates_correct (n : nat) (left right output : string) (a b : Z) :
  left ≠ right → (0 < n)%nat →
  let vals : gmap string (list bool) :=
    {[ left := bits_of n a; right := bits_of n b ]} in
  (∃ c, bitwise_and n left right output = Ok c
        ∧ run c vals = Some {[ output := bits_of n (Z.land a b) ]})
  ∧ (∃ c, bitwise_or n left right output = Ok c
          ∧ run c vals = Some {[ output := bits_of n (Z.lor a b) ]})
  ∧ (∃ c, bitwise_xor n left right output = Ok c
          ∧ run c vals = Some {[ output := bits_of n (Z.lxor a b) ]}).
Proof.
  intros Hlr Hn vals. split_and!.
  - apply (bitwise_binop_word _ (λ bits, foldr andb true bits)); try done.
    intros i. cbn. by rewrite Z.land_spec, andb_true_r.
  - apply (bitwise_binop_word _ (λ bits, foldr orb false bits)); try done.
    intros i. cbn. by rewrite Z.lor_spec, orb_false_r.
  - apply (bitwise_binop_word _ (λ bits, foldr xorb false bits)); try done.
    intros i. cbn. by rewrite Z.lxor_spec, xorb_false_r.
Qed.

Lemma bitwise_gates_correct_witness :
  let vals : gmap string (list bool) :=
    {[ "x"%string := bits_of 4 12; "y"%string := bits_of 4 10 ]} in
  (∃ c, bitwise_and 4 "x" "y" "x&y" = Ok c
        ∧ run c vals = Some {[ "x&y"%string := bits_of 4 (Z.land 12 10) ]})
  ∧ (∃ c, bitwise_or 4 "x" "y" "x&y" = Ok c
          ∧ run c vals = Some {[ "x&y"%string := bits_of 4 (Z.lor 12 10) ]})
  ∧ (∃ c, bitwise_xor 4 "x" "y" "x&y" = Ok c
          ∧ run c vals = Some {[ "x&y"%string := bits_of 4 (Z.lxor 12 10) ]}).
Proof. apply (bitwise_gates_correct 4 "x" "y" "x&y" 12 10); [done|lia]. Defined.

(** Of words of no bit the bitwise gates build nothing: the fold over
    the bit positions has no first circuit and raises [TypeError], and
    so do [neq_gate] and [eq_gate], which start from [bitwise_xor]. *)
Theorem bitwise_gates_empty_word (left right output : string) :
  bitwise_and 0 left right output = Raise TypeError
  ∧ bitwise_or 0 left right output = Raise TypeError
  ∧ bitwise_xor 0 left right output = Raise TypeError
  ∧ neq_gate 0 left right output = Raise TypeError
  ∧ eq_gate 0 left right output = Raise TypeError.
Proof. by split_and!. Qed.
End bitwise_gates.

Section reductions.
Import aigerbv.

Lemma named_bits_Forall2 (n : nat) (root : string) (m : gmap string bool) (z : Z) :
  (∀ j : nat, (j < n)%nat →
     m !! bit_name root j = Some (Z.testbit z (Z.of_nat j))) →
  Forall2 (λ s b, m !! s = Some b) (_named_indexes n root) (bits_of n z).
Proof.
  intros Hm. rewrite named_indexes_fmap. unfold bits_of.
  apply Forall2_fmap, Forall_Forall2_diag, Forall_forall.
  intros i Hi%elem_of_seq. apply Hm. lia.
Qed.

Lemma or_bits (bs : list bool) :
  foldr orb false bs = negb (int_of bs =? 0).
Proof.
  assert (Hpos : ∀ l, 0 ≤ int_of l).
  { induction l as [|[] l IH]; cbn [int_of Z.b2z]; lia. }
  induction bs as [|b bs IH]; [done|]. cbn [foldr int_of]. rewrite IH.
  pose proof (Hpos bs). destruct b; cbn [Z.b2z orb].
  - symmetry. apply negb_true_iff, Z.eqb_neq. lia.
  - f_equal. destruct (Z.eqb_spec (int_of bs) 0), (Z.eqb_spec (0 + 2 * int_of bs) 0);
      (done || lia).
Qed.

Lemma or_bits_of (n : nat) (z : Z) :
  0 ≤ z < 2 ^ Z.of_nat n →
  foldr orb false (bits_of n z) = negb (z =? 0).
Proof.
  intros Hz. by rewrite or_bits, int_of_bits_of, Z.mod_small.
Qed.

Lemma seq_gate_eval (a : aiger.AIG) (ins outs : list string)
    (f : list bool → list bool) (v l ma la : gmap string bool)
    (bits : list bool) :
  aiger.step a v l = Some (ma, la) →
  Forall2 (λ s b, ma !! s = Some b) ins bits →
  (∀ s, s ∈ ins → s ∈ aiger.outputs a) →
  ∃ m l' : gmap string bool,
    aiger.step (aiger.seq_compose a (aiger.gate ins outs f)) v l = Some (m, l')
    ∧ ∀ s x, (s, x) ∈ zip outs (f bits) → NoDup outs → m !! s = Some x.
Proof.
  intros Hev Hbits Hins. cbn [aiger.seq_compose aiger.step aiger.gate aiger.inputs].
  rewrite Hev. cbn [mbind option_bind fst snd].
  rewrite (mapM_Some_2 _ _ bits).
  - cbn [mbind option_bind fst snd]. eexists _, _. split; [done|].
    intros s x Hsx Hnd. apply lookup_union_Some_l.
    apply elem_of_list_to_map_1; [|done].
    apply NoDup_fmap_fst; [|by apply NoDup_zip_l].
    intros k y1 y2 H1 H2.
    apply list_elem_of_lookup in H1 as (i & Hi).
    apply list_elem_of_lookup in H2 as (j & Hj).
    apply lookup_zip_with_Some in Hi as (? & ? & ? & Hi1 & Hi2).
    apply lookup_zip_with_Some in Hj as (? & ? & ? & Hj1 & Hj2).
    simplify_eq. assert (i = j) as -> by by eapply NoDup_lookup. congruence.
  - assert (HI : ∀ s, s ∈ ins →
      s ∈ aiger.outputs a ∩ (list_to_set ins : gset string)).
    { intros s Hs. apply elem_of_intersection. split; [by apply Hins|].
      by apply elem_of_list_to_set. }
    generalize dependent (aiger.outputs a ∩ (list_to_set ins : gset string)).
    intros I HI. clear Hins. induction Hbits as [|s b ins' bits' Hs _ IH];
      constructor.
    + apply lookup_union_Some_l. rewrite restrict_lookup_in; [done|].
      apply HI. left.
    + apply IH. intros s' Hs'. apply HI. by right.
Qed.
End reductions.

Section comparisons.
Import aigerbv.

Lemma names_of_singleton (w : string) (bits : list string) :
  names_of {[ (w, bits) ]} = {[ w ]}.
Proof. unfold names_of. by rewrite set_map_singleton_L. Qed.

Lemma rshift_into_unary (A B : AIGBV) (w o : string) (wa wb ob : list string) :
  output_map A = {[ (w, wa) ]} → latch_map A = ∅ →
  input_map B = {[ (w, wb) ]} → output_map B = {[ (o, ob) ]} →
  latch_map B = ∅ →
  rshift A B = Ok {| aig := aiger.seq_compose (aig A) (aig B);
                     input_map := input_map A;
                     output_map := {[ (o, ob) ]};
                     latch_map := ∅ |}.
Proof.
  intros HoA HlA HiB HoB HlB. unfold rshift, latches, outputs, inputs, is_empty.
  rewrite HoA, HlA, HiB, HoB, HlB, !names_of_singleton.
  rewrite !bool_decide_eq_true_2 by set_solver. cbn [assert bind].
  f_equal. f_equal.
  - apply set_eq. intros kv. rewrite elem_of_union, elem_of_filter.
    set_solver.
  - apply set_eq. intros kv. rewrite elem_of_union, elem_of_filter.
    set_solver.
Qed.

Lemma run_single_bit (c : AIGBV) (vals : gmap string (list bool))
    (v out l' : gmap string bool) (output : string) (x : bool) :
  _blast vals (input_map c) = Ok (Some v) →
  aiger.latch2init (aig c) = ∅ →
  aiger.step (aig c) v ∅ = Some (out, l') →
  output_map c = {[ (output, _named_indexes 1 output) ]} →
  out !! bit_name output 0 = Some x →
  run c vals = Some {[ output := [x] ]}.
Proof.
  intros Hv Hlat Hev Ho Hout. unfold run. rewrite Hv.
  unfold aiger.eval, aiger.call. cbn [default].
  rewrite Hlat, (left_id_L ∅ (∪)), Hev.
  cbn [fmap option_fmap option_map fst mbind option_bind].
  rewrite Ho. rewrite (unblast_single _ _ _ [x]); [done|].
  unfold _collect, getitem. cbn [_named_indexes seq fmap list_fmap mapR].
  fold (bit_name output 0). by rewrite Hout.
Qed.

Lemma is_nonzero_step (n : nat) (input output : string) (a : Z)
    (v l : gmap string bool) :
  0 ≤ a < 2 ^ Z.of_nat n →
  (∀ i : nat, (i < n)%nat →
     v !! bit_name input i = Some (Z.testbit a (Z.of_nat i))) →
  aiger.step (aig (is_nonzero_gate n input output)) v l
  = Some ({[ bit_name output 0 := negb (a =? 0) ]}, ∅).
Proof.
  intros Ha Hv. unfold is_nonzero_gate, aiger.or_gate. cbn [aig].
  rewrite (gate_eval _ _ _ _ _ (bits_of n a)) by by apply named_bits_Forall2.
  by rewrite or_bits_of.
Qed.

Lemma flip_after (a : aiger.AIG) (w o : string) (v l ma la : gmap string bool)
    (x : bool) :
  aiger.step a v l = Some (ma, la) →
  ma !! bit_name w 0 = Some x →
  bit_name w 0 ∈ aiger.outputs a →
  ∃ m l' : gmap string bool,
    aiger.step (aiger.seq_compose a (aig (bitwise_negate 1 w o))) v l
    = Some (m, l')
    ∧ m !! bit_name o 0 = Some (negb x).
Proof.
  intros Hev Hx Hin.
  destruct (seq_gate_eval a [bit_name w 0] [bit_name o 0] (fmap negb)
              v l ma la [x] Hev) as (m & l' & Hstep & Hm).
  { by repeat constructor. }
  { by intros s ->%list_elem_of_singleton. }
  exists m, l'. split; [exact Hstep|].
  apply Hm; [left|]. apply NoDup_singleton.
Qed.

(** [is_nonzero_gate] tells whether a word has a bit set, and
    [is_zero_gate], which negates it, whether it has none: on the
    [n ≥ 1] bits of [a] the first returns the one-bit word [a ≠ 0], the
    second the one-bit word [a = 0]. *)
Theorem zero_tests_correct (n : nat) (input output : string) (a : Z) :
  (0 < n)%nat → 0 ≤ a < 2 ^ Z.of_nat n →
  let vals : gmap string (list bool) := {[ input := bits_of n a ]} in
  run (is_nonzero_gate n input output) vals
    = Some {[ output := [negb (a =? 0)] ]}
  ∧ ∃ c, is_zero_gate n input output = Ok c
         ∧ run c vals = Some {[ output := [a =? 0] ]}.
Proof.
  intros Hn Ha vals.
  destruct (blast_single n input a) as (v & Hv & Hbits).
  split.
  - eapply (run_single_bit _ vals v); [exact Hv|done| |done|].
    + by apply is_nonzero_step.
    + by rewrite lookup_singleton_eq.
  - unfold is_zero_gate.
    erewrite rshift_into_unary; [|done..].
    eexists. split; [done|].
    destruct (flip_after (aig (is_nonzero_gate n input (input +:+ "out")))
                (input +:+ "out") output v ∅ _ _ (negb (a =? 0))
                (is_nonzero_step n input _ a v ∅ Ha Hbits))
      as (m & l' & Hstep & Hm).
    { by rewrite lookup_singleton_eq. }
    { cbn. set_solver. }
    rewrite negb_involutive in Hm.
    by eapply (run_single_bit _ vals v m l').
Qed.

Lemma zero_tests_correct_witness :
  let vals : gmap string (list bool) := {[ "x"%string := bits_of 3 0 ]} in
  run (is_nonzero_gate 3 "x" "is_nonzero") vals
    = Some {[ "is_nonzero"%string := [negb (0 =? 0)] ]}
  ∧ ∃ c, is_zero_gate 3 "x" "is_nonzero" = Ok c
         ∧ run c vals = Some {[ "is_nonzero"%string := [0 =? 0] ]}.
Proof. apply (zero_tests_correct 3 "x" "is_nonzero" 0); [lia|simpl; lia]. Defined.

Lemma lxor_range (n : nat) (a b : Z) :
  0 ≤ a < 2 ^ Z.of_nat n → 0 ≤ b < 2 ^ Z.of_nat n →
  0 ≤ Z.lxor a b < 2 ^ Z.of_nat n.
Proof.
  intros Ha Hb. assert (0 ≤ Z.lxor a b) as H0 by (apply Z.lxor_nonneg; lia).
  split; [done|].
  destruct (decide (Z.lxor a b = 0)) as [->|Hne]; [lia|].
  apply Z.log2_lt_pow2; [lia|].
  pose proof (Z.log2_lxor a b ltac:(lia) ltac:(lia)) as Hlog.
  assert (0 < Z.of_nat n) as Hn.
  { destruct n; [|lia]. cbn in Ha, Hb.
    assert (a = 0 ∧ b = 0) as [-> ->] by lia. done. }
  assert (∀ z, 0 ≤ z < 2 ^ Z.of_nat n → Z.log2 z < Z.of_nat n) as Hlt.
  { intros z Hz. destruct (decide (z = 0)) as [->|?]; [done|].
    apply Z.log2_lt_pow2; lia. }
  pose proof (Hlt a Ha). pose proof (Hlt b Hb). lia.
Qed.

Lemma neq_gate_run (n : nat) (left right output : string) (a b : Z) :
  left ≠ right → (0 < n)%nat →
  0 ≤ a < 2 ^ Z.of_nat n → 0 ≤ b < 2 ^ Z.of_nat n →
  ∃ c : AIGBV,
    neq_gate n left right output = Ok c
    ∧ input_map c = {[ (left, _named_indexes n left);
                       (right, _named_indexes n right) ]}
    ∧ output_map c = {[ (output, _named_indexes 1 output) ]}
    ∧ latch_map c = ∅
    ∧ bit_name output 0 ∈ aiger.outputs (aig c)
    ∧ aiger.latch2init (aig c) = ∅
    ∧ (∀ v l : gmap string bool,
         (∀ i : nat, (i < n)%nat →
            v !! bit_name left i = Some (Z.testbit a (Z.of_nat i))) →
         (∀ i : nat, (i < n)%nat →
            v !! bit_name right i = Some (Z.testbit b (Z.of_nat i))) →
         ∃ m l' : gmap string bool,
           aiger.step (aig c) v l = Some (m, l')
           ∧ m !! bit_name output 0 = Some (negb (a =? b))).
Proof.
  intros Hlr Hn Ha Hb. unfold neq_gate, bitwise_xor.
  destruct (bitwise_binop_run aiger.parity_gate (λ bits, foldr xorb false bits)
              Z.lxor n left right (left +:+ right) a b)
    as (x & -> & Hxi & Hxo & Hxl & Hxouts & Hxlat & Hxev); [done| |done|done|].
  { intros i. cbn. by rewrite Z.lxor_spec, xorb_false_r. }
  cbn [bind]. erewrite rshift_into_unary; [|done..].
  eexists. split; [done|]. cbn [input_map output_map latch_map aig].
  split_and!; [done|done|done| | |].
  - cbn. set_solver.
  - cbn. rewrite Hxlat. by rewrite (left_id_L ∅ (∪)).
  - intros v l Hl Hr. destruct (Hxev v l Hl Hr) as (mx & lx & Hstep & Hmx).
    destruct (seq_gate_eval (aig x) (_named_indexes n (left +:+ right))
                [bit_name output 0] (λ bits, [foldr orb false bits])
                v l mx lx (bits_of n (Z.lxor a b)) Hstep)
      as (m & l' & Hstep' & Hm).
    { by apply named_bits_Forall2. }
    { intros s Hs. rewrite Hxouts. by apply elem_of_list_to_set. }
    exists m, l'. split; [exact Hstep'|].
    rewrite (Hm (bit_name output 0) (negb (a =? b))); [done| |apply NoDup_singleton].
    rewrite or_bits_of by by apply lxor_range.
    assert ((Z.lxor a b =? 0) = (a =? b)) as ->.
    { destruct (Z.eqb_spec a b) as [->|Hne].
      - by rewrite Z.lxor_nilpotent.
      - apply Z.eqb_neq. by intros H%Z.lxor_eq. }
    cbn. left.
Qed.

(** [neq_gate] and [eq_gate] compare two words: on the [n ≥ 1] bits of
    [a] and of [b], given under different names, the first returns the
    one-bit word [a ≠ b] and the second the one-bit word [a = b]. *)
Theorem equality_gates_correct (n : nat) (left right output : string)
    (a b : Z) :
  left ≠ right → (0 < n)%nat →
  0 ≤ a < 2 ^ Z.of_nat n → 0 ≤ b < 2 ^ Z.of_nat n →
  let vals : gmap string (list bool) :=
    {[ left := bits_of n a; right := bits_of n b ]} in
  (∃ c, neq_gate n left right output = Ok c
        ∧ run c vals = Some {[ output := [negb (a =? b)] ]})
  ∧ (∃ c, eq_gate n left right output = Ok c
          ∧ run c vals = Some {[ output := [a =? b] ]}).
Proof.
  intros Hlr Hn Ha Hb vals.
  destruct (blast_pair n left right a b Hlr) as (v & Hv & Hvl & Hvr).
  split.
  - destruct (neq_gate_run n left right output a b Hlr Hn Ha Hb)
      as (c & Hc & Hi & Ho & _ & _ & Hlat & Hev).
    destruct (Hev v ∅ Hvl Hvr) as (m & l' & Hstep & Hm).
    exists c. split; [done|].
    apply (run_single_bit c vals v m l'); try done. by rewrite Hi.
  - unfold eq_gate.
    destruct (neq_gate_run n left right (left +:+ right) a b Hlr Hn Ha Hb)
      as (c & -> & Hi & Ho & Hl & Houts & Hlat & Hev).
    cbn [bind]. erewrite rshift_into_unary; [|done..].
    eexists. split; [done|].
    destruct (Hev v ∅ Hvl Hvr) as (m1 & l1 & Hstep1 & Hm1).
    destruct (flip_after (aig c) (left +:+ right) output v ∅ m1 l1 _
                Hstep1 Hm1 Houts) as (m & l' & Hstep & Hm).
    rewrite negb_involutive in Hm.
    apply (run_single_bit _ vals v m l'); try done.
    + cbn [input_map]. by rewrite Hi.
    + cbn. rewrite Hlat. by rewrite (left_id_L ∅ (∪)).
Qed.

Lemma equality_gates_correct_witness :
  let vals : gmap string (list bool) :=
    {[ "x"%string := bits_of 3 5; "y"%string := bits_of 3 6 ]} in
  (∃ c, neq_gate 3 "x" "y" "x!=y" = Ok c
        ∧ run c vals = Some {[ "x!=y"%string := [negb (5 =? 6)] ]})
  ∧ (∃ c, eq_gate 3 "x" "y" "x!=y" = Ok c
          ∧ run c vals = Some {[ "x!=y"%string := [5 =? 6] ]}).
Proof.
  apply (equality_gates_correct 3 "x" "y" "x!=y" 5 6);
    [done|lia|simpl; lia|simpl; lia].
Defined.
End comparisons.

Section composition.
Import aigerbv.

Lemma named_map_lookup (n : nat) (root : string) (z : Z) (j : nat) :
  (j < n)%nat →
  (list_to_map (zip (_named_indexes n root) (bits_of n z)) : gmap string bool)
    !! bit_name root j = Some (Z.testbit z (Z.of_nat j)).
Proof.
  intros Hj. apply elem_of_list_to_map_1; [|by apply zip_named_bits].
  rewrite fst_zip; [apply NoDup_named_indexes|].
  unfold bits_of. by rewrite named_indexes_length, length_fmap, length_seq.
Qed.

(** [bitwise_negate] complements a word bit by bit: on the [n ≥ 1] bits
    of [a] its output word is the [n] bits of the complement of [a]. *)
Theorem bitwise_negate_correct (n : nat) (input output : string) (a : Z) :
  (0 < n)%nat →
  run (bitwise_negate n input output) {[ input := bits_of n a ]}
  = Some {[ output := bits_of n (Z.lnot a) ]}.
Proof.
  intros _. destruct (blast_single n input a) as (v & Hv & Hbits).
  eapply (run_single_output _ _ v); [exact Hv|done| |done|].
  - apply (gate_eval _ _ (fmap negb) v ∅ (bits_of n a)).
    by apply named_bits_Forall2.
  - intros j Hj.
    assert (negb <$> bits_of n a = bits_of n (Z.lnot a)) as ->.
    { unfold bits_of. rewrite <- list_fmap_compose. apply list_fmap_ext.
      intros i k _. cbn. rewrite Z.lnot_spec by lia. done. }
    by apply named_map_lookup.
Qed.

Lemma bitwise_negate_correct_witness :
  run (bitwise_negate 4 "x" "not x") {[ "x"%string := bits_of 4 5 ]}
  = Some {[ "not x"%string := bits_of 4 (Z.lnot 5) ]}.
Proof. apply (bitwise_negate_correct 4 "x" "not x" 5). lia. Defined.

(** [A | B] puts two circuits side by side when they share no word
    name of the same kind: it returns the parallel composition of the
    bit-level circuits under the unions of the three maps, so that its
    inputs, outputs and latches are those of [A] and of [B]. *)
Theorem or_disjoint_maps (A B : AIGBV) :
  inputs A ∩ inputs B = ∅ → outputs A ∩ outputs B = ∅ →
  latches A ∩ latches B = ∅ →
  ∃ C : AIGBV,
    or_ A B = Ok C
    ∧ aig C = aiger.par_compose (aig A) (aig B)
    ∧ input_map C = input_map A ∪ input_map B
    ∧ output_map C = output_map A ∪ output_map B
    ∧ latch_map C = latch_map A ∪ latch_map B
    ∧ inputs C = inputs A ∪ inputs B
    ∧ outputs C = outputs A ∪ outputs B
    ∧ latches C = latches A ∪ latches B.
Proof.
  intros Hi Ho Hl. unfold or_, is_empty.
  rewrite !bool_decide_eq_true_2 by done. cbn [assert bind].
  eexists. split; [done|]. unfold inputs, outputs, latches.
  cbn [aig input_map output_map latch_map].
  by rewrite !names_of_union.
Qed.

Lemma or_disjoint_maps_witness :
  ∃ C : AIGBV,
    or_ (bitwise_negate 2 "x" "a") (bitwise_negate 2 "y" "b") = Ok C
    ∧ aig C = aiger.par_compose (aig (bitwise_negate 2 "x" "a"))
                                (aig (bitwise_negate 2 "y" "b"))
    ∧ input_map C = input_map (bitwise_negate 2 "x" "a")
                    ∪ input_map (bitwise_negate 2 "y" "b")
    ∧ output_map C = output_map (bitwise_negate 2 "x" "a")
                     ∪ output_map (bitwise_negate 2 "y" "b")
    ∧ latch_map C = latch_map (bitwise_negate 2 "x" "a")
                    ∪ latch_map (bitwise_negate 2 "y" "b")
    ∧ inputs C = inputs (bitwise_negate 2 "x" "a")
                 ∪ inputs (bitwise_negate 2 "y" "b")
    ∧ outputs C = outputs (bitwise_negate 2 "x" "a")
                  ∪ outputs (bitwise_negate 2 "y" "b")
    ∧ latches C = latches (bitwise_negate 2 "x" "a")
                  ∪ latches (bitwise_negate 2 "y" "b").
Proof.
  apply (or_disjoint_maps (bitwise_negate 2 "x" "a") (bitwise_negate 2 "y" "b"));
    compute_done.
Defined.

(** [A | B] rejects name clashes on an assertion: when the two
    circuits share an input, an output or a latch name it returns no
    circuit (inputs are not shared by this module's [|]). *)
Theorem or_clash_rejected (A B : AIGBV) (z : string) :
  (z ∈ inputs A ∧ z ∈ inputs B) ∨ (z ∈ outputs A ∧ z ∈ outputs B)
  ∨ (z ∈ latches A ∧ z ∈ latches B) →
  or_ A B = Raise AssertionError.
Proof.
  intros H. unfold or_, is_empty.
  repeat (case_bool_decide; cbn [assert bind]; try done).
  set_solver.
Qed.

Lemma or_clash_rejected_witness :
  or_ (bitwise_negate 2 "x" "a") (bitwise_negate 2 "x" "b")
    = Raise AssertionError.
Proof.
  apply (or_clash_rejected (bitwise_negate 2 "x" "a")
           (bitwise_negate 2 "x" "b") "x").
  left. split; compute_done.
Defined.

(** [A >> B] rejects on an assertion two circuits that share a latch
    name, and two circuits that both declare an output that is no input
    of [B]; it returns no circuit then. *)
Theorem rshift_clash_rejected (A B : AIGBV) (z : string) :
  (z ∈ latches A ∧ z ∈ latches B)
  ∨ (z ∈ outputs A ∧ z ∈ outputs B ∧ z ∉ inputs B) →
  rshift A B = Raise AssertionError.
Proof.
  intros H. unfold rshift, is_empty.
  repeat (case_bool_decide; cbn [assert bind]; try done).
  set_solver.
Qed.

Lemma rshift_clash_rejected_witness :
  rshift (bitwise_negate 2 "x" "a") (bitwise_negate 2 "y" "a")
    = Raise AssertionError.
Proof.
  apply (rshift_clash_rejected (bitwise_negate 2 "x" "a")
           (bitwise_negate 2 "y" "a") "a").
  right. split_and!; compute_done.
Defined.
End composition.

(** ** src/aiger_bv/expr.py: operators *)

Lemma binary_gate_width (gate : nat → string → string → string → AIGBV)
    (same_circ : option (Expr → M (AIGBV + Expr)))
    (e1 e2 : Expr) (n1 n2 s : nat) :
  size e1 = Ok n1 → size e2 = Ok n2 → n1 ≠ n2 →
  _binary_gate gate e1 (inl e2) same_circ s = Raise AssertionError.
Proof.
  intros H1 H2 Hne. unfold _binary_gate, bindM, ret, lift.
  rewrite H1, H2. by rewrite bool_decide_eq_false_2.
Qed.

(** The binary operators check the widths first: on two expressions of
    different sizes each of them fails on its assertion, whatever the
    circuits are. *)
Theorem binary_width_mismatch (e1 e2 : Expr) (n1 n2 s : nat) :
  size e1 = Ok n1 → size e2 = Ok n2 → n1 ≠ n2 →
  add e1 (inl e2) s = Raise AssertionError
  ∧ sub e1 (inl e2) s = Raise AssertionError
  ∧ and_ e1 (inl e2) s = Raise AssertionError
  ∧ bor e1 (inl e2) s = Raise AssertionError
  ∧ xor e1 (inl e2) s = Raise AssertionError
  ∧ ne e1 (inl e2) s = Raise AssertionError
  ∧ le e1 (inl e2) s = Raise AssertionError
  ∧ ge e1 (inl e2) s = Raise AssertionError.
Proof.
  intros H1 H2 Hne. unfold add, sub, and_, bor, xor, ne, le, ge.
  split_and!; by eapply binary_gate_width.
Qed.

Lemma binary_width_mismatch_witness :
  let e1 := OfCircuit false 0 1 (identity_gate 2 "x" "a") in
  let e2 := OfCircuit false 2 3 (identity_gate 3 "y" "b") in
  add e1 (inl e2) 4%nat = Raise AssertionError
  ∧ sub e1 (inl e2) 4%nat = Raise AssertionError
  ∧ and_ e1 (inl e2) 4%nat = Raise AssertionError
  ∧ bor e1 (inl e2) 4%nat = Raise AssertionError
  ∧ xor e1 (inl e2) 4%nat = Raise AssertionError
  ∧ ne e1 (inl e2) 4%nat = Raise AssertionError
  ∧ le e1 (inl e2) 4%nat = Raise AssertionError
  ∧ ge e1 (inl e2) 4%nat = Raise AssertionError.
Proof.
  apply (binary_width_mismatch
           (OfCircuit false 0 1 (identity_gate 2 "x" "a"))
           (OfCircuit false 2 3 (identity_gate 3 "y" "b")) 2 3 4);
    [by vm_compute|by vm_compute|lia].
Defined.

(** [ite] checks its operands before it builds anything: a test that
    is not one bit wide, or branches of different sizes, fail on an
    assertion. *)
Theorem ite_operands_rejected (test a b : Expr) (nt n1 n2 s : nat) :
  size test = Ok nt → size a = Ok n1 → size b = Ok n2 →
  nt ≠ 1%nat ∨ n1 ≠ n2 →
  ite test a b s = Raise AssertionError.
Proof.
  intros Ht H1 H2 H. unfold ite, bindM, ret, lift. rewrite Ht.
  destruct (decide (nt = 1%nat)) as [->|Hnt].
  - destruct H as [?|Hne]; [done|].
    rewrite bool_decide_eq_true_2 by done. cbn [assert]. rewrite H1, H2.
    by rewrite bool_decide_eq_false_2.
  - by rewrite bool_decide_eq_false_2.
Qed.

Lemma ite_operands_rejected_witness :
  ite (OfCircuit false 0 1 (identity_gate 2 "t" "c"))
      (OfCircuit false 2 3 (identity_gate 2 "x" "a"))
      (OfCircuit false 4 5 (identity_gate 2 "y" "b")) 6%nat
  = Raise AssertionError.
Proof.
  apply (ite_operands_rejected
           (OfCircuit false 0 1 (identity_gate 2 "t" "c"))
           (OfCircuit false 2 3 (identity_gate 2 "x" "a"))
           (OfCircuit false 4 5 (identity_gate 2 "y" "b")) 2 2 2 6);
    [by vm_compute|by vm_compute|by vm_compute|left; lia].
Defined.

(** ** Unary gates on expressions *)

Lemma mapR_Ok_Forall2 {A B} (f : A → result B) (l : list A) (k : list B) :
  mapR f l = Ok k → Forall2 (λ a b, f a = Ok b) l k.
Proof.
  revert k. induction l as [|a l IH]; intros k; cbn [mapR].
  - intros [= <-]. constructor.
  - destruct (f a) as [b|] eqn:Ha; [|done]. cbn [bind].
    destruct (mapR f l) as [bs|]; [|done]. cbn [bind]. intros [= <-].
    constructor; [done|]. by apply IH.
Qed.

Lemma getitem_Ok {V} (d : gmap string V) (k : string) (v : V) :
  getitem d k = Ok v ↔ d !! k = Some v.
Proof. unfold getitem. destruct (d !! k); naive_solver. Qed.

Lemma seq_gate_step (a : aiger.AIG) (ins outs : list string)
    (f : list bool → list bool) (v l ma la : gmap string bool)
    (bits : list bool) :
  aiger.step a v l = Some (ma, la) →
  Forall2 (λ s b, ma !! s = Some b) ins bits →
  (∀ s, s ∈ ins → s ∈ aiger.outputs a) →
  aiger.step (aiger.seq_compose a (aiger.gate ins outs f)) v l
  = Some (list_to_map (zip outs (f bits))
            ∪ aiger.drop (aiger.outputs a ∩ list_to_set ins) ma,
          la ∪ ∅).
Proof.
  intros Hev Hbits Hins.
  cbn [aiger.seq_compose aiger.step aiger.gate aiger.inputs].
  rewrite Hev. cbn [mbind option_bind fst snd].
  rewrite (mapM_Some_2 _ _ bits); [done|].
  assert (HI : ∀ s, s ∈ ins →
    s ∈ aiger.outputs a ∩ (list_to_set ins : gset string)).
  { intros s Hs. apply elem_of_intersection. split; [by apply Hins|].
    by apply elem_of_list_to_set. }
  generalize dependent (aiger.outputs a ∩ (list_to_set ins : gset string)).
  intros I HI. clear Hins. induction Hbits as [|s b ins' bits' Hs _ IH];
    constructor.
  - apply lookup_union_Some_l. rewrite restrict_lookup_in; [done|].
    apply HI. left.
  - apply IH. intros s' Hs'. apply HI. by right.
Qed.

Lemma bundle_map_lookup (name : string) (bits : list bool) (j : nat) (b : bool) :
  bits !! j = Some b →
  (list_to_map (zip (bundle name (length bits)) bits) : gmap string bool)
    !! bit_name name j = Some b.
Proof.
  intros Hj. apply elem_of_list_to_map_1.
  - rewrite fst_zip.
    + apply NoDup_fmap_2; [apply bit_name_inj|apply NoDup_seq].
    + unfold bundle. by rewrite length_fmap, length_seq.
  - apply list_elem_of_lookup. exists j.
    apply lookup_zip_with_Some. eexists _, _. split; [done|]. split; [|done].
    unfold bundle. rewrite list_lookup_fmap, lookup_seq_lt; [done|].
    by eapply lookup_lt_Some.
Qed.

Lemma unblast_word (name : string) (bits : list bool) (rest : gmap string bool) :
  bm_unblast {[ name := length bits ]}
    (list_to_map (zip (bundle name (length bits)) bits) ∪ rest)
  = Ok {[ name := bits ]}.
Proof.
  unfold bm_unblast. rewrite map_to_list_singleton. cbn [mapR bind].
  rewrite (mapR_Forall2 _ _ bits).
  - cbn. by rewrite insert_empty.
  - unfold bundle. apply Forall2_fmap_l, Forall2_same_length_lookup_2.
    + by rewrite length_seq.
    + intros j i b [-> Hi]%lookup_seq Hb. apply getitem_Ok.
      apply lookup_union_Some_l. cbn. by apply bundle_map_lookup.
Qed.

Lemma Ok_pair_inj {A B} (a a' : A) (b b' : B) :
  @Ok (A * B) (a, b) = Ok (a', b') → a = a' ∧ b = b'.
Proof. by intros [= -> ->]. Qed.

Lemma unary_rshift_call (c c' : AIGBV) (o f : string) (n m : nat)
    (g : list bool → list bool) (vals : gmap string (list bool))
    (bits : list bool) (rl : gmap string (list bool)) :
  omap c = {[ o := n ]} →
  (∀ b, b ∈ bundle o n → b ∈ aiger.outputs (aig c)) →
  call c vals None = Ok ({[ o := bits ]}, rl) →
  length (g bits) = m →
  rshift c (unary_gate g m n o f) = Ok c' →
  call c' vals None = Ok ({[ f := g bits ]}, rl).
Proof.
  intros Ho Hwf Hcall Hlen Hr.
  destruct (rshift_unary c o f n m g Ho) as (c'' & Hc'' & Hi & Hom & Hl & Ha).
  rewrite Hr in Hc''. injection Hc'' as <-.
  unfold call in *. rewrite Hi, Hom, Hl, Ha.
  destruct (bm_blast (imap c) vals) as [bi|]; [|done]. cbn [bind] in *.
  destruct (aiger.call (aig c) bi None) as [[ra la]|] eqn:Hstep; [|done].
  cbn [of_option bind fst snd] in Hcall.
  rewrite Ho in Hcall. unfold bm_unblast in Hcall at 1.
  rewrite map_to_list_singleton in Hcall. cbn [mapR bind] in Hcall.
  destruct (mapR (getitem ra) (bundle o n)) as [bits0|] eqn:Hbits; [|done].
  cbn [bind] in Hcall.
  destruct (bm_unblast (lmap c) la) as [rl0|] eqn:Hrl; [|done].
  cbn [bind] in Hcall. apply Ok_pair_inj in Hcall as [Hb0 <-].
  cbn in Hb0. rewrite insert_empty in Hb0.
  apply (f_equal (λ d : gmap string (list bool), d !! o)) in Hb0.
  rewrite !lookup_singleton_eq in Hb0.
  assert (bits0 = bits) as -> by congruence. clear Hb0.
  apply mapR_Ok_Forall2 in Hbits.
  unfold aiger.call in *. cbn [default] in *.
  cbn [aiger.seq_compose aiger.latch2init unary_gate aig aiger.gate].
  rewrite (right_id_L ∅ (∪) (aiger.latch2init (aig c))).
  change {| aiger.inputs := list_to_set (bundle o n);
            aiger.outputs := list_to_set (bundle f m);
            aiger.latch2init := ∅;
            aiger.step := _ |}
    with (aiger.gate (bundle o n) (bundle f m) g).
  change {| aiger.inputs := _; aiger.outputs := _; aiger.latch2init := _;
            aiger.step := _ |}
    with (aiger.seq_compose (aig c) (aiger.gate (bundle o n) (bundle f m) g)).
  rewrite (seq_gate_step _ _ _ _ _ _ _ _ bits Hstep); cycle 1.
  { eapply Forall2_impl; [exact Hbits|]. intros s b. by apply getitem_Ok. }
  { exact Hwf. }
  cbn [of_option bind fst snd]. rewrite <- Hlen, unblast_word. cbn [bind].
  by rewrite (right_id_L ∅ (∪)), Hrl.
Qed.

Lemma mapR_length {A B} (f : A → result B) (l : list A) (k : list B) :
  mapR f l = Ok k → length k = length l.
Proof. intros H%mapR_Ok_Forall2. symmetry. by eapply Forall2_length. Qed.

Lemma call_single_output (c : AIGBV) (o : string) (n : nat)
    (vals : gmap string (list bool))
    (r : gmap string (list bool) * gmap string (list bool)) :
  omap c = {[ o := n ]} → call c vals None = Ok r →
  ∃ bits, r.1 = {[ o := bits ]} ∧ length bits = n.
Proof.
  intros Ho. unfold call.
  destruct (bm_blast (imap c) vals) as [bi|]; [|done]. cbn [bind].
  destruct (aiger.call (aig c) bi None) as [[ra la]|]; [|done].
  cbn [of_option bind fst snd]. rewrite Ho. unfold bm_unblast at 1.
  rewrite map_to_list_singleton. cbn [mapR bind].
  destruct (mapR (getitem ra) (bundle o n)) as [bits|] eqn:Hbits; [|done].
  cbn [bind]. destruct (bm_unblast (lmap c) la) as [rl|]; [|done].
  cbn [bind]. intros [= <-]. exists bits. split.
  - cbn. by rewrite insert_empty.
  - apply mapR_length in Hbits. unfold bundle in Hbits.
    by rewrite length_fmap, length_seq in Hbits.
Qed.

Lemma expr_call_single (sgn : bool) (i j : nat) (c : AIGBV) (o : string)
    (n : nat) (vals : gmap string (list bool)) (bits : list bool) :
  omap c = {[ o := n ]} →
  expr_call (OfCircuit sgn i j c) vals = Ok bits ↔
  ∃ rl, call c vals None = Ok ({[ o := bits ]}, rl) ∧ length bits = n.
Proof.
  intros Ho. cbn [expr_call]. unfold outputs.
  rewrite Ho, dom_singleton_L, elements_singleton.
  cbn [first head of_option]. split.
  - destruct (call c vals None) as [[ro rl]|] eqn:Hcall; [|done].
    cbn [bind fst]. intros Hget%getitem_Ok.
    destruct (call_single_output c o n vals _ Ho Hcall) as (bits0 & Hro & Hlen).
    cbn [fst] in Hro. subst ro. rewrite lookup_singleton_eq in Hget.
    assert (bits0 = bits) as -> by congruence. eauto.
  - intros (rl & -> & _). cbn [bind fst]. apply getitem_Ok.
    by rewrite lookup_singleton_eq.
Qed.

Lemma unary_gate_expr (g : list bool → list bool) (m : nat)
    (sgn : bool) (i j : nat) (c : AIGBV) (o : string) (n s : nat)
    (vals : gmap string (list bool)) (bits : list bool) :
  omap c = {[ o := n ]} →
  (∀ b, b ∈ bundle o n → b ∈ aiger.outputs (aig c)) →
  expr_call (OfCircuit sgn i j c) vals = Ok bits →
  length (g bits) = m →
  ∃ c' : AIGBV,
    _unary_gate (λ _, unary_gate g m n) (OfCircuit sgn i j c) s
    = Ok (OfCircuit sgn (S s) (S (S s)) c', S (S (S s)))
    ∧ imap c' = imap c
    ∧ omap c' = {[ ("_" +:+ pretty s) := m ]}
    ∧ expr_call (OfCircuit sgn (S s) (S (S s)) c') vals = Ok (g bits).
Proof.
  intros Ho Hwf Hcall Hlen.
  destruct (rshift_unary c o ("_" +:+ pretty s) n m g Ho)
    as (c' & Hc' & Hi & Hom & Hl & Ha).
  exists c'. split_and!; [|done|done|].
  - unfold _unary_gate, bindM, lift.
    rewrite (size_single sgn i j c o n Ho), (output_single sgn i j c o n Ho).
    cbn [_fresh circuit_of aigbv]. rewrite Hc'. done.
  - apply (expr_call_single sgn i j c o n vals bits Ho) in Hcall
      as (rl & Hcall & Hn).
    apply (expr_call_single _ _ _ c' ("_" +:+ pretty s) m vals (g bits) Hom).
    exists rl. split; [|done].
    by apply (unary_rshift_call c c' o _ n m g vals bits rl).
Qed.

(** [~e] complements the value of [e]: for an expression over a circuit
    with the single output word [o] of [n] bits (whose bits are outputs
    of the bit-level circuit) that evaluates to [bits], [~e] is a new
    expression of the same class, size and inputs, with a fresh output
    name, that evaluates to the complement of [bits]. *)
Theorem invert_correct (sgn : bool) (i j : nat) (c : AIGBV) (o : string)
    (n s : nat) (vals : gmap string (list bool)) (bits : list bool) :
  omap c = {[ o := n ]} →
  (∀ b, b ∈ bundle o n → b ∈ aiger.outputs (aig c)) →
  expr_call (OfCircuit sgn i j c) vals = Ok bits →
  ∃ (e' : Expr) (s' : nat),
    invert (OfCircuit sgn i j c) s = Ok (e', s')
    ∧ signed e' = sgn ∧ size e' = Ok n
    ∧ output e' = Ok ("_" +:+ pretty s)
    ∧ expr_inputs e' = inputs c
    ∧ expr_call e' vals = Ok (negb <$> bits).
Proof.
  intros Ho Hwf Hcall.
  pose proof (proj1 (expr_call_single sgn i j c o n vals bits Ho) Hcall)
    as (_ & _ & Hn).
  destruct (unary_gate_expr (fmap negb) n sgn i j c o n s vals bits Ho Hwf Hcall)
    as (c' & Hc' & Hi & Hom & Hev).
  { by rewrite length_fmap. }
  exists (OfCircuit sgn (S s) (S (S s)) c'), (S (S (S s))).
  split_and!; [|done| | | |exact Hev].
  - rewrite <- Hc'. unfold invert, _unary_gate, bindM, lift.
    by rewrite (size_single sgn i j c o n Ho).
  - by apply (size_single _ _ _ _ ("_" +:+ pretty s)).
  - by apply (output_single _ _ _ _ _ n).
  - cbn [expr_inputs]. unfold inputs. by rewrite Hi.
Qed.

Lemma invert_correct_witness :
  ∃ (e' : Expr) (s' : nat),
    invert (OfCircuit false 0 1 (identity_gate 2 "x" "y")) 2%nat = Ok (e', s')
    ∧ signed e' = false ∧ size e' = Ok 2%nat
    ∧ output e' = Ok ("_" +:+ pretty 2%nat)
    ∧ expr_inputs e' = inputs (identity_gate 2 "x" "y")
    ∧ expr_call e' {[ "x"%string := [true; false] ]}
      = Ok (negb <$> [true; false]).
Proof.
  apply (invert_correct false 0 1 (identity_gate 2 "x" "y") "y" 2 2
           {[ "x"%string := [true; false] ]} [true; false]).
  - reflexivity.
  - intros b Hb. cbn in Hb. cbn. set_solver.
  - by vm_compute.
Defined.

(** [repeat] broadcasts a bit: for an expression over a circuit with
    the single one-bit output [o] that evaluates to the bit [b],
    [e.repeat(times)] evaluates to [times] copies of [b]. *)
Theorem repeat_correct (sgn : bool) (i j : nat) (c : AIGBV) (o : string)
    (times s : nat) (vals : gmap string (list bool)) (b : bool) :
  omap c = {[ o := 1%nat ]} →
  (∀ x, x ∈ bundle o 1 → x ∈ aiger.outputs (aig c)) →
  expr_call (OfCircuit sgn i j c) vals = Ok [b] →
  ∃ (e' : Expr) (s' : nat),
    repeat (OfCircuit sgn i j c) times s = Ok (e', s')
    ∧ expr_call e' vals = Ok (replicate times b).
Proof.
  intros Ho Hwf Hcall.
  destruct (unary_gate_expr
              (λ bits, replicate times (default false (head bits))) times
              sgn i j c o 1 s vals [b] Ho Hwf Hcall)
    as (c' & Hc' & Hi & Hom & Hev).
  { by rewrite length_replicate. }
  exists (OfCircuit sgn (S s) (S (S s)) c'), (S (S (S s))).
  split; [|exact Hev].
  rewrite <- Hc'. unfold repeat, _unary_gate, bindM, lift.
  rewrite (size_single sgn i j c o 1 Ho).
  by rewrite bool_decide_eq_true_2.
Qed.

Lemma repeat_correct_witness :
  ∃ (e' : Expr) (s' : nat),
    repeat (OfCircuit false 0 1 (identity_gate 1 "x" "y")) 3 2%nat = Ok (e', s')
    ∧ expr_call e' {[ "x"%string := [true] ]} = Ok (replicate 3 true).
Proof.
  apply (repeat_correct false 0 1 (identity_gate 1 "x" "y") "y" 3 2
           {[ "x"%string := [true] ]} true).
  - reflexivity.
  - intros b Hb. cbn in Hb. cbn. set_solver.
  - by vm_compute.
Defined.

(** ** Atoms *)

Lemma bits_of_length (n : nat) (z : Z) : length (bits_of n z) = n.
Proof. unfold bits_of. by rewrite length_fmap, length_seq. Qed.

Lemma call_source (n : nat) (k : Z) (name : string) (sgn : bool) :
  call (source n k name sgn) ∅ None = Ok ({[ name := bits_of n k ]}, ∅).
Proof.
  unfold call, bm_blast. cbn [imap omap lmap aig source].
  rewrite map_to_list_empty. cbn [mapR bind mjoin list_to_map foldr].
  unfold aiger.call. cbn [aiger.source aiger.step aiger.latch2init default
    of_option bind fst snd].
  rewrite <- (bits_of_length n k) at 1 2.
  rewrite <- (right_id_L ∅ (∪) (list_to_map _)), unblast_word. cbn [bind].
  unfold bm_unblast. by rewrite map_to_list_empty.
Qed.

Lemma blast_word_alone (name : string) (bits : list bool) :
  bm_blast {[ name := length bits ]} {[ name := bits ]}
  = Ok (list_to_map (zip (bundle name (length bits)) bits)).
Proof.
  unfold bm_blast. rewrite map_to_list_singleton. cbn [mapR bind].
  unfold bm_getitem, getitem. rewrite lookup_singleton_eq. cbn [bind].
  f_equal. f_equal. apply app_nil_r.
Qed.

Lemma call_identity (name output : string) (bits : list bool) :
  call (identity_gate (length bits) name output) {[ name := bits ]} None
  = Ok ({[ output := bits ]}, ∅).
Proof.
  unfold call. cbn [imap omap lmap aig identity_gate unary_gate].
  rewrite blast_word_alone. cbn [bind]. unfold aiger.call.
  rewrite (gate_eval _ _ _ _ _ bits).
  - cbn [of_option bind fst snd id].
    rewrite <- (right_id_L ∅ (∪) (list_to_map _)), unblast_word. cbn [bind].
    unfold bm_unblast. by rewrite map_to_list_empty.
  - unfold bundle. apply Forall2_fmap_l, Forall2_same_length_lookup_2.
    + by rewrite length_seq.
    + intros j i b [-> Hi]%lookup_seq Hb. by apply bundle_map_lookup.
Qed.

(** An atom is a constant or an input: [atom(n, k, signed)] for an
    integer [k] that [n] bits hold (from [-2^(n-1)] below [2^(n-1)] for
    a signed atom, from [0] below [2^n] for an unsigned one) builds an
    expression of that class and of size [n], without input, that
    evaluates to the [n] two's complement bits of [k]; [atom(n, name)]
    builds one with the input word [name] that evaluates to the value
    given for it. *)
Theorem atom_evaluates (n : nat) (k : Z) (name : string) (sgn : bool)
    (s : nat) (bits : list bool) :
  (if sgn then - 2 ^ Z.of_nat n ≤ 2 * k < 2 ^ Z.of_nat n
   else 0 ≤ k < 2 ^ Z.of_nat n) →
  length bits = n →
  (∃ e s', atom n (Some (inr k)) sgn s = Ok (e, s')
           ∧ signed e = sgn ∧ size e = Ok n ∧ expr_inputs e = ∅
           ∧ expr_call e ∅ = Ok (bits_of n k))
  ∧ (∃ e s', atom n (Some (inl name)) sgn s = Ok (e, s')
             ∧ signed e = sgn ∧ size e = Ok n ∧ expr_inputs e = {[ name ]}
             ∧ expr_call e {[ name := bits ]} = Ok bits).
Proof.
  intros _ Hlen. split.
  - exists (OfCircuit sgn (S s) (S (S s)) (source n k ("_" +:+ pretty s) sgn)),
           (S (S (S s))).
    split; [reflexivity|]. split_and!; [done| | |].
    + by apply (size_single _ _ _ _ ("_" +:+ pretty s)).
    + cbn. unfold inputs. cbn. apply dom_empty_L.
    + apply (expr_call_single _ _ _ _ ("_" +:+ pretty s) n); [done|].
      exists ∅. split; [apply call_source|apply bits_of_length].
  - exists (OfCircuit sgn (S s) (S (S s))
              (identity_gate n name ("_" +:+ pretty s))),
           (S (S (S s))).
    split; [reflexivity|]. split_and!; [done| | |].
    + by apply (size_single _ _ _ _ ("_" +:+ pretty s)).
    + cbn. unfold inputs. cbn. apply dom_singleton_L.
    + apply (expr_call_single _ _ _ _ ("_" +:+ pretty s) n); [done|].
      exists ∅. split; [|done]. subst n. apply call_identity.
Qed.

Lemma atom_evaluates_witness :
  (∃ e s', atom 3 (Some (inr (-3))) true 0%nat = Ok (e, s')
           ∧ signed e = true ∧ size e = Ok 3%nat ∧ expr_inputs e = ∅
           ∧ expr_call e ∅ = Ok (bits_of 3 (-3)))
  ∧ (∃ e s', atom 3 (Some (inl "x"%string)) true 0%nat = Ok (e, s')
             ∧ signed e = true ∧ size e = Ok 3%nat
             ∧ expr_inputs e = {[ "x"%string ]}
             ∧ expr_call e {[ "x"%string := [true; false; true] ]}
               = Ok [true; false; true]).
Proof.
  apply (atom_evaluates 3 (-3) "x" true 0 [true; false; true]);
    [simpl; lia|reflexivity].
Defined.

(** ** Renaming the output *)

Lemma relabel_single_output (c : AIGBV) (o val : string) (n : nat) :
  omap c = {[ o := n ]} → val ≠ o →
  ∃ c', relabel c "o" {[ o := val ]} = Ok c'
        ∧ imap c' = imap c ∧ omap c' = {[ val := n ]} ∧ lmap c' = lmap c.
Proof.
  intros Ho Hne. unfold relabel.
  rewrite bool_decide_eq_true_2 by compute_done. cbn [negb].
  change (get_map "o" c) with (omap c).
  change (set_map_of "o" c ?m) with
    {| aig := aig c; imap := imap c; omap := m; lmap := lmap c |}.
  rewrite Ho, map_to_list_singleton. unfold is_empty.
  rewrite bool_decide_eq_true_2; cycle 1.
  { rewrite dom_singleton_L. cbn. set_solver. }
  cbn [assert bind].
  assert (bm_relabel {[ o := n ]} {[ o := val ]} = {[ val := n ]}) as ->.
  { unfold bm_relabel, aiger.rename_of. rewrite map_to_list_singleton.
    cbn. rewrite lookup_singleton_eq. cbn. by rewrite insert_empty. }
  rewrite filter_cons_True by (cbn; rewrite dom_singleton_L; set_solver).
  rewrite filter_nil. cbn [mapR bind].
  unfold bm_getitem, getitem. rewrite !lookup_singleton_eq. cbn [bind].
  cbn [merge of_option bind]. eexists. split; [done|]. by cbn.
Qed.

(** [with_output] renames the output word: over a circuit with the
    single output [o], a new name gives a new expression of the same
    class, size and inputs whose output is that name; the name [o]
    itself is rejected on the relabelling's assertion. *)
Theorem with_output_renames (sgn : bool) (i j : nat) (c : AIGBV)
    (o val : string) (n s : nat) :
  omap c = {[ o := n ]} →
  (val = o
   ∧ with_output (OfCircuit sgn i j c) val s = Raise AssertionError)
  ∨ (val ≠ o
     ∧ ∃ (e' : Expr) (s' : nat),
         with_output (OfCircuit sgn i j c) val s = Ok (e', s')
         ∧ signed e' = sgn ∧ output e' = Ok val ∧ size e' = Ok n
         ∧ expr_inputs e' = inputs c).
Proof.
  intros Ho. unfold with_output, bindM, lift.
  rewrite (output_single sgn i j c o n Ho). cbn [circuit_of aigbv].
  destruct (decide (val = o)) as [->|Hne].
  - left. split; [done|]. unfold relabel.
    rewrite bool_decide_eq_true_2 by compute_done. cbn [negb].
    change (get_map "o" c) with (omap c).
    rewrite Ho, map_to_list_singleton. unfold is_empty.
    rewrite bool_decide_eq_false_2; [done|].
    rewrite dom_singleton_L. cbn. set_solver.
  - right. split; [done|].
    destruct (relabel_single_output c o val n Ho Hne)
      as (c' & -> & Hi & Hom & Hl).
    exists (OfCircuit sgn s (S s) c'), (S (S s)).
    split_and!; [done|done| | |].
    + by apply (output_single _ _ _ _ _ n).
    + by apply (size_single _ _ _ _ val).
    + cbn [expr_inputs]. unfold inputs. by rewrite Hi.
Qed.

Lemma with_output_renames_witness :
  ("z"%string = "y"%string
   ∧ with_output (OfCircuit false 0 1 (identity_gate 2 "x" "y")) "z" 2%nat
     = Raise AssertionError)
  ∨ ("z"%string ≠ "y"%string
     ∧ ∃ (e' : Expr) (s' : nat),
         with_output (OfCircuit false 0 1 (identity_gate 2 "x" "y")) "z" 2%nat
         = Ok (e', s')
         ∧ signed e' = false ∧ output e' = Ok "z"%string ∧ size e' = Ok 2%nat
         ∧ expr_inputs e' = inputs (identity_gate 2 "x" "y")).
Proof.
  by apply (with_output_renames false 0 1 (identity_gate 2 "x" "y") "y" "z" 2 2).
Defined.

(** ** Subscripts *)

(** An index outside [0, size) is rejected on the assertion: negative
    indexes do not count from the end. *)
Theorem getitem_out_of_range (e : Expr) (n : nat) (i : Z) (s : nat) :
  size e = Ok n → i < 0 ∨ Z.of_nat n ≤ i →
  expr_getitem e (Index i) s = Raise AssertionError.
Proof.
  intros Hn Hi. unfold expr_getitem, bindM, ret, lift.
  destruct (0 <=? i) eqn:H0; cbn [andb assert].
  - assert ((i <? i + 1) = true) as -> by (apply Z.ltb_lt; lia).
    rewrite Hn. assert ((i + 1 <=? Z.of_nat n) = false) as ->; [|done].
    apply Z.leb_gt. apply Z.leb_le in H0. lia.
  - done.
Qed.

Lemma getitem_out_of_range_witness :
  expr_getitem (OfCircuit false 0 1 (identity_gate 2 "x" "y")) (Index (-1)) 2%nat
  = Raise AssertionError.
Proof.
  apply (getitem_out_of_range (OfCircuit false 0 1 (identity_gate 2 "x" "y"))
           2 (-1) 2); [by vm_compute|lia].
Defined.

(** A slice with a step is refused with [NotImplementedError] only when
    its start and its stop are both given; when one is left out the
    slice is rebuilt without the step, and the result is that of the
    slice without step. *)
Theorem getitem_step (e : Expr) (a b k : Z) (stop : option Z) (s : nat) :
  expr_getitem e (Slice (Some a) (Some b) (Some k)) s
    = Raise NotImplementedError
  ∧ expr_getitem e (Slice None stop (Some k)) s
    = expr_getitem e (Slice None stop None) s
  ∧ expr_getitem e (Slice (Some a) None (Some k)) s
    = expr_getitem e (Slice (Some a) None None) s.
Proof. by split_and!. Qed.

(** [e[k]] selects a bit: for an expression over a circuit with the
    single output word [o] of [n] bits (whose bits are outputs of the
    bit-level circuit) that evaluates to [bits], and [k < n], [e[k]] is
    an unsigned expression of one bit, with the inputs of [e], that
    evaluates to bit [k] of [bits]. *)
Theorem getitem_index_correct (sgn : bool) (i j : nat) (c : AIGBV)
    (o : string) (n k s : nat) (vals : gmap string (list bool))
    (bits : list bool) :
  omap c = {[ o := n ]} →
  (∀ b, b ∈ bundle o n → b ∈ aiger.outputs (aig c)) →
  expr_call (OfCircuit sgn i j c) vals = Ok bits →
  (k < n)%nat →
  ∃ (e' : Expr) (s' : nat),
    expr_getitem (OfCircuit sgn i j c) (Index (Z.of_nat k)) s = Ok (e', s')
    ∧ signed e' = false ∧ size e' = Ok 1%nat
    ∧ expr_inputs e' = inputs c
    ∧ expr_call e' vals = Ok [default false (bits !! k)].
Proof.
  intros Ho Hwf Hcall Hk.
  set (g := λ bs : list bool, [default false (bs !! k)]).
  destruct (rshift_unary c o ("_" +:+ pretty s) n 1 g Ho)
    as (c' & Hc' & Hi & Hom & Hl & Ha).
  exists (OfCircuit false (S s) (S (S s)) c'), (S (S (S s))).
  split_and!; [|done| | |].
  - unfold expr_getitem, _indexer, bindM, ret, lift.
    assert ((0 <=? Z.of_nat k) = true) as -> by (apply Z.leb_le; lia).
    assert ((Z.of_nat k <? Z.of_nat k + 1) = true) as ->
      by (apply Z.ltb_lt; lia).
    cbn [andb assert]. rewrite (size_single sgn i j c o n Ho).
    assert ((Z.of_nat k + 1 <=? Z.of_nat n) = true) as ->
      by (apply Z.leb_le; lia).
    cbn [assert].
    replace (Z.of_nat k + 1 - Z.of_nat k) with 1 by lia.
    rewrite Nat2Z.id. change (Z.to_nat 1) with 1%nat. cbn [seq].
    rewrite (output_single sgn i j c o n Ho). cbn [_fresh circuit_of aigbv].
    unfold index_gate. fold g. rewrite Hc'. done.
  - by apply (size_single _ _ _ _ ("_" +:+ pretty s)).
  - cbn [expr_inputs]. unfold inputs. by rewrite Hi.
  - apply (expr_call_single sgn i j c o n vals bits Ho) in Hcall
      as (rl & Hcall & Hn).
    apply (expr_call_single _ _ _ c' ("_" +:+ pretty s) 1 vals _ Hom).
    exists rl. split; [|done].
    by apply (unary_rshift_call c c' o _ n 1 g vals bits rl).
Qed.

Lemma getitem_index_correct_witness :
  ∃ (e' : Expr) (s' : nat),
    expr_getitem (OfCircuit true 0 1 (identity_gate 2 "x" "y"))
                 (Index (Z.of_nat 1)) 2%nat = Ok (e', s')
    ∧ signed e' = false ∧ size e' = Ok 1%nat
    ∧ expr_inputs e' = inputs (identity_gate 2 "x" "y")
    ∧ expr_call e' {[ "x"%string := [true; false] ]}
      = Ok [default false ([true; false] !! 1%nat)].
Proof.
  apply (getitem_index_correct true 0 1 (identity_gate 2 "x" "y") "y" 2 1 2
           {[ "x"%string := [true; false] ]} [true; false]).
  - reflexivity.
  - intros b Hb. cbn in Hb. cbn. set_solver.
  - by vm_compute.
  - lia.
Defined.

(** A slice of two or more bits never returns an expression: the
    indexers of its bits all read the output word of [e], and their
    parallel composition, which shares that input, raises. *)
Theorem getitem_slice_raises (sgn : bool) (i j : nat) (c : AIGBV)
    (o : string) (n a len s : nat) :
  omap c = {[ o := n ]} → (2 ≤ len)%nat → (a + len ≤ n)%nat →
  ∃ e : exn,
    expr_getitem (OfCircuit sgn i j c)
      (Slice (Some (Z.of_nat a)) (Some (Z.of_nat (a + len))) None) s
    = Raise e.
Proof.
  intros Ho Hlen Hn. unfold expr_getitem.
  rewrite (bindM_ok _ _ s s (Z.of_nat (a + len), None)) by done.
  rewrite (bindM_ok _ _ s s tt); cycle 1.
  { unfold lift.
    assert ((0 <=? Z.of_nat a) = true) as -> by (apply Z.leb_le; lia).
    assert ((Z.of_nat a <? Z.of_nat (a + len)) = true) as ->
      by (apply Z.ltb_lt; lia).
    done. }
  rewrite (bindM_ok _ _ s s n)
    by (unfold lift; by rewrite (size_single sgn i j c o n Ho)).
  rewrite (bindM_ok _ _ s s tt); cycle 1.
  { unfold lift.
    assert ((Z.of_nat (a + len) <=? Z.of_nat n) = true) as ->
      by (apply Z.leb_le; lia).
    done. }
  replace (Z.to_nat (Z.of_nat (a + len) - Z.of_nat a)) with len by lia.
  rewrite Nat2Z.id.
  destruct len as [|[|len]]; [lia|lia|]. cbn [seq].
  assert (∀ k s0, _indexer (OfCircuit sgn i j c) k s0
                  = Ok (index_gate n k o ("_" +:+ pretty s0), S s0)) as Hidx.
  { intros k s0. unfold _indexer, bindM, lift, ret.
    by rewrite (size_single sgn i j c o n Ho),
      (output_single sgn i j c o n Ho). }
  rewrite (bindM_ok _ _ _ _ _ (Hidx a s)).
  apply bindM_raise_ex. cbn [foldM]. apply bindM_raise_ex.
  rewrite (bindM_ok _ _ _ _ _ (Hidx (S a) (S s))).
  apply or_shared_inputs_never_returns.
  unfold inputs. cbn. rewrite !dom_singleton_L. set_solver.
Qed.

Lemma getitem_slice_raises_witness :
  ∃ e : exn,
    expr_getitem (OfCircuit false 0 1 (identity_gate 3 "x" "y"))
      (Slice (Some (Z.of_nat 0)) (Some (Z.of_nat (0 + 2))) None) 2%nat
    = Raise e.
Proof.
  apply (getitem_slice_raises false 0 1 (identity_gate 3 "x" "y") "y" 3 0 2 2);
    [reflexivity|lia|lia].
Defined.

(** ** Derived comparisons of an expression with itself *)

Lemma same_circ_result (gate : nat → string → string → string → AIGBV)
    (k : Z) (sz : option nat)
    (sgn : bool) (i j : nat) (c : AIGBV) (o : string) (n s : nat) :
  omap c = {[ o := n ]} →
  let e := OfCircuit sgn i j c in
  _binary_gate gate e (inl e) (Some (constk k sz)) s
  = Ok (OfCircuit sgn s (S s)
          (const_circuit (default n sz) k n (elements (inputs c))),
        S (S s)).
Proof.
  intros Ho e.
  pose proof (size_single sgn i j c o n Ho) as Hsize. fold e in Hsize.
  unfold _binary_gate.
  rewrite (bindM_ok _ _ s s e) by done.
  rewrite (bindM_ok _ _ s s n) by (unfold lift; by rewrite Hsize).
  rewrite (bindM_ok _ _ s s n) by (unfold lift; by rewrite Hsize).
  rewrite (bindM_ok _ _ s s tt)
    by (unfold lift; by rewrite bool_decide_eq_true_2).
  rewrite bool_decide_eq_true_2 by done.
  rewrite (bindM_ok _ _ s s
             (inl (const_circuit (default n sz) k n (elements (inputs c)))));
    [done|].
  unfold constk.
  rewrite (bindM_ok _ _ s s (default n sz)); cycle 1.
  { destruct sz; [done|]. unfold lift. by rewrite Hsize. }
  rewrite (bindM_ok _ _ s s n) by (unfold lift; by rewrite Hsize).
  rewrite (bindM_ok _ _ s s
             (const_circuit (default n sz) k n (elements (inputs c))));
    [done|].
  apply or_source_sink.
Qed.

Lemma invert_constant (sgn : bool) (i j : nat) (k : Z) (n : nat)
    (ins : list string) (s : nat) (vals : gmap string (list bool)) :
  dom vals = list_to_set ins →
  (∀ w bits, vals !! w = Some bits → (n ≤ length bits)%nat) →
  ∃ (e' : Expr) (s' : nat),
    invert (OfCircuit sgn i j (const_circuit 1 k n ins)) s = Ok (e', s')
    ∧ expr_call e' vals = Ok [negb (Z.testbit k 0)].
Proof.
  intros Hdom Hlen.
  assert (omap (const_circuit 1 k n ins) = {[ "x"%string := 1%nat ]}) as Ho.
  { cbn. by rewrite (right_id_L ∅ (∪)). }
  destruct (unary_gate_expr (fmap negb) 1 sgn i j (const_circuit 1 k n ins)
              "x" 1 s vals (bits_of 1 k) Ho)
    as (c' & Hc' & _ & _ & Hev).
  - intros b Hb. cbn in Hb. cbn. rewrite dom_insert_L. set_solver.
  - apply (expr_call_single _ _ _ _ "x" 1); [done|].
    exists ∅. split; [|done].
    rewrite (call_const_circuit 1 k n ins vals Hdom Hlen). done.
  - done.
  - eexists _, _. split; [|exact Hev].
    rewrite <- Hc'. unfold invert, _unary_gate, bindM, lift.
    by rewrite (size_single sgn i j _ "x" 1 Ho).
Qed.

(** The derived comparisons of an expression with itself are constants:
    [e == e] is built as the negation of the constant 0 that [e != e]
    gives and evaluates to the one-bit 1; [e < e] and [e > e] negate the
    constant 1 of [e >= e] and [e <= e] and evaluate to the one-bit 0
    (on input words of at least [n] bits, as the sink reads them). *)
Theorem self_comparison_constant (sgn : bool) (i j : nat) (c : AIGBV)
    (o : string) (n s : nat) (vals : gmap string (list bool)) :
  omap c = {[ o := n ]} → dom vals = inputs c →
  (∀ w bits, vals !! w = Some bits → (n ≤ length bits)%nat) →
  let e := OfCircuit sgn i j c in
  evaluates_to (eq e (inl e)) s vals [true]
  ∧ evaluates_to (lt e (inl e)) s vals [false]
  ∧ evaluates_to (gt e (inl e)) s vals [false].
Proof.
  intros Ho Hdom Hlen e.
  assert (Hd : dom vals = list_to_set (elements (inputs c))).
  { rewrite Hdom. apply set_eq. intros w.
    by rewrite elem_of_list_to_set, elem_of_elements. }
  unfold evaluates_to, eq, lt, gt, ne, ge, le.
  split_and!.
  - rewrite (bindM_ok _ _ _ _ _
               (same_circ_result ne_gate 0 (Some 1%nat) sgn i j c o n s Ho)).
    apply (invert_constant sgn s (S s) 0 n _ (S (S s)) vals Hd Hlen).
  - rewrite (bindM_ok _ _ _ _ _
               (same_circ_result _ 1 (Some 1%nat) sgn i j c o n s Ho)).
    apply (invert_constant sgn s (S s) 1 n _ (S (S s)) vals Hd Hlen).
  - rewrite (bindM_ok _ _ _ _ _
               (same_circ_result _ 1 (Some 1%nat) sgn i j c o n s Ho)).
    apply (invert_constant sgn s (S s) 1 n _ (S (S s)) vals Hd Hlen).
Qed.

Lemma self_comparison_constant_witness :
  let e := OfCircuit false 0 1 (identity_gate 2 "x" "y") in
  let vals : gmap string (list bool) := {[ "x"%string := [true; false] ]} in
  evaluates_to (eq e (inl e)) 2 vals [true]
  ∧ evaluates_to (lt e (inl e)) 2 vals [false]
  ∧ evaluates_to (gt e (inl e)) 2 vals [false].
Proof.
  apply (self_comparison_constant false 0 1 (identity_gate 2 "x" "y") "y" 2 2
           {[ "x"%string := [true; false] ]}).
  - reflexivity.
  - compute_done.
  - intros w bits [<- <-]%lookup_singleton_Some. simpl. lia.
Defined.

(** ** Parallel composition without shared names *)

Lemma or_disjoint (A B : AIGBV) (s : nat) :
  inputs A ∩ inputs B = ∅ → outputs A ∩ outputs B = ∅ →
  latches A ∩ latches B = ∅ →
  or_ A B s
  = Ok ({| aig := aiger.par_compose (aig A) (aig B);
           imap := imap A ∪ imap B;
           omap := omap A ∪ omap B;
           lmap := lmap A ∪ lmap B |}, s).
Proof.
  intros Hi Ho Hl. unfold or_.
  rewrite (bindM_ok _ _ s s tt)
    by (unfold lift, is_empty; by rewrite bool_decide_eq_true_2).
  rewrite (bindM_ok _ _ s s tt)
    by (unfold lift, is_empty; by rewrite bool_decide_eq_true_2).
  cbv zeta. rewrite Hi, elements_empty.
  cbn [mapM_]. rewrite (bindM_ok _ _ s s []) by done.
  rewrite (bindM_ok _ _ s s []) by done.
  rewrite bool_decide_eq_true_2 by done. cbn [negb].
  rewrite (bindM_ok _ _ s s A) by done.
  rewrite (bindM_ok _ _ s s B) by done.
  rewrite (bindM_ok _ _ s s (imap A ∪ imap B))
    by (unfold lift, bm_add; by rewrite bool_decide_eq_true_2).
  rewrite (bindM_ok _ _ s s (omap A ∪ omap B))
    by (unfold lift, bm_add; by rewrite bool_decide_eq_true_2).
  rewrite (bindM_ok _ _ s s (lmap A ∪ lmap B))
    by (unfold lift, bm_add; by rewrite bool_decide_eq_true_2).
  done.
Qed.

(** [A | B] of two circuits that share no input, output or latch name
    is their parallel composition under the unions of the bundle maps;
    no name is relabelled and no fresh name is drawn.  Sharing an
    output or a latch name is rejected on an assertion. *)
Theorem or_without_shared_names (A B : AIGBV) (s : nat) :
  inputs A ∩ inputs B = ∅ →
  (outputs A ∩ outputs B = ∅ ∧ latches A ∩ latches B = ∅
   ∧ or_ A B s
     = Ok ({| aig := aiger.par_compose (aig A) (aig B);
              imap := imap A ∪ imap B;
              omap := omap A ∪ omap B;
              lmap := lmap A ∪ lmap B |}, s))
  ∨ ((outputs A ∩ outputs B ≠ ∅ ∨ latches A ∩ latches B ≠ ∅)
     ∧ or_ A B s = Raise AssertionError).
Proof.
  intros Hi.
  destruct (decide (outputs A ∩ outputs B = ∅)) as [Ho|Ho].
  - destruct (decide (latches A ∩ latches B = ∅)) as [Hl|Hl].
    + left. split_and!; [done|done|]. by apply or_disjoint.
    + right. split; [by right|]. unfold or_.
      rewrite (bindM_ok _ _ s s tt)
        by (unfold lift, is_empty; by rewrite bool_decide_eq_true_2).
      apply bindM_raise. unfold lift, is_empty.
      by rewrite bool_decide_eq_false_2.
  - right. split; [by left|]. unfold or_. apply bindM_raise.
    unfold lift, is_empty. by rewrite bool_decide_eq_false_2.
Qed.

Lemma or_without_shared_names_witness :
  let A := identity_gate 2 "x" "a" in
  let B := identity_gate 2 "y" "b" in
  (outputs A ∩ outputs B = ∅ ∧ latches A ∩ latches B = ∅
   ∧ or_ A B 0%nat
     = Ok ({| aig := aiger.par_compose (aig A) (aig B);
              imap := imap A ∪ imap B;
              omap := omap A ∪ omap B;
              lmap := lmap A ∪ lmap B |}, 0%nat))
  ∨ ((outputs A ∩ outputs B ≠ ∅ ∨ latches A ∩ latches B ≠ ∅)
     ∧ or_ A B 0%nat = Raise AssertionError).
Proof.
  apply (or_without_shared_names (identity_gate 2 "x" "a")
           (identity_gate 2 "y" "b") 0).
  compute_done.
Defined.

(** ** Operators on two atoms *)

Lemma list_to_map_lookup_unique {V} (l : list (string * V)) (x : string) (v : V) :
  (x, v) ∈ l → (∀ v', (x, v') ∈ l → v' = v) →
  (list_to_map l : gmap string V) !! x = Some v.
Proof.
  induction l as [|[k w] l IH]; [by intros ?%elem_of_nil|].
  intros Hin Huniq. cbn [list_to_map foldr].
  destruct (decide (k = x)) as [->|Hne].
  - rewrite lookup_insert_eq. f_equal. apply Huniq. left.
  - rewrite lookup_insert_ne by done. apply IH.
    + apply elem_of_cons in Hin as [[= ? ?]|?]; [congruence|done].
    + intros v' Hv'. apply Huniq. by right.
Qed.

Lemma blast_uniform (m : BundleMap) (n : nat) (vals : gmap string (list bool)) :
  (∀ k bits, vals !! k = Some bits → m !! k = Some n) →
  bm_blast m vals
  = Ok (list_to_map (mjoin (blast_word n <$> map_to_list vals))).
Proof.
  intros Hm. unfold bm_blast.
  rewrite (mapR_fmap _ (blast_word n)); [done|].
  intros [k bits] Hin%elem_of_map_to_list.
  unfold bm_getitem, getitem. by rewrite (Hm _ _ Hin).
Qed.

Lemma blast_uniform_lookup (n : nat) (vals : gmap string (list bool))
    (k : string) (bits : list bool) (j : nat) (v : bool) :
  vals !! k = Some bits → bits !! j = Some v → (j < n)%nat →
  (list_to_map (mjoin (blast_word n <$> map_to_list vals)) : gmap string bool)
    !! bit_name k j = Some v.
Proof.
  intros Hk Hj Hn. apply list_to_map_lookup_unique.
  - apply list_elem_of_join. exists (blast_word n (k, bits)). split.
    + apply list_elem_of_lookup. exists j. unfold blast_word. cbn [fst snd].
      apply lookup_zip_with_Some. eexists _, _. split; [done|]. split; [|done].
      unfold bundle. by rewrite list_lookup_fmap, lookup_seq_lt.
    + apply list_elem_of_fmap. exists (k, bits). split; [done|].
      by apply elem_of_map_to_list.
  - intros v' (l & Hl & ([k' bits'] & -> & Hin)%list_elem_of_fmap)%list_elem_of_join.
    apply elem_of_map_to_list in Hin.
    apply list_elem_of_lookup in Hl as (j' & Hj').
    unfold blast_word in Hj'. cbn [fst snd] in Hj'.
    apply lookup_zip_with_Some in Hj' as (s & b & [= <- <-] & Hs & Hb).
    unfold bundle in Hs. rewrite list_lookup_fmap in Hs.
    destruct (seq 0 n !! j') as [i|] eqn:Hi; [|done].
    apply lookup_seq in Hi as [-> _]. cbn in Hs.
    injection Hs as Hs. apply bit_name_inj2 in Hs as [-> ->].
    congruence.
Qed.

Lemma bundle_Forall2 (name : string) (bits : list bool) (m : gmap string bool) :
  (∀ j v, bits !! j = Some v → m !! bit_name name j = Some v) →
  Forall2 (λ s v, m !! s = Some v) (bundle name (length bits)) bits.
Proof.
  intros Hm. unfold bundle. apply Forall2_fmap_l, Forall2_same_length_lookup_2.
  - by rewrite length_seq.
  - intros j i b [-> Hi]%lookup_seq Hb. by apply Hm.
Qed.

Lemma bundle_map_lookup_other (name other : string) (n : nat)
    (bits : list bool) (j : nat) :
  other ≠ name →
  (list_to_map (zip (bundle name n) bits) : gmap string bool)
    !! bit_name other j = None.
Proof.
  intros Hne. apply not_elem_of_list_to_map_1.
  intros ([s v] & Hs & Hin%elem_of_zip_l)%list_elem_of_fmap.
  cbn in Hs. subst s. unfold bundle in Hin.
  apply list_elem_of_fmap in Hin as (i & Hi & _).
  by apply bit_name_inj2 in Hi as [? _].
Qed.

Lemma call_binary_on_identities (F : list bool → list bool → list bool)
    (m : nat) (a b o1 o2 f : string) (x y : list bool) (c4 : AIGBV) :
  a ≠ b → o1 ≠ o2 → length y = length x → length (F x y) = m →
  imap c4 = {[ a := length x ]} ∪ {[ b := length x ]} →
  omap c4 = {[ f := m ]} → lmap c4 = ∅ →
  aig c4 = aiger.seq_compose
             (aiger.par_compose (aig (identity_gate (length x) a o1))
                                (aig (identity_gate (length x) b o2)))
             (aig (binary_gate F m (length x) o1 o2 f)) →
  call c4 {[ a := x; b := y ]} None = Ok ({[ f := F x y ]}, ∅).
Proof.
  intros Hab Ho12 Hy Hm Hi Ho Hl Ha. unfold call.
  rewrite Hi, Ho, Hl, Ha.
  set (vals := ({[ a := x; b := y ]} : gmap string (list bool))).
  assert (vals !! a = Some x) as Hva by (unfold vals; by rewrite lookup_insert_eq).
  assert (vals !! b = Some y) as Hvb
    by (unfold vals; by rewrite lookup_insert_ne, lookup_singleton_eq).
  rewrite (blast_uniform _ (length x)); cycle 1.
  { intros k bits Hk. unfold vals in Hk.
    apply lookup_insert_Some in Hk as [[<- _]|[_ [<- _]%lookup_singleton_Some]].
    - apply lookup_union_Some_l, lookup_singleton_eq.
    - rewrite lookup_union_r by by apply lookup_singleton_ne.
      apply lookup_singleton_eq. }
  cbn [bind].
  set (bi := (list_to_map (mjoin (blast_word (length x) <$> map_to_list vals))
              : gmap string bool)).
  unfold aiger.call. cbn [default].
  set (l0 := ∅ ∪ aiger.latch2init _).
  cbn [identity_gate unary_gate binary_gate aig].
  assert (aiger.step
            (aiger.par_compose
               (aiger.gate (bundle a (length x)) (bundle o1 (length x)) id)
               (aiger.gate (bundle b (length x)) (bundle o2 (length x)) id))
            bi l0
          = Some (list_to_map (zip (bundle o1 (length x)) x)
                    ∪ list_to_map (zip (bundle o2 (length x)) y), ∅ ∪ ∅))
    as Hpar.
  { cbn [aiger.par_compose aiger.step].
    rewrite (gate_eval (bundle a (length x)) _ _ _ _ x); cycle 1.
    { apply bundle_Forall2. intros j v Hj.
      apply (blast_uniform_lookup _ vals a x); [done|done|].
      by eapply lookup_lt_Some. }
    rewrite (gate_eval (bundle b (length x)) _ _ _ _ y); cycle 1.
    { rewrite <- Hy. apply bundle_Forall2. intros j v Hj.
      apply (blast_uniform_lookup _ vals b y); [done|done|].
      rewrite <- Hy. by eapply lookup_lt_Some. }
    done. }
  rewrite (seq_gate_step _ _ _ _ _ _ _ _ (x ++ y) Hpar); cycle 1.
  { apply Forall2_app.
    - apply bundle_Forall2. intros j v Hj.
      apply lookup_union_Some_l. by apply bundle_map_lookup.
    - rewrite <- Hy. apply bundle_Forall2. intros j v Hj.
      rewrite lookup_union_r by by apply bundle_map_lookup_other.
      rewrite Hy. rewrite <- Hy at 1. by apply bundle_map_lookup. }
  { intros s Hs. cbn [aiger.par_compose aiger.outputs aiger.gate].
    apply elem_of_app in Hs as [Hs|Hs]; set_solver. }
  cbn [of_option bind fst snd].
  rewrite take_app_length, drop_app_length.
  rewrite <- Hm, unblast_word. cbn [bind].
  unfold bm_unblast. by rewrite map_to_list_empty.
Qed.

Lemma bm_omit_all (m : BundleMap) (X : gset string) :
  dom m ⊆ X → bm_omit m X = ∅.
Proof.
  intros Hsub. unfold bm_omit. apply map_empty. intros k.
  apply map_lookup_filter_None.
  destruct (m !! k) as [v|] eqn:Hk; [right|by left].
  intros v' [= <-]. cbn. intros Hout. apply Hout, Hsub. by apply elem_of_dom.
Qed.

Lemma rshift_binary (c : AIGBV) (o1 o2 f : string) (n m : nat)
    (F : list bool → list bool → list bool) :
  omap c = {[ o1 := n ]} ∪ {[ o2 := n ]} →
  ∃ c' : AIGBV,
    rshift c (binary_gate F m n o1 o2 f) = Ok c'
    ∧ imap c' = imap c ∧ omap c' = {[ f := m ]} ∧ lmap c' = lmap c
    ∧ aig c' = aiger.seq_compose (aig c) (aig (binary_gate F m n o1 o2 f)).
Proof.
  intros Ho. unfold rshift, binary_gate, inputs, outputs, latches, is_empty.
  cbn [imap omap lmap aig]. rewrite Ho.
  rewrite dom_union_L, dom_insert_L, !dom_singleton_L, dom_empty_L.
  rewrite !bool_decide_eq_true_2 by set_solver. cbn [assert bind].
  rewrite (bm_omit_all {[ o1 := n; o2 := n ]})
    by (rewrite dom_insert_L, dom_singleton_L; set_solver).
  rewrite (bm_omit_all ({[ o1 := n ]} ∪ {[ o2 := n ]}))
    by (rewrite dom_union_L, !dom_singleton_L; set_solver).
  rewrite !bm_add_empty_r. cbn [bind]. eexists. by split_and!.
Qed.

Lemma bundles_disjoint (o1 o2 : string) (n : nat) :
  o1 ≠ o2 →
  (list_to_set (bundle o1 n) : gset string) ∩ list_to_set (bundle o2 n) = ∅.
Proof.
  intros Hne. apply set_eq. intros s.
  rewrite elem_of_intersection, !elem_of_list_to_set. unfold bundle.
  rewrite !list_elem_of_fmap. split; [|by intros ?%elem_of_empty].
  intros [(i1 & -> & _) (i2 & H & _)]. by apply bit_name_inj2 in H as [? _].
Qed.

Lemma fresh_names_differ (s k : nat) :
  (0 < k)%nat → "_" +:+ pretty s ≠ "_" +:+ pretty (s + k)%nat.
Proof.
  intros Hk H. apply (inj (String.app "_")) in H.
  apply (inj pretty) in H. lia.
Qed.

Lemma binary_on_atoms (op : Expr → Expr + Z → M Expr)
    (gate : nat → string → string → string → AIGBV)
    (F : list bool → list bool → list bool) (m : nat)
    (same_circ : option (Expr → M (AIGBV + Expr)))
    (a b : string) (sgn : bool) (s : nat) (x y : list bool) :
  (∀ e1 e2, signed e1 = sgn → op e1 e2 = _binary_gate gate e1 e2 same_circ) →
  (∀ o1 o2 f, gate (length x) o1 o2 f = binary_gate F m (length x) o1 o2 f) →
  a ≠ b → length y = length x → length (F x y) = m →
  evaluates_to (on_atoms op (length x) a b sgn) s {[ a := x; b := y ]} (F x y).
Proof.
  intros Hop Hgate Hab Hy Hm. set (n := length x).
  set (o1 := "_" +:+ pretty s). set (o2 := "_" +:+ pretty (3 + s)%nat).
  set (f := "_" +:+ pretty (6 + s)%nat).
  set (e1 := OfCircuit sgn (S s) (S (S s)) (identity_gate n a o1)).
  set (e2 := OfCircuit sgn (4 + s)%nat (5 + s)%nat (identity_gate n b o2)).
  assert (o1 ≠ o2) as Ho12.
  { unfold o1, o2. rewrite (Nat.add_comm 3 s). apply fresh_names_differ. lia. }
  assert (size e1 = Ok n) as Hs1 by by apply (size_single _ _ _ _ o1).
  assert (size e2 = Ok n) as Hs2 by by apply (size_single _ _ _ _ o2).
  assert (output e1 = Ok o1) as Ho1 by by apply (output_single _ _ _ _ _ n).
  assert (output e2 = Ok o2) as Ho2 by by apply (output_single _ _ _ _ _ n).
  set (circ3 := {| aig := aiger.par_compose (aig (identity_gate n a o1))
                                            (aig (identity_gate n b o2));
                   imap := {[ a := n ]} ∪ {[ b := n ]};
                   omap := {[ o1 := n ]} ∪ {[ o2 := n ]};
                   lmap := ∅ ∪ ∅ |}).
  destruct (rshift_binary circ3 o1 o2 f n m F eq_refl)
    as (c4 & Hc4 & Hi4 & Ho4 & Hl4 & Ha4).
  assert (compose_gate gate e1 e2 (6 + s)%nat
          = Ok (OfCircuit sgn (7 + s)%nat (8 + s)%nat c4, (9 + s)%nat)) as Hcomp.
  { unfold compose_gate.
    rewrite (bindM_ok _ _ _ (6 + s)%nat (identity_gate n a o1)) by done.
    rewrite (bindM_ok _ _ _ (6 + s)%nat (identity_gate n b o2)) by done.
    rewrite (bindM_ok _ _ _ (6 + s)%nat e2); cycle 1.
    { unfold is_empty. cbn [identity_gate unary_gate aig aiger.gate aiger.outputs].
      rewrite bool_decide_eq_true_2 by by apply bundles_disjoint. done. }
    rewrite (bindM_ok _ _ _ (6 + s)%nat (identity_gate n b o2)) by done.
    rewrite (bindM_ok _ _ _ (6 + s)%nat circ3); cycle 1.
    { apply or_disjoint; unfold inputs, outputs, latches; cbn;
        rewrite ?dom_singleton_L, ?dom_empty_L; set_solver. }
    rewrite (bindM_ok _ _ _ (6 + s)%nat n) by (unfold lift; by rewrite Hs1).
    rewrite (bindM_ok _ _ _ (7 + s)%nat f) by done.
    rewrite (bindM_ok _ _ _ (7 + s)%nat o1) by (unfold lift; by rewrite Ho1).
    rewrite (bindM_ok _ _ _ (7 + s)%nat o2) by (unfold lift; by rewrite Ho2).
    assert (gate n o1 o2 f = binary_gate F m n o1 o2 f) as Hg by apply Hgate.
    rewrite (bindM_ok _ _ _ (7 + s)%nat c4)
      by (unfold lift; by rewrite Hg, Hc4).
    reflexivity. }
  exists (OfCircuit sgn (7 + s)%nat (8 + s)%nat c4), (9 + s)%nat. split.
  - unfold on_atoms.
    rewrite (bindM_ok _ _ s (S (S (S s))) e1) by reflexivity.
    rewrite (bindM_ok _ _ _ (6 + s)%nat e2); cycle 1.
    { reflexivity. }
    rewrite Hop by done. unfold _binary_gate.
    rewrite (bindM_ok _ _ _ (6 + s)%nat e2) by done.
    rewrite (bindM_ok _ _ _ (6 + s)%nat n) by (unfold lift; by rewrite Hs1).
    rewrite (bindM_ok _ _ _ (6 + s)%nat n) by (unfold lift; by rewrite Hs2).
    rewrite (bindM_ok _ _ _ (6 + s)%nat tt)
      by (unfold lift; by rewrite bool_decide_eq_true_2).
    destruct same_circ as [sc|]; [|exact Hcomp].
    rewrite bool_decide_eq_false_2; [exact Hcomp|]. cbn. lia.
  - apply (expr_call_single _ _ _ c4 f m _ _ Ho4).
    exists ∅. split; [|done].
    by apply (call_binary_on_identities F m a b o1 o2 f x y c4).
Qed.

(** The operators compute on the values of their operands: applied to
    two atoms that read different words [a] and [b] of [n] bits, each
    binary operator builds an expression that evaluates, on the values
    [x] and [y] given for the words, to what its gate computes of [x]
    and [y]: sum and difference modulo [2^n], bitwise operations,
    and the one-bit comparisons (signed for signed expressions). *)
Theorem operators_on_atoms (n : nat) (a b : string) (sgn : bool) (s : nat)
    (x y : list bool) :
  a ≠ b → length x = n → length y = n →
  let vals : gmap string (list bool) := {[ a := x; b := y ]} in
  evaluates_to (on_atoms add n a b sgn) s vals (word_op n Z.add x y)
  ∧ evaluates_to (on_atoms sub n a b sgn) s vals (word_op n Z.sub x y)
  ∧ evaluates_to (on_atoms and_ n a b sgn) s vals (zip_with andb x y)
  ∧ evaluates_to (on_atoms bor n a b sgn) s vals (zip_with orb x y)
  ∧ evaluates_to (on_atoms xor n a b sgn) s vals (zip_with xorb x y)
  ∧ evaluates_to (on_atoms ne n a b sgn) s vals
      (word_test (λ u v, negb (u =? v)) x y)
  ∧ evaluates_to (on_atoms le n a b sgn) s vals
      (if sgn then [signed_of x <=? signed_of y] else word_test Z.leb x y)
  ∧ evaluates_to (on_atoms ge n a b sgn) s vals
      (if sgn then [signed_of x >=? signed_of y] else word_test Z.geb x y).
Proof.
  intros Hab Hx Hy vals. subst n.
  assert (Hzip : ∀ g : bool → bool → bool,
            length (zip_with g x y) = length x).
  { intros g. rewrite length_zip_with. lia. }
  split_and!.
  - by apply (binary_on_atoms add add_gate _ (length x) (Some same_id));
      [..|apply bits_of_length].
  - by apply (binary_on_atoms sub subtract_gate _ (length x)
                (Some (constk 0 None))); [..|apply bits_of_length].
  - by apply (binary_on_atoms and_ bitwise_and _ (length x) (Some same_id)).
  - by apply (binary_on_atoms bor bitwise_or _ (length x) (Some same_id)).
  - by apply (binary_on_atoms xor bitwise_xor _ (length x)
                (Some (constk 0 None))).
  - by apply (binary_on_atoms ne ne_gate (word_test (λ u v, negb (u =? v))) 1
                (Some (constk 0 (Some 1%nat)))).
  - destruct sgn.
    + apply (binary_on_atoms le signed_le_gate
               (λ u v, [signed_of u <=? signed_of v]) 1
               (Some (constk 1 (Some 1%nat))));
        [intros e1 e2 He; unfold le; by rewrite He
        |reflexivity|exact Hab|exact Hy|reflexivity].
    + apply (binary_on_atoms le unsigned_le_gate (word_test Z.leb) 1
               (Some (constk 1 (Some 1%nat))));
        [intros e1 e2 He; unfold le; by rewrite He
        |reflexivity|exact Hab|exact Hy|reflexivity].
  - destruct sgn.
    + apply (binary_on_atoms ge signed_ge_gate
               (λ u v, [signed_of u >=? signed_of v]) 1
               (Some (constk 1 (Some 1%nat))));
        [intros e1 e2 He; unfold ge; by rewrite He
        |reflexivity|exact Hab|exact Hy|reflexivity].
    + apply (binary_on_atoms ge unsigned_ge_gate (word_test Z.geb) 1
               (Some (constk 1 (Some 1%nat))));
        [intros e1 e2 He; unfold ge; by rewrite He
        |reflexivity|exact Hab|exact Hy|reflexivity].
Qed.

Lemma operators_on_atoms_witness :
  let vals : gmap string (list bool) :=
    {[ "a"%string := [true; false]; "b"%string := [true; true] ]} in
  let x := [true; false] in
  let y := [true; true] in
  evaluates_to (on_atoms add 2 "a" "b" false) 0 vals (word_op 2 Z.add x y)
  ∧ evaluates_to (on_atoms sub 2 "a" "b" false) 0 vals (word_op 2 Z.sub x y)
  ∧ evaluates_to (on_atoms and_ 2 "a" "b" false) 0 vals (zip_with andb x y)
  ∧ evaluates_to (on_atoms bor 2 "a" "b" false) 0 vals (zip_with orb x y)
  ∧ evaluates_to (on_atoms xor 2 "a" "b" false) 0 vals (zip_with xorb x y)
  ∧ evaluates_to (on_atoms ne 2 "a" "b" false) 0 vals
      (word_test (λ u v, negb (u =? v)) x y)
  ∧ evaluates_to (on_atoms le 2 "a" "b" false) 0 vals
      (if false then [signed_of x <=? signed_of y] else word_test Z.leb x y)
  ∧ evaluates_to (on_atoms ge 2 "a" "b" false) 0 vals
      (if false then [signed_of x >=? signed_of y] else word_test Z.geb x y).
Proof.
  apply (operators_on_atoms 2 "a" "b" false 0 [true; false] [true; true]);
    [done|reflexivity|reflexivity].
Defined.
